(** * TVH-IPTV-Config: the EPG pipeline of [backend/epgs.py]

    A shallow embedding of the guide ingestion ([import_epg_data] and the
    functions it calls), of the synthesis of the merged XMLTV document
    ([build_custom_epg]) and of the online enrichment stage
    ([update_programme_with_online_data] and the two cached look-ups), with
    the properties of the design document stated over it; then of the
    editing of the guide sources ([add_new_epg], [update_epg], [delete_epg]),
    of the settings file of [backend/config.py] ([recursive_dict_update] and
    the class [Config]) and of the enrichment run over all channels
    ([update_channel_epg_with_online_data]), with the properties the code
    shows for them.

    Conventions.
    - A Python [str] is a [string]; a value that may be [None] is an
      [option]; Python truthiness of such a value is [truthy].
    - The SQLite tables are lists of rows in storage order; a query without
      an ORDER BY returns the rows in that order.
    - The three JSON text columns of a programme ([categories], [keywords],
      [credits]) are held as the value [json.dumps] encoded, which
      [json.loads] gives back.
    - [ElementTree] documents are trees of [Element]; the output file is the
      ElementTree serialisation of the tree [build_custom_epg] builds. *)

From Stdlib Require Import ZArith Ascii Sorting.Sorted Permutation.
From stdpp Require Import base option list strings gmap pretty.

Local Open Scope Z_scope.

(** ** Python values *)

Module Py.

(** [bool(s)] for a string that may be [None]. *)
Definition truthy (s : option string) : bool :=
  match s with
  | Some (String _ _) => true
  | _ => false
  end.

(** [bool(b)] for a nullable Boolean column. *)
Definition truthy_bool (b : option bool) : bool :=
  match b with
  | Some true => true
  | _ => false
  end.

(** [str(n)] for an integer. *)
Definition str_int (n : Z) : string := pretty n.

(** What an f-string prints for a value that may be [None]. *)
Definition fmt (s : option string) : string := default "None" s.

(** [str(n)] for an integer column that may be NULL. *)
Definition str_opt_int (n : option Z) : string := fmt (str_int <$> n).

Definition is_space (c : ascii) : bool :=
  let n := nat_of_ascii c in
  ((9 <=? n)%nat && (n <=? 13)%nat) || ((28 <=? n)%nat && (n <=? 32)%nat).

Fixpoint lstrip (s : string) : string :=
  match s with
  | String c s' => if is_space c then lstrip s' else s
  | EmptyString => EmptyString
  end.

Fixpoint rstrip (s : string) : string :=
  match s with
  | String c s' =>
      match rstrip s' with
      | EmptyString => if is_space c then EmptyString else String c EmptyString
      | r => String c r
      end
  | EmptyString => EmptyString
  end.

(** [s.strip()], on the ASCII white space. *)
Definition strip (s : string) : string := rstrip (lstrip s).

Definition lower_ascii (c : ascii) : ascii :=
  let n := nat_of_ascii c in
  if ((65 <=? n)%nat && (n <=? 90)%nat) then ascii_of_nat (n + 32) else c.

(** [s.lower()], on the ASCII letters. *)
Fixpoint lower (s : string) : string :=
  match s with
  | String c s' => String (lower_ascii c) (lower s')
  | EmptyString => EmptyString
  end.

(** [s.split(' ', 1)] when [' ' in s]: the text before the first space and
    the text after it; [None] when [s] has no space. *)
Fixpoint split_space (s : string) : option (string * string) :=
  match s with
  | EmptyString => None
  | String c s' =>
      if Ascii.eqb c " "%char then Some (EmptyString, s')
      else match split_space s' with
           | Some (a, b) => Some (String c a, b)
           | None => None
           end
  end.

End Py.

(** ** ElementTree *)

Module ET.

#[warnings="-register-all"]
Inductive Element : Type :=
  mkElement (tag : string) (attrib : list (string * string))
            (text : option string) (children : list Element).

Definition tag (e : Element) : string :=
  let 'mkElement t _ _ _ := e in t.
Definition attrib (e : Element) : list (string * string) :=
  let 'mkElement _ a _ _ := e in a.
Definition text (e : Element) : option string :=
  let 'mkElement _ _ x _ := e in x.
Definition children (e : Element) : list Element :=
  let 'mkElement _ _ _ c := e in c.

(** [attrib.get(key, None)]: the attributes of a parsed element have
    distinct names. *)
Fixpoint assoc (key : string) (a : list (string * string)) : option string :=
  match a with
  | [] => None
  | (k, v) :: a' => if String.eqb k key then Some v else assoc key a'
  end.

Definition get (e : Element) (key : string) : option string :=
  assoc key (attrib e).

Definition has_tag (name : string) (e : Element) : bool :=
  String.eqb (tag e) name.

(** [e.findall(name)]: the direct children with that tag, in order. *)
Definition findall (e : Element) (name : string) : list Element :=
  List.filter (has_tag name) (children e).

(** [e.find(name)]: the first such child. *)
Definition find (e : Element) (name : string) : option Element :=
  head (findall e name).

(** [e.findtext(name, default=None)]: an element that is there and has no
    text gives the empty string. *)
Definition findtext (e : Element) (name : string) : option string :=
  (fun c => default "" (text c)) <$> find e name.

(** All elements below [e], in document order. *)
Fixpoint descendants (e : Element) : list Element :=
  let 'mkElement _ _ _ cs := e in
  (fix below (l : list Element) : list Element :=
     match l with
     | [] => []
     | c :: l' => c :: descendants c ++ below l'
     end) cs.

(** [e.iterfind('.//name')]. *)
Definition iterfind (e : Element) (name : string) : list Element :=
  List.filter (has_tag name) (descendants e).

(** [ET.SubElement(parent, name)] followed by the [set] and [text]
    assignments the caller makes on the new element. *)
Definition elem (name : string) (a : list (string * string))
           (t : option string) (cs : list Element) : Element :=
  mkElement name a t cs.

End ET.

(** What [ET.fromstring] and [ET.parse] make of the bytes of a cached file. *)
Inductive xmltv_file : Type :=
| NotWellFormed
| Document (root : ET.Element).

(** ** The tables of [backend/models.py] *)

Module Epg.
Record row : Type := mk {
  id : Z;
  enabled : bool;
  name : option string;
  url : option string
}.
End Epg.

Module EpgChannels.
Record row : Type := mk {
  id : Z;
  channel_id : option string;
  name : option string;
  icon_url : option string;
  epg_id : Z
}.

(** The row with its primary key set, as the INSERT leaves it. *)
Definition with_id (i : Z) (c : row) : row :=
  mk i (channel_id c) (name c) (icon_url c) (epg_id c).
End EpgChannels.

Module EpgChannelProgrammes.
Record row : Type := mk {
  id : Z;
  channel_id : option string;
  title : option string;
  sub_title : option string;
  desc : option string;
  series_desc : option string;
  country : option string;
  icon_url : option string;
  start : option string;
  stop : option string;
  start_timestamp : option string;
  stop_timestamp : option string;
  categories : option (list string);
  url : option string;
  date : option string;
  length : option string;
  keywords : option (list string);
  credits : option (list (string * list string));
  episode_num_system : option string;
  episode_num_value : option string;
  rating_system : option string;
  rating_value : option string;
  star_rating : option string;
  video_present : option bool;
  video_colour : option bool;
  video_aspect : option string;
  video_quality : option string;
  audio_present : option bool;
  audio_stereo : option string;
  subtitles_type : option string;
  audio_described : option bool;
  is_premiere : option bool;
  is_new : option bool;
  previously_shown : option string;
  review_type : option string;
  review_value : option string;
  epg_channel_id : Z
}.

(** The row with its primary key set, as the INSERT leaves it. *)
Definition with_id (i : Z) (p : row) : row :=
  mk i (channel_id p) (title p) (sub_title p) (desc p) (series_desc p)
     (country p) (icon_url p) (start p) (stop p) (start_timestamp p)
     (stop_timestamp p) (categories p) (url p) (date p) (length p)
     (keywords p) (credits p) (episode_num_system p) (episode_num_value p)
     (rating_system p) (rating_value p) (star_rating p) (video_present p)
     (video_colour p) (video_aspect p) (video_quality p) (audio_present p)
     (audio_stereo p) (subtitles_type p) (audio_described p) (is_premiere p)
     (is_new p) (previously_shown p) (review_type p) (review_value p)
     (epg_channel_id p).

(** [programme.sub_title = v]. *)
Definition set_sub_title (v : option string) (p : row) : row :=
  mk (id p) (channel_id p) (title p) v (desc p) (series_desc p)
     (country p) (icon_url p) (start p) (stop p) (start_timestamp p)
     (stop_timestamp p) (categories p) (url p) (date p) (length p)
     (keywords p) (credits p) (episode_num_system p) (episode_num_value p)
     (rating_system p) (rating_value p) (star_rating p) (video_present p)
     (video_colour p) (video_aspect p) (video_quality p) (audio_present p)
     (audio_stereo p) (subtitles_type p) (audio_described p) (is_premiere p)
     (is_new p) (previously_shown p) (review_type p) (review_value p)
     (epg_channel_id p).

(** [programme.desc = v]. *)
Definition set_desc (v : option string) (p : row) : row :=
  mk (id p) (channel_id p) (title p) (sub_title p) v (series_desc p)
     (country p) (icon_url p) (start p) (stop p) (start_timestamp p)
     (stop_timestamp p) (categories p) (url p) (date p) (length p)
     (keywords p) (credits p) (episode_num_system p) (episode_num_value p)
     (rating_system p) (rating_value p) (star_rating p) (video_present p)
     (video_colour p) (video_aspect p) (video_quality p) (audio_present p)
     (audio_stereo p) (subtitles_type p) (audio_described p) (is_premiere p)
     (is_new p) (previously_shown p) (review_type p) (review_value p)
     (epg_channel_id p).

(** [programme.icon_url = v]. *)
Definition set_icon_url (v : option string) (p : row) : row :=
  mk (id p) (channel_id p) (title p) (sub_title p) (desc p) (series_desc p)
     (country p) v (start p) (stop p) (start_timestamp p)
     (stop_timestamp p) (categories p) (url p) (date p) (length p)
     (keywords p) (credits p) (episode_num_system p) (episode_num_value p)
     (rating_system p) (rating_value p) (star_rating p) (video_present p)
     (video_colour p) (video_aspect p) (video_quality p) (audio_present p)
     (audio_stereo p) (subtitles_type p) (audio_described p) (is_premiere p)
     (is_new p) (previously_shown p) (review_type p) (review_value p)
     (epg_channel_id p).
End EpgChannelProgrammes.

Module Channel.
Record row : Type := mk {
  id : Z;
  enabled : bool;
  name : option string;
  logo_url : option string;
  logo_base64 : option string;
  number : option Z;
  tvh_uuid : option string;
  guide_id : option Z;
  guide_name : option string;
  guide_channel_id : option string;
  tags : list (option string)
}.
End Channel.

(** The part of the database the pipeline reads and writes. [tags] of a
    channel row holds the names of the rows of [channel_tags] the
    association table links to it. *)
Record database : Type := mkDatabase {
  epgs : list Epg.row;
  epg_channels : list EpgChannels.row;
  epg_channel_programmes : list EpgChannelProgrammes.row;
  channels : list Channel.row
}.

Definition set_epg_channels (l : list EpgChannels.row) (d : database) : database :=
  mkDatabase (epgs d) l (epg_channel_programmes d) (channels d).

Definition set_epg_channel_programmes (l : list EpgChannelProgrammes.row)
           (d : database) : database :=
  mkDatabase (epgs d) (epg_channels d) l (channels d).

(** The rowid SQLite gives the next row of a table whose largest key is the
    largest of [ids]: one more, and 1 in an empty table. *)
Definition next_rowid (ids : list Z) : Z :=
  1 + foldr Z.max 0 ids.

(** ** Exceptions, and code that runs against the database *)

Inductive exn : Type :=
| KeyError
| ClientError
| ParseError
| AttributeError
| TypeError
| IndexError.

Inductive result (A : Type) : Type :=
| Ok (a : A)
| Raise (e : exn).
Arguments Ok {A} a.
Arguments Raise {A} e.

(** A computation leaves a database behind whether it returns or raises. *)
Definition DB (A : Type) : Type := database -> database * result A.

Definition ret {A} (a : A) : DB A := fun d => (d, Ok a).
Definition raise {A} (e : exn) : DB A := fun d => (d, Raise e).
Definition bind {A B} (m : DB A) (k : A -> DB B) : DB B :=
  fun d => match m d with
           | (d', Ok a) => k a d'
           | (d', Raise e) => (d', Raise e)
           end.
Definition lift {A} (r : result A) : DB A := fun d => (d, r).
Definition read : DB database := fun d => (d, Ok d).
Definition write (d' : database) : DB unit := fun _ => (d', Ok tt).

Declare Scope db_scope.
Delimit Scope db_scope with db.
Notation "'let*' x ':=' m 'in' k" := (bind m (fun x => k))
  (at level 10, x pattern, m at level 200, k at level 200) : db_scope.

(** [with session.begin(): body] and the Flask session that is committed at
    the end of its work: the writes of [body] are kept when it returns and
    undone when it raises. *)
Definition transaction {A} (body : DB A) : DB A :=
  fun d => match body d with
           | (d', Ok a) => (d', Ok a)
           | (_, Raise e) => (d, Raise e)
           end.

(** The error monad of the code that only parses. *)
Definition rbind {A B} (r : result A) (k : A -> result B) : result B :=
  match r with
  | Ok a => k a
  | Raise e => Raise e
  end.

Fixpoint rmap {A B} (f : A -> result B) (l : list A) : result (list B) :=
  match l with
  | [] => Ok []
  | a :: l' => rbind (f a) (fun b => rbind (rmap f l') (fun bs => Ok (b :: bs)))
  end.

(** ** Ingestion of one guide source *)

Section Ingestion.

Local Open Scope db_scope.

(** [read_config_one_epg]: the dictionary of the source, empty when there is
    no such row, so that [epg['url']] raises. *)
Definition read_config_one_epg (epg_id : Z) : DB (option Epg.row) :=
  let* d := read in
  ret (head (filter (fun e => Epg.id e = epg_id) (epgs d))).

(** [clear_epg_channel_data]. *)
Definition clear_epg_channel_data (epg_id : Z) : DB unit :=
  transaction (
    let* d := read in
    let channel_ids :=
      EpgChannels.id <$> filter (fun c => EpgChannels.epg_id c = epg_id) (epg_channels d) in
    match channel_ids with
    | [] => ret tt
    | _ :: _ =>
        write (mkDatabase
                 (epgs d)
                 (filter (fun c => EpgChannels.id c ∉ channel_ids) (epg_channels d))
                 (filter (fun p => EpgChannelProgrammes.epg_channel_id p ∉ channel_ids)
                         (epg_channel_programmes d))
                 (channels d))
    end).

(** What [download_xmltv_epg] leaves in the cache file of the source: it
    raises when the request fails, and otherwise the file holds the body of
    the response, gunzipped by [try_unzip] where it was compressed. *)
Inductive download : Type :=
| DownloadFailed
| Downloaded (file : xmltv_file).

(** The remote side: what a GET of a URL gives. *)
Definition network : Type := option string -> download.

Definition download_xmltv_epg (net : network) (url : option string) : DB xmltv_file :=
  match net url with
  | DownloadFailed => raise ClientError
  | Downloaded f => ret f
  end.

(** One turn of the loop over [.//channel] in [store_epg_channels]: the
    dictionary appended to [items]. The primary key is not set yet. *)
Definition channel_item (epg_id : Z) (channel : ET.Element) : result EpgChannels.row :=
  let channel_id := ET.get channel "id" in
  match ET.find channel "display-name" with
  | None => Raise AttributeError
  | Some display_name_elem =>
      let display_name := ET.text display_name_elem in
      let icon :=
        match ET.find channel "icon" with
        | Some icon_elem => default "" (ET.get icon_elem "src")
        | None => ""
        end in
      Ok (EpgChannels.mk 0 channel_id display_name (Some icon) epg_id)
  end.

(** The bulk INSERT: the rows get consecutive keys from [next] on. With no
    row in [items] it is taken to insert nothing; the properties below that
    say an ingestion succeeds are stated for documents that declare a
    channel, so that they do not rest on what SQLAlchemy does with an empty
    list of parameters. *)
Fixpoint insert_channels (next : Z) (items : list EpgChannels.row) : list EpgChannels.row :=
  match items with
  | [] => []
  | c :: items' => EpgChannels.with_id next c :: insert_channels (next + 1) items'
  end.

(** [store_epg_channels]; [file] is the cache file of the source, [None]
    when there is none. The result is [None] for the [False] the function
    returns without a file. *)
Definition store_epg_channels (file : option xmltv_file) (epg_id : Z)
  : DB (option (list (option string))) :=
  match file with
  | None => ret None
  | Some NotWellFormed => raise ParseError
  | Some (Document input_file) =>
      transaction (
        let* d := read in
        let kept := filter (fun c => EpgChannels.epg_id c ≠ epg_id) (epg_channels d) in
        let* items := lift (rmap (channel_item epg_id) (ET.iterfind input_file "channel")) in
        let channel_id_list := EpgChannels.channel_id <$> items in
        let* _ := write (set_epg_channels
                           (kept ++ insert_channels (next_rowid (EpgChannels.id <$> kept)) items)
                           d) in
        ret (Some channel_id_list))
  end.

(** The query of [store_epg_programmes] for the row of a channel of the
    source: [.first()] of the rows with that upstream id and that source. *)
Definition first_epg_channel (d : database) (epg_id : Z) (channel_id : option string)
  : option EpgChannels.row :=
  head (filter (fun c => EpgChannels.channel_id c = channel_id ∧ EpgChannels.epg_id c = epg_id)
               (epg_channels d)).

(** The dictionary [channel_ids], from upstream id to the key of its row. *)
Fixpoint build_channel_ids (d : database) (epg_id : Z) (channel_id_list : list (option string))
         (channel_ids : gmap (option string) Z) : result (gmap (option string) Z) :=
  match channel_id_list with
  | [] => Ok channel_ids
  | channel_id :: rest =>
      match first_epg_channel d epg_id channel_id with
      | None => Raise AttributeError
      | Some epg_channel =>
          build_channel_ids d epg_id rest (<[channel_id := EpgChannels.id epg_channel]> channel_ids)
      end
  end.

(** [elem.text.lower() == 'yes']. *)
Definition text_is_yes (e : ET.Element) : result bool :=
  match ET.text e with
  | None => Raise AttributeError
  | Some t => Ok (String.eqb (Py.lower t) "yes")
  end.

(** The text of the children of [parent] named [name] that have one. *)
Definition texts (parent : ET.Element) (name : string) : list string :=
  omap (fun e => if Py.truthy (ET.text e) then ET.text e else None) (ET.findall parent name).

Definition credit_types : list string :=
  ["actor"; "director"; "writer"; "producer"; "presenter"; "commentator"; "guest"].

Definition parse_credits (programme : ET.Element) : list (string * list string) :=
  match ET.find programme "credits" with
  | None => []
  | Some credits_elem =>
      omap (fun credit_type =>
              match texts credits_elem credit_type with
              | [] => None
              | credit_list => Some (credit_type, credit_list)
              end) credit_types
  end.

(** [json.dumps(l) if l else None]. *)
Definition dumps_nonempty {A} (l : list A) : option (list A) :=
  match l with
  | [] => None
  | _ => Some l
  end.

(** An optional child of [parent], and a flag read from its text. *)
Definition child_is_yes (parent : option ET.Element) (name : string) : result (option bool) :=
  match parent with
  | None => Ok None
  | Some v =>
      match ET.find v name with
      | None => Ok None
      | Some e => rbind (text_is_yes e) (fun b => Ok (Some b))
      end
  end.

Definition child_text (parent : option ET.Element) (name : string) : option string :=
  e ← (v ← parent; ET.find v name); ET.text e.

(** The body of the loop over [.//programme] for a programme of a known
    channel: the row appended to [items]. *)
Definition programme_row (epg_channel_id : Z) (channel_id : option string)
           (programme : ET.Element) : result EpgChannelProgrammes.row :=
  let start := ET.get programme "start" in
  let stop := ET.get programme "stop" in
  let start_timestamp := ET.get programme "start_timestamp" in
  let stop_timestamp := ET.get programme "stop_timestamp" in
  let title := ET.findtext programme "title" in
  let sub_title := ET.findtext programme "sub-title" in
  let desc := ET.findtext programme "desc" in
  let series_desc := ET.findtext programme "series-desc" in
  let country := ET.findtext programme "country" in
  let url := ET.findtext programme "url" in
  let date := ET.findtext programme "date" in
  let icon_url := icon ← ET.find programme "icon"; ET.get icon "src" in
  let categories := texts programme "category" in
  let keywords := texts programme "keyword" in
  let credits_data := parse_credits programme in
  let episode_num := ET.find programme "episode-num" in
  let episode_num_system := e ← episode_num; ET.get e "system" in
  let episode_num_value := e ← episode_num; ET.text e in
  let rating := ET.find programme "rating" in
  let rating_system := e ← rating; ET.get e "system" in
  let rating_value := child_text rating "value" in
  let star_rating := child_text (ET.find programme "star-rating") "value" in
  let video := ET.find programme "video" in
  rbind (child_is_yes video "present") (fun video_present =>
  rbind (child_is_yes video "colour") (fun video_colour =>
  let video_aspect := child_text video "aspect" in
  let video_quality := child_text video "quality" in
  let audio := ET.find programme "audio" in
  rbind (child_is_yes audio "present") (fun audio_present =>
  let audio_stereo := child_text audio "stereo" in
  let subtitles_type := e ← ET.find programme "subtitles"; ET.get e "type" in
  let audio_described :=
    match ET.find programme "audio-described" with
    | Some _ => Some true
    | None => None
    end in
  let is_premiere := bool_decide (is_Some (ET.find programme "premiere")) in
  let is_new := bool_decide (is_Some (ET.find programme "new")) in
  let previously_shown := e ← ET.find programme "previously-shown"; ET.get e "start" in
  let length :=
    length_elem ← ET.find programme "length";
    let length_units := default "minutes" (ET.get length_elem "units") in
    if Py.truthy (ET.text length_elem)
    then Some (Py.fmt (ET.text length_elem) +:+ " " +:+ length_units)
    else None in
  let review := ET.find programme "review" in
  let review_type := e ← review; ET.get e "type" in
  let review_value := e ← review; ET.text e in
  Ok (EpgChannelProgrammes.mk
        0 channel_id title sub_title desc series_desc country icon_url
        start stop start_timestamp stop_timestamp
        (dumps_nonempty categories) url date length
        (dumps_nonempty keywords) (dumps_nonempty credits_data)
        episode_num_system episode_num_value rating_system rating_value
        star_rating video_present video_colour video_aspect video_quality
        audio_present audio_stereo subtitles_type audio_described
        (Some is_premiere) (Some is_new) previously_shown
        review_type review_value epg_channel_id)))).

(** One programme of the document: nothing for a programme whose channel is
    not a key of [channel_ids]. *)
Definition programme_item (channel_ids : gmap (option string) Z) (programme : ET.Element)
  : result (option EpgChannelProgrammes.row) :=
  let channel_id := ET.get programme "channel" in
  match channel_ids !! channel_id with
  | None => Ok None
  | Some epg_channel_id =>
      rbind (programme_row epg_channel_id channel_id programme) (fun r => Ok (Some r))
  end.

(** The loop over the programmes: [flushed] are the rows already handed to
    [bulk_save_objects], [items] the current chunk. *)
Fixpoint save_programmes (channel_ids : gmap (option string) Z) (programmes : list ET.Element)
         (flushed items : list EpgChannelProgrammes.row)
  : result (list EpgChannelProgrammes.row * list EpgChannelProgrammes.row) :=
  match programmes with
  | [] => Ok (flushed, items)
  | programme :: rest =>
      let '(flushed, items) :=
        if (1000 <? length items)%nat then (flushed ++ items, []) else (flushed, items) in
      rbind (programme_item channel_ids programme) (fun o =>
        save_programmes channel_ids rest flushed
          (match o with
           | Some r => items ++ [r]
           | None => items
           end))
  end.

Fixpoint insert_programmes (next : Z) (items : list EpgChannelProgrammes.row)
  : list EpgChannelProgrammes.row :=
  match items with
  | [] => []
  | p :: items' => EpgChannelProgrammes.with_id next p :: insert_programmes (next + 1) items'
  end.

(** [store_epg_programmes]. [channel_id_list] is what [store_epg_channels]
    returned. *)
Definition store_epg_programmes (file : option xmltv_file) (epg_id : Z)
           (channel_id_list : option (list (option string))) : DB unit :=
  match file with
  | None => ret tt
  | Some NotWellFormed => raise ParseError
  | Some (Document input_file) =>
      transaction (
        let* d := read in
        let* l := lift (match channel_id_list with
                        | None => Raise TypeError
                        | Some l => Ok l
                        end) in
        let* channel_ids := lift (build_channel_ids d epg_id l ∅) in
        let* (flushed, items) :=
          lift (save_programmes channel_ids (ET.iterfind input_file "programme") [] []) in
        let table := epg_channel_programmes d in
        write (set_epg_channel_programmes
                 (table ++ insert_programmes (next_rowid (EpgChannelProgrammes.id <$> table))
                                             (flushed ++ items))
                 d))
  end.

(** [import_epg_data]. *)
Definition import_epg_data (net : network) (epg_id : Z) : DB unit :=
  let* epg := read_config_one_epg epg_id in
  let* url := lift (match epg with
                    | None => Raise KeyError
                    | Some e => Ok (Epg.url e)
                    end) in
  let* xmltv_file := download_xmltv_epg net url in
  let* _ := clear_epg_channel_data epg_id in
  let* channel_id_list := store_epg_channels (Some xmltv_file) epg_id in
  store_epg_programmes (Some xmltv_file) epg_id channel_id_list.

(** The loop of [import_epg_data_for_all_epgs] over the rows of [epgs]. *)
Fixpoint import_each (net : network) (ids : list Z) : DB unit :=
  match ids with
  | [] => ret tt
  | epg_id :: rest =>
      let* _ := import_epg_data net epg_id in
      import_each net rest
  end.

(** [import_epg_data_for_all_epgs]. *)
Definition import_epg_data_for_all_epgs (net : network) : DB unit :=
  let* d := read in
  import_each net (Epg.id <$> epgs d).

End Ingestion.

(** ** ORDER BY *)

(** A stable sort: rows with equal keys stay in storage order, which is how
    SQLite returns them. *)
Fixpoint insert_by {A} (leb : A -> A -> bool) (x : A) (l : list A) : list A :=
  match l with
  | [] => [x]
  | y :: l' => if leb x y then x :: l else y :: insert_by leb x l'
  end.

Definition order_by {A} (leb : A -> A -> bool) (l : list A) : list A :=
  foldr (insert_by leb) [] l.

(** Ascending order of a nullable column: NULL sorts first. *)
Definition opt_compare {A} (cmp : A -> A -> comparison) (a b : option A) : comparison :=
  match a, b with
  | None, None => Eq
  | None, Some _ => Lt
  | Some _, None => Gt
  | Some x, Some y => cmp x y
  end.

Definition is_le (c : comparison) : bool :=
  match c with
  | Gt => false
  | _ => true
  end.

(** [Channel.number.asc()]. *)
Definition number_asc (a b : Channel.row) : bool :=
  is_le (opt_compare Z.compare (Channel.number a) (Channel.number b)).

(** [EpgChannelProgrammes.channel_id.asc(), EpgChannelProgrammes.start.asc()];
    text compares byte by byte. *)
Definition channel_id_start_compare (p q : EpgChannelProgrammes.row) : comparison :=
  match opt_compare String.compare (EpgChannelProgrammes.channel_id p)
                    (EpgChannelProgrammes.channel_id q) with
  | Eq => opt_compare String.compare (EpgChannelProgrammes.start p)
                      (EpgChannelProgrammes.start q)
  | c => c
  end.

Definition channel_id_start_asc (p q : EpgChannelProgrammes.row) : bool :=
  is_le (channel_id_start_compare p q).

(** ** Synthesis of the merged guide *)

(** [generate_epg_channel_id]. *)
Definition generate_epg_channel_id (number : option Z) (name : option string) : string :=
  Py.str_opt_int number.

(** [EpgChannelProgrammes.channel.has(...)]: the guide channel the programme
    belongs to satisfies [P]. *)
Definition channel_has (d : database) (P : EpgChannels.row -> Prop)
           (p : EpgChannelProgrammes.row) : Prop :=
  Exists (fun c => EpgChannels.id c = EpgChannelProgrammes.epg_channel_id p ∧ P c)
         (epg_channels d).

#[global] Instance channel_has_dec d P `{!∀ c, Decision (P c)} p :
  Decision (channel_has d P p).
Proof. unfold channel_has. apply _. Defined.

(** The programmes query of [build_custom_epg] for an output channel. *)
Definition db_programmes_query (d : database) (result : Channel.row)
  : list EpgChannelProgrammes.row :=
  order_by channel_id_start_asc
    (filter (fun p =>
               channel_has d (fun c => Some (EpgChannels.epg_id c) = Channel.guide_id result) p ∧
               channel_has d (fun c => EpgChannels.channel_id c = Channel.guide_channel_id result) p)
            (epg_channel_programmes d)).

Record configured_channel : Type := mkConfigured {
  cc_channel_id : string;
  cc_display_name : option string;
  cc_logo_url : string
}.

Record channel_programmes_data : Type := mkChannelProgrammes {
  cp_channel : string;
  cp_tags : list (option string);
  cp_programmes : list EpgChannelProgrammes.row
}.

(** An element with text and nothing else. *)
Definition text_elem (name : string) (t : string) : ET.Element :=
  ET.elem name [] (Some t) [].

(** [[x] if cond else []], for the optional children. *)
Definition when {A} (cond : bool) (x : A) : list A :=
  if cond then [x] else [].

Definition yes_no (b : bool) : string := if b then "yes" else "no".

(** The [<length>] child for a stored length. *)
Definition length_elem (length : string) : ET.Element :=
  match Py.split_space length with
  | Some (text, units) => ET.elem "length" [("units", units)] (Some text) []
  | None => ET.elem "length" [("units", "minutes")] (Some length) []
  end.

Definition category_elem (name : string) (t : option string) : ET.Element :=
  ET.elem name [("lang", "en")] t [].

(** [output_programme.set(key, v)] under [if v:]. *)
Definition attr (key : string) (v : option string) : list (string * string) :=
  match v with
  | Some s => when (Py.truthy v) (key, s)
  | None => []
  end.

(** A child with the text [v], under [if v is not None:]. *)
Definition child (name : string) (v : option string) : list ET.Element :=
  match v with
  | Some s => [text_elem name s]
  | None => []
  end.

(** A child with the text [v], under [if v:]. *)
Definition truthy_child (name : string) (v : option string) : list ET.Element :=
  match v with
  | Some s => when (Py.truthy v) (text_elem name s)
  | None => []
  end.

(** A child for a flag that is not NULL. *)
Definition flag_child (name : string) (v : option bool) : list ET.Element :=
  match v with
  | Some b => [text_elem name (yes_no b)]
  | None => []
  end.

(** [parent] when it has children: the [<video>] and [<audio>] elements. *)
Definition group (name : string) (info : list ET.Element) : list ET.Element :=
  match info with
  | [] => []
  | _ => [ET.elem name [] None info]
  end.

(** The element with attribute [key] set to [v], under [if v:]. *)
Definition attr_child (name key : string) (v : option string) : list ET.Element :=
  match v with
  | Some s => when (Py.truthy v) (ET.elem name [(key, s)] None [])
  | None => []
  end.

Definition credits_elems (credits : list (string * list string)) : list ET.Element :=
  match credits with
  | [] => []
  | _ => [ET.elem "credits" [] None
            (mbind (fun '(credit_type, credit_list) =>
                      text_elem credit_type <$> credit_list) credits)]
  end.

Definition episode_num_elems (system value : option string) : list ET.Element :=
  match system, value with
  | Some s, Some v =>
      when (Py.truthy system && Py.truthy value) (ET.elem "episode-num" [("system", s)] (Some v) [])
  | _, _ => []
  end.

Definition rating_elems (system value : option string) : list ET.Element :=
  match system, value with
  | Some s, Some v =>
      when (Py.truthy system && Py.truthy value)
           (ET.elem "rating" [("system", s)] None [text_elem "value" v])
  | _, _ => []
  end.

Definition star_rating_elems (v : option string) : list ET.Element :=
  match v with
  | Some s => when (Py.truthy v) (ET.elem "star-rating" [] None [text_elem "value" s])
  | None => []
  end.

Definition review_elems (review_type review_value : option string) : list ET.Element :=
  match review_value with
  | Some v => when (Py.truthy review_value) (ET.elem "review" (attr "type" review_type) (Some v) [])
  | None => []
  end.

Definition icon_elems (icon_url : option string) : list ET.Element :=
  match icon_url with
  | Some u =>
      when (Py.truthy icon_url)
           (ET.elem "icon" [("src", u); ("height", ""); ("width", "")] None [])
  | None => []
  end.

Definition length_elems (length : option string) : list ET.Element :=
  match length with
  | Some l => when (Py.truthy length) (length_elem l)
  | None => []
  end.

(** The attributes of a [<programme>] element. *)
Definition programme_attrib (channel : string) (p : EpgChannelProgrammes.row)
  : list (string * string) :=
  attr "start" (EpgChannelProgrammes.start p) ++
  attr "stop" (EpgChannelProgrammes.stop p) ++
  attr "start_timestamp" (EpgChannelProgrammes.start_timestamp p) ++
  attr "stop_timestamp" (EpgChannelProgrammes.stop_timestamp p) ++
  [("channel", channel)].

(** The children of a [<programme>] element, in the order the code appends
    them. *)
Definition programme_children (tags : list (option string)) (p : EpgChannelProgrammes.row)
  : list ET.Element :=
  child "title" (EpgChannelProgrammes.title p) ++
  child "sub-title" (EpgChannelProgrammes.sub_title p) ++
  child "desc" (EpgChannelProgrammes.desc p) ++
  child "series-desc" (EpgChannelProgrammes.series_desc p) ++
  child "country" (EpgChannelProgrammes.country p) ++
  truthy_child "url" (EpgChannelProgrammes.url p) ++
  truthy_child "date" (EpgChannelProgrammes.date p) ++
  length_elems (EpgChannelProgrammes.length p) ++
  credits_elems (default [] (EpgChannelProgrammes.credits p)) ++
  episode_num_elems (EpgChannelProgrammes.episode_num_system p)
                    (EpgChannelProgrammes.episode_num_value p) ++
  rating_elems (EpgChannelProgrammes.rating_system p) (EpgChannelProgrammes.rating_value p) ++
  star_rating_elems (EpgChannelProgrammes.star_rating p) ++
  group "video" (flag_child "present" (EpgChannelProgrammes.video_present p) ++
                 flag_child "colour" (EpgChannelProgrammes.video_colour p) ++
                 truthy_child "aspect" (EpgChannelProgrammes.video_aspect p) ++
                 truthy_child "quality" (EpgChannelProgrammes.video_quality p)) ++
  group "audio" (flag_child "present" (EpgChannelProgrammes.audio_present p) ++
                 truthy_child "stereo" (EpgChannelProgrammes.audio_stereo p)) ++
  attr_child "subtitles" "type" (EpgChannelProgrammes.subtitles_type p) ++
  when (Py.truthy_bool (EpgChannelProgrammes.audio_described p))
       (ET.elem "audio-described" [] None []) ++
  when (Py.truthy_bool (EpgChannelProgrammes.is_premiere p)) (ET.elem "premiere" [] None []) ++
  when (Py.truthy_bool (EpgChannelProgrammes.is_new p)) (ET.elem "new" [] None []) ++
  attr_child "previously-shown" "start" (EpgChannelProgrammes.previously_shown p) ++
  review_elems (EpgChannelProgrammes.review_type p) (EpgChannelProgrammes.review_value p) ++
  icon_elems (EpgChannelProgrammes.icon_url p) ++
  (category_elem "keyword" ∘ Some <$> default [] (EpgChannelProgrammes.keywords p)) ++
  (category_elem "category" ∘ Some <$> default [] (EpgChannelProgrammes.categories p)) ++
  (category_elem "category" <$> tags).

(** The body of the loop over the programmes of a channel: the
    [<programme>] element appended to the root. *)
Definition programme_elem (channel : string) (tags : list (option string))
           (p : EpgChannelProgrammes.row) : ET.Element :=
  ET.elem "programme" (programme_attrib channel p) None (programme_children tags p).

(** The [<channel>] element of a configured channel; [strip] of a name that
    is NULL raises. *)
Definition channel_elem (channel_info : configured_channel) : result ET.Element :=
  match cc_display_name channel_info with
  | None => Raise AttributeError
  | Some display_name =>
      Ok (ET.elem "channel" [("id", cc_channel_id channel_info)] None
            [text_elem "display-name" (Py.strip display_name);
             ET.elem "icon" [("src", cc_logo_url channel_info)] None [];
             text_elem "live" "true";
             text_elem "active" "true"])
  end.

Section Synthesis.

(** [settings['settings']['app_url']]. *)
Variable app_url : string.

(** The extension [guess_extension] gives for the MIME type that
    [read_base46_image_string] finds in the stored logo, as the f-string
    prints it. *)
Variable logo_ext : option string -> string.

(** The clock: [now k] is [time.time()], as the f-string prints it, when the
    loop reaches its [k]-th enabled channel. *)
Variable now : nat -> string.

(** The rows the first loop of [build_custom_epg] works on. *)
Definition enabled_channels (d : database) : list Channel.row :=
  List.filter Channel.enabled (order_by number_asc (channels d)).

Definition logo_url (k : nat) (result : Channel.row) : string :=
  app_url +:+ "/tic-api/channels/" +:+ Py.str_int (Channel.id result) +:+ "/logo/"
          +:+ now k +:+ logo_ext (Channel.logo_base64 result).

Definition configured_channels (d : database) : list configured_channel :=
  imap (fun k result =>
          mkConfigured (generate_epg_channel_id (Channel.number result) (Channel.name result))
                       (Channel.name result)
                       (logo_url k result))
       (enabled_channels d).

(** The entry of [all_channel_programmes_data] for an enabled channel. *)
Definition programmes_data (d : database) (result : Channel.row) : channel_programmes_data :=
  mkChannelProgrammes (generate_epg_channel_id (Channel.number result) (Channel.name result))
                      (Channel.tags result)
                      (db_programmes_query d result).

Definition all_channel_programmes_data (d : database) : list channel_programmes_data :=
  programmes_data d <$> enabled_channels d.

(** The [<programme>] elements of one entry of
    [all_channel_programmes_data]. *)
Definition channel_programme_elems (data : channel_programmes_data) : list ET.Element :=
  programme_elem (cp_channel data) (cp_tags data) <$> cp_programmes data.

(** The [<programme>] elements, channel after channel. *)
Definition programme_elems (d : database) : list ET.Element :=
  mbind channel_programme_elems (all_channel_programmes_data d).

(** [build_custom_epg]: the tree written to [epg.xml]. *)
Definition build_custom_epg (d : database) : result ET.Element :=
  rbind (rmap channel_elem (configured_channels d)) (fun channel_elems =>
    Ok (ET.elem "tv"
          [("generator-info-name", "TVH-IPTV-Config");
           ("source-info-name", "TVH-IPTV-Config - v0.1")]
          None
          (channel_elems ++ programme_elems d))).

End Synthesis.

(** ** Online metadata *)

(** A record of the [results] list of a TMDB search: the members the code
    reads, each a string or null. *)
Definition tmdb_result : Type := list (string * option string).

(** [tmdb_data.get(key)]. *)
Fixpoint dict_get (data : tmdb_result) (key : string) : option string :=
  match data with
  | [] => None
  | (k, v) :: data' => if String.eqb k key then v else dict_get data' key
  end.

(** The dictionary [cache]: a provider has an entry once a look-up has
    been through its first locked section. *)
Record cache : Type := mkCache {
  tmdb : option (gmap (option string) (option tmdb_result));
  google_images : option (gmap (option string) (option string))
}.

Definition empty_cache : cache := mkCache None None.

(** What comes back from [api.themoviedb.org]: the request fails with an
    exception, or there is a status and the [results] of the JSON body. *)
Inductive tmdb_response : Type :=
| TmdbFailed
| TmdbStatus (status : Z) (results : list tmdb_result).

(** What comes back from the image search: a failure, or a status and the
    [src] attribute, where there is one, of each [<img>] of the page. *)
Inductive google_response : Type :=
| GoogleFailed
| GoogleStatus (status : Z) (images : list (option string)).

Inductive request : Type :=
| TmdbSearch (api_key : string) (title : option string)
| GoogleSearch (title : option string).

(** A coroutine of the enrichment stage, by what it does next. The cache
    operations happen under [lock]; no locked section awaits anything, so a
    locked section is never interrupted and the lock is always free when a
    task asks for it. A task is suspended only at a request and at a
    semaphore without a free permit. *)
Inductive coroutine (A : Type) : Type :=
| Return (a : A)
| AcquireSemaphore (k : coroutine A)
| ReleaseSemaphore (k : coroutine A)
| ReadCache (k : cache -> coroutine A)
| WriteCache (f : cache -> cache) (k : coroutine A)
| GetTmdb (api_key : string) (title : option string) (k : tmdb_response -> coroutine A)
| GetGoogle (title : option string) (k : google_response -> coroutine A).
Arguments Return {A} a.
Arguments AcquireSemaphore {A} k.
Arguments ReleaseSemaphore {A} k.
Arguments ReadCache {A} k.
Arguments WriteCache {A} f k.
Arguments GetTmdb {A} api_key title k.
Arguments GetGoogle {A} title k.

(** [await c] followed by [f]. *)
Fixpoint cbind {A B} (c : coroutine A) (f : A -> coroutine B) : coroutine B :=
  match c with
  | Return a => f a
  | AcquireSemaphore k => AcquireSemaphore (cbind k f)
  | ReleaseSemaphore k => ReleaseSemaphore (cbind k f)
  | ReadCache k => ReadCache (fun c => cbind (k c) f)
  | WriteCache g k => WriteCache g (cbind k f)
  | GetTmdb api_key title k => GetTmdb api_key title (fun r => cbind (k r) f)
  | GetGoogle title k => GetGoogle title (fun r => cbind (k r) f)
  end.

(** [async with semaphore: body]: the permit is given back when [body]
    returns and when it raises. *)
Definition with_semaphore {A} (body : coroutine A) : coroutine A :=
  AcquireSemaphore (cbind body (fun a => ReleaseSemaphore (Return a))).

Definition init_tmdb (c : cache) : cache :=
  match tmdb c with
  | Some _ => c
  | None => mkCache (Some ∅) (google_images c)
  end.

Definition store_tmdb (title : option string) (v : option tmdb_result) (c : cache) : cache :=
  mkCache (<[title := v]> <$> tmdb c) (google_images c).

Definition init_google_images (c : cache) : cache :=
  match google_images c with
  | Some _ => c
  | None => mkCache (tmdb c) (Some ∅)
  end.

Definition store_google_images (title : option string) (v : option string) (c : cache) : cache :=
  mkCache (tmdb c) (<[title := v]> <$> google_images c).

(** [cache['tmdb'][title]] and [cache['google_images'][title]] where
    [title in] the dictionary of the provider: what the cache holds for a
    title. *)
Definition cached_tmdb (c : cache) (title : option string) : option (option tmdb_result) :=
  tmdb c ≫= (.!! title).

Definition cached_google_images (c : cache) (title : option string) : option (option string) :=
  google_images c ≫= (.!! title).

(** [search_tmdb_for_movie]. *)
Definition search_tmdb_for_movie (api_key : string) (title : option string)
  : coroutine (result (option tmdb_result)) :=
  with_semaphore (
    WriteCache init_tmdb (
    ReadCache (fun c =>
      match cached_tmdb c title with
      | Some cached => Return (Ok cached)
      | None =>
          GetTmdb api_key title (fun response =>
            match response with
            | TmdbFailed => Return (Raise ClientError)
            | TmdbStatus status results =>
                match (if status =? 200 then head results else None) with
                | Some first => WriteCache (store_tmdb title (Some first)) (Return (Ok (Some first)))
                | None => WriteCache (store_tmdb title None) (Return (Ok None))
                end
            end)
      end))).

(** [search_google_images]. *)
Definition search_google_images (title : option string)
  : coroutine (result (option string)) :=
  with_semaphore (
    WriteCache init_google_images (
    ReadCache (fun c =>
      match cached_google_images c title with
      | Some cached => Return (Ok cached)
      | None =>
          GetGoogle title (fun response =>
            match response with
            | GoogleFailed => Return (Raise ClientError)
            | GoogleStatus status images =>
                match (if status =? 200 then images else []) with
                | [] => WriteCache (store_google_images title None) (Return (Ok None))
                | [_] => Return (Raise IndexError)
                | _ :: None :: _ => Return (Raise KeyError)
                | _ :: Some image_url :: _ =>
                    WriteCache (store_google_images title (Some image_url))
                               (Return (Ok (Some image_url)))
                end
            end)
      end))).

(** [settings['settings']['epgs']], as far as the stage reads it. *)
Record epg_settings : Type := mkSettings {
  enable_tmdb_metadata : bool;
  tmdb_api_key : string;
  enable_google_image_search_metadata : bool
}.

(** The assignments made from a TMDB record. *)
Definition apply_tmdb_data (tmdb_data : tmdb_result) (programme : EpgChannelProgrammes.row)
  : EpgChannelProgrammes.row :=
  let programme :=
    if Py.truthy (EpgChannelProgrammes.sub_title programme) then programme
    else EpgChannelProgrammes.set_sub_title (dict_get tmdb_data "title") programme in
  let programme :=
    if Py.truthy (EpgChannelProgrammes.desc programme) then programme
    else EpgChannelProgrammes.set_desc (dict_get tmdb_data "overview") programme in
  if Py.truthy (EpgChannelProgrammes.icon_url programme) then programme
  else EpgChannelProgrammes.set_icon_url
         (Some ("https://image.tmdb.org/t/p/w500" +:+ Py.fmt (dict_get tmdb_data "poster_path")))
         programme.

(** [not (programme.sub_title or programme.desc or programme.icon_url)]. *)
Definition lacks_all (programme : EpgChannelProgrammes.row) : bool :=
  negb (Py.truthy (EpgChannelProgrammes.sub_title programme)
        || Py.truthy (EpgChannelProgrammes.desc programme)
        || Py.truthy (EpgChannelProgrammes.icon_url programme)).

(** [update_programme_with_online_data]. The programme is an object that is
    changed in place, so that an exception leaves it with the assignments
    made before: the coroutine ends with the object and the exception that
    left it, if any. *)
Definition update_programme_with_online_data (settings : epg_settings)
           (programme : EpgChannelProgrammes.row)
  : coroutine (EpgChannelProgrammes.row * option exn) :=
  let title := EpgChannelProgrammes.title programme in
  cbind
    (if lacks_all programme && enable_tmdb_metadata settings then
       cbind (search_tmdb_for_movie (tmdb_api_key settings) title) (fun r =>
         match r with
         | Raise e => Return (programme, Some e)
         | Ok (Some ((_ :: _) as tmdb_data)) => Return (apply_tmdb_data tmdb_data programme, None)
         | Ok _ => Return (programme, None)
         end)
     else Return (programme, None))
    (fun '(programme, raised) =>
       match raised with
       | Some e => Return (programme, Some e)
       | None =>
           if negb (Py.truthy (EpgChannelProgrammes.icon_url programme))
              && enable_google_image_search_metadata settings then
             cbind (search_google_images title) (fun r =>
               match r with
               | Raise e => Return (programme, Some e)
               | Ok image_url =>
                   if Py.truthy image_url
                   then Return (EpgChannelProgrammes.set_icon_url image_url programme, None)
                   else Return (programme, None)
               end)
           else Return (programme, None)
       end).

(** [update_wrapper] of [update_programmes_concurrently]: [json.loads] of a
    NULL [categories] raises before the look-ups. *)
Definition update_wrapper (settings : epg_settings) (programme : EpgChannelProgrammes.row)
  : coroutine (EpgChannelProgrammes.row * option exn) :=
  match EpgChannelProgrammes.categories programme with
  | None => Return (programme, Some TypeError)
  | Some categories => update_programme_with_online_data settings programme
  end.

(** *** The event loop *)

Inductive task (A : Type) : Type :=
| Ready (c : coroutine A)
| Queued (k : coroutine A)
| AwaitTmdb (k : tmdb_response -> coroutine A)
| AwaitGoogle (k : google_response -> coroutine A)
| Done (a : A).
Arguments Ready {A} c.
Arguments Queued {A} k.
Arguments AwaitTmdb {A} k.
Arguments AwaitGoogle {A} k.
Arguments Done {A} a.

(** The state of a batch: the shared cache, the free permits of the
    semaphore and the tasks in its queue, the tasks of [gather], and the
    requests sent so far, oldest first. *)
Record loop (A : Type) : Type := mkLoop {
  l_cache : cache;
  l_permits : nat;
  l_waiters : list nat;
  l_tasks : list (task A);
  l_calls : list request
}.
Arguments mkLoop {A}.
Arguments l_cache {A}.
Arguments l_permits {A}.
Arguments l_waiters {A}.
Arguments l_tasks {A}.
Arguments l_calls {A}.

(** [semaphore.release()]: the permit goes to the first task of the queue,
    which is made ready, or back to the semaphore. *)
Definition release {A} (s : loop A) : loop A :=
  match l_waiters s with
  | [] => mkLoop (l_cache s) (S (l_permits s)) [] (l_tasks s) (l_calls s)
  | w :: ws =>
      mkLoop (l_cache s) (l_permits s) ws
             (match l_tasks s !! w with
              | Some (Queued k) => <[w := Ready k]> (l_tasks s)
              | _ => l_tasks s
              end)
             (l_calls s)
  end.

(** Task [i] runs from [c] until it is suspended or done. *)
Fixpoint run {A} (i : nat) (c : coroutine A) (s : loop A) : loop A :=
  let park (t : task A) (s : loop A) :=
    mkLoop (l_cache s) (l_permits s) (l_waiters s) (<[i := t]> (l_tasks s)) (l_calls s) in
  match c with
  | Return a => park (Done a) s
  | AcquireSemaphore k =>
      match l_permits s with
      | S n => run i k (mkLoop (l_cache s) n (l_waiters s) (l_tasks s) (l_calls s))
      | O => park (Queued k)
                  (mkLoop (l_cache s) O (l_waiters s ++ [i]) (l_tasks s) (l_calls s))
      end
  | ReleaseSemaphore k => run i k (release s)
  | ReadCache k => run i (k (l_cache s)) s
  | WriteCache f k =>
      run i k (mkLoop (f (l_cache s)) (l_permits s) (l_waiters s) (l_tasks s) (l_calls s))
  | GetTmdb api_key title k =>
      park (AwaitTmdb k)
           (mkLoop (l_cache s) (l_permits s) (l_waiters s) (l_tasks s)
                   (l_calls s ++ [TmdbSearch api_key title]))
  | GetGoogle title k =>
      park (AwaitGoogle k)
           (mkLoop (l_cache s) (l_permits s) (l_waiters s) (l_tasks s)
                   (l_calls s ++ [GoogleSearch title]))
  end.

(** What makes a suspended task run again: the response to its request, or
    its turn after the semaphore made it ready. *)
Inductive event : Type :=
| TmdbArrives (i : nat) (response : tmdb_response)
| GoogleArrives (i : nat) (response : google_response)
| Resume (i : nat).

Definition step {A} (s : loop A) (ev : event) : loop A :=
  match ev with
  | TmdbArrives i response =>
      match l_tasks s !! i with
      | Some (AwaitTmdb k) => run i (k response) s
      | _ => s
      end
  | GoogleArrives i response =>
      match l_tasks s !! i with
      | Some (AwaitGoogle k) => run i (k response) s
      | _ => s
      end
  | Resume i =>
      match l_tasks s !! i with
      | Some (Ready c) => run i c s
      | _ => s
      end
  end.

(** The first turn of the tasks [gather] made, in the order of the list. *)
Definition start {A} (s : loop A) : loop A :=
  foldl (fun s i => step s (Resume i)) s (seq 0 (length (l_tasks s))).

(** The results of [gather], once every task is done. *)
Definition gathered {A} (s : loop A) : option (list A) :=
  mapM (fun t => match t with
                 | Done a => Some a
                 | _ => None
                 end) (l_tasks s).

(** [asyncio.gather] of [coroutines] with the semaphore of ten permits, under
    the events the network lets happen: the results, the cache and the
    requests that were sent. No result means the events do not take every
    task to its end. *)
Definition gather {A} (coroutines : list (coroutine A)) (c : cache) (events : list event)
  : option (list A * cache * list request) :=
  let s := mkLoop c 10%nat [] (Ready <$> coroutines) [] in
  let s := foldl step (start s) events in
  match gathered s with
  | Some results => Some (results, l_cache s, l_calls s)
  | None => None
  end.

(** [update_programmes_concurrently]: the programmes, each with the exception
    its task ended in. *)
Definition update_programmes_concurrently (settings : epg_settings)
           (programmes : list EpgChannelProgrammes.row) (c : cache) (events : list event)
  : option (list (EpgChannelProgrammes.row * option exn) * cache * list request) :=
  gather (update_wrapper settings <$> programmes) c events.

(** ** Vocabulary of the properties *)

(** The guide channels of a source. *)
Definition channels_of (epg_id : Z) (d : database) : list EpgChannels.row :=
  filter (fun c => EpgChannels.epg_id c = epg_id) (epg_channels d).

(** The programmes of a source: those of its guide channels. *)
Definition programmes_of (epg_id : Z) (d : database) : list EpgChannelProgrammes.row :=
  filter (channel_has d (fun c => EpgChannels.epg_id c = epg_id)) (epg_channel_programmes d).

(** The foreign key of [epg_channel_programmes]: every programme belongs to a
    guide channel that is there. *)
Definition referential_integrity (d : database) : Prop :=
  ∀ p, p ∈ epg_channel_programmes d →
       EpgChannelProgrammes.epg_channel_id p ∈ EpgChannels.id <$> epg_channels d.

(** The upstream ids the channel declarations of a document give. *)
Definition declared_channel_ids (root : ET.Element) : list (option string) :=
  (fun channel => ET.get channel "id") <$> ET.iterfind root "channel".

(** All children of [l] carry the tag [name]. *)
Definition tagged (name : string) (l : list ET.Element) : Prop :=
  Forall (fun e => ET.tag e = name) l.

(** An output channel's guide mapping resolves: some guide channel has its
    source and its upstream id. *)
Definition mapping_resolves (d : database) (result : Channel.row) : Prop :=
  Exists (fun c => Some (EpgChannels.epg_id c) = Channel.guide_id result ∧
                   EpgChannels.channel_id c = Channel.guide_channel_id result)
         (epg_channels d).

(** The [<programme>] elements of an enabled channel. *)
Definition programme_elems_of (d : database) (result : Channel.row) : list ET.Element :=
  channel_programme_elems (programmes_data d result).

(** A [<channel>] element without the [src] of its logo, the one place of the
    document the time of the build goes to. *)
Definition without_logo_src (e : ET.Element) : ET.Element :=
  if ET.has_tag "channel" e then
    ET.mkElement (ET.tag e) (ET.attrib e) (ET.text e)
      ((fun c => if ET.has_tag "icon" c
                 then ET.mkElement (ET.tag c) [] (ET.text c) (ET.children c)
                 else c) <$> ET.children e)
  else e.

Definition mask_cache_buster (r : result ET.Element) : result ET.Element :=
  match r with
  | Ok root =>
      Ok (ET.mkElement (ET.tag root) (ET.attrib root) (ET.text root)
            (without_logo_src <$> ET.children root))
  | Raise e => Raise e
  end.

(** ** Data of the examples *)

Module Example.

Definition text_node (name t : string) : ET.Element := ET.mkElement name [] (Some t) [].

(** A guide with one channel, a programme on it whose [<episode-num>] has no
    [system], and a programme of a channel the guide does not declare. *)
Definition news_programme : ET.Element :=
  ET.mkElement "programme"
    [("start", "20240101120000 +0000"); ("stop", "20240101130000 +0000"); ("channel", "ch1")]
    None
    [text_node "title" "News"; text_node "episode-num" "S1E2"].

Definition orphan_programme : ET.Element :=
  ET.mkElement "programme" [("start", "20240101120000 +0000"); ("channel", "ch9")] None
    [text_node "title" "Nowhere"].

Definition guide : ET.Element :=
  ET.mkElement "tv" [] None
    [ET.mkElement "channel" [("id", "ch1")] None [text_node "display-name" "BBC One"];
     news_programme;
     orphan_programme].

Definition bbc_one : EpgChannels.row :=
  EpgChannels.mk 1 (Some "ch1") (Some "BBC One") (Some "") 1.

Definition programme (id : Z) (title start : string) (desc icon_url : option string)
  : EpgChannelProgrammes.row :=
  EpgChannelProgrammes.mk
    id (Some "ch1") (Some title) None desc None None icon_url
    (Some start) None None None
    (Some ["News"]) None None None None None
    None None None None None None None None None None None None None
    (Some false) (Some false) None None None 1.

Definition news : EpgChannelProgrammes.row :=
  programme 1 "News" "20240101120000 +0000" None None.

Definition weather : EpgChannelProgrammes.row :=
  programme 2 "Weather" "20240101130000 +0000" None None.

Definition source (id : Z) (url : string) : Epg.row :=
  Epg.mk id true (Some "guide") (Some url).

(** Output channel 101 takes its programmes from [ch1] of source 1; output
    channel 5 is enabled and has no guide mapping; output channel 7 is
    disabled. *)
Definition channel_101 : Channel.row :=
  Channel.mk 7 true (Some "BBC") None None (Some 101) None (Some 1) None (Some "ch1") [].

Definition channel_5 : Channel.row :=
  Channel.mk 8 true (Some "Gap") None None (Some 5) None None None None [].

Definition channel_7 : Channel.row :=
  Channel.mk 9 false (Some "Off") None None (Some 7) None (Some 1) None (Some "ch1") [].

Definition stored : database :=
  mkDatabase [source 1 "http://one/guide.xml"; source 2 "http://two/guide.xml"]
             [bbc_one] [weather; news] [channel_101; channel_5; channel_7].

Definition app_url : string := "http://tic".
Definition logo_ext (logo : option string) : string := ".png".
Definition clock (t : string) (k : nat) : string := t.

End Example.

(** What a coroutine can end with, under some contents of the cache and some
    responses. *)
Inductive returns {A} : coroutine A → A → Prop :=
| returns_Return a : returns (Return a) a
| returns_Acquire k a : returns k a → returns (AcquireSemaphore k) a
| returns_Release k a : returns k a → returns (ReleaseSemaphore k) a
| returns_Read k c a : returns (k c) a → returns (ReadCache k) a
| returns_Write f k a : returns k a → returns (WriteCache f k) a
| returns_Tmdb api_key title k response a :
    returns (k response) a → returns (GetTmdb api_key title k) a
| returns_Google title k response a :
    returns (k response) a → returns (GetGoogle title k) a.

(** The requests a coroutine can send. *)
Inductive sends {A} : coroutine A → request → Prop :=
| sends_Tmdb api_key title k : sends (GetTmdb api_key title k) (TmdbSearch api_key title)
| sends_Google title k : sends (GetGoogle title k) (GoogleSearch title)
| sends_Acquire k r : sends k r → sends (AcquireSemaphore k) r
| sends_Release k r : sends k r → sends (ReleaseSemaphore k) r
| sends_Read k c r : sends (k c) r → sends (ReadCache k) r
| sends_Write f k r : sends k r → sends (WriteCache f k) r
| sends_after_Tmdb api_key title k response r :
    sends (k response) r → sends (GetTmdb api_key title k) r
| sends_after_Google title k response r :
    sends (k response) r → sends (GetGoogle title k) r.

(** [c] is a later state of [c0]: it ends and sends as [c0] can. *)
Definition continues {A} (c0 c : coroutine A) : Prop :=
  (∀ a, returns c a → returns c0 a) ∧ (∀ r, sends c r → sends c0 r).

(** A task of the loop is a later state of the coroutine it was made from,
    and what it has sent is in the list of calls. *)
Definition task_of {A} (c0 : coroutine A) (t : task A) : Prop :=
  match t with
  | Ready c | Queued c => continues c0 c
  | AwaitTmdb k => ∃ api_key title, continues c0 (GetTmdb api_key title k)
  | AwaitGoogle k => ∃ title, continues c0 (GetGoogle title k)
  | Done a => returns c0 a
  end.

Definition loop_of {A} (coroutines : list (coroutine A)) (s : loop A) : Prop :=
  Forall2 task_of coroutines (l_tasks s) ∧
  ∀ r, r ∈ l_calls s → ∃ c0, c0 ∈ coroutines ∧ sends c0 r.


(** Data of the enrichment examples. *)
Module EnrichmentExample.

Definition tmdb_only : epg_settings := mkSettings true "key" false.
Definition google_only : epg_settings := mkSettings false "" true.

(** Two programmes titled News with no subtitle, description or icon. *)
Definition news_at_noon : EpgChannelProgrammes.row :=
  Example.programme 1 "News" "20240101120000 +0000" None None.

(** A programme with a description and no icon, and one with an icon. *)
Definition described : EpgChannelProgrammes.row :=
  Example.programme 3 "Weather" "20240101130000 +0000" (Some "The weather.") None.

Definition news_record : tmdb_result :=
  [("title", Some "News at Ten"); ("overview", Some "The news."); ("poster_path", Some "/n.jpg")].

Definition found_news : tmdb_response := TmdbStatus 200 [news_record].
Definition found_nothing : tmdb_response := TmdbStatus 200 [].

End EnrichmentExample.

(** The database [clear_epg_channel_data] leaves. *)
Definition cleared (epg_id : Z) (d : database) : database :=
  (clear_epg_channel_data epg_id d).1.

(** The rows [store_epg_programmes] makes of the programmes of a document:
    one for each programme of a channel in [channel_ids], in the order of
    the document. *)
Definition programme_rows (channel_ids : gmap (option string) Z) (root : ET.Element)
  : result (list EpgChannelProgrammes.row) :=
  rbind (rmap (programme_item channel_ids) (ET.iterfind root "programme"))
        (fun found => Ok (omap id found)).


(** The database an ingestion leaves that read [items] from the channels of
    the document and [rows] from its programmes: the rows of the other
    sources, and these with fresh keys. *)
Definition ingested (epg_id : Z) (d : database) (items : list EpgChannels.row)
           (rows : list EpgChannelProgrammes.row) : database :=
  let d1 := cleared epg_id d in
  let kept := filter (fun c => EpgChannels.epg_id c ≠ epg_id) (epg_channels d1) in
  mkDatabase
    (epgs d)
    (kept ++ insert_channels (next_rowid (EpgChannels.id <$> kept)) items)
    (epg_channel_programmes d1 ++
     insert_programmes (next_rowid (EpgChannelProgrammes.id <$> epg_channel_programmes d1)) rows)
    (channels d).

(** Data of the ingestion examples. *)
Module IngestionExample.



Definition serves (root : ET.Element) : network := fun _ => Downloaded (Document root).


(** The first source cannot be reached; the second one serves the guide. *)
Definition first_source_down : network :=
  fun url =>
    if decide (url = Some "http://one/guide.xml") then DownloadFailed
    else Downloaded (Document Example.guide).

End IngestionExample.

(** ** Editing the guide sources *)

(** The exceptions of SQLAlchemy the functions that edit a source end in. *)
Inductive orm_exn : Type :=
| NoResultFound
| MultipleResultsFound
| IntegrityError.

(** The dictionary a route hands to [add_new_epg] and [update_epg]: what
    [data.get] gives for the three keys it reads. *)
Record epg_data : Type := mkEpgData {
  data_enabled : option bool;
  data_name : option string;
  data_url : option string
}.

Definition set_epgs (l : list Epg.row) (d : database) : database :=
  mkDatabase l (epg_channels d) (epg_channel_programmes d) (channels d).

(** An entry of the list [read_config_all_epgs] returns; the export form has
    no [id]. *)
Record epg_config : Type := mkEpgConfig {
  config_id : option Z;
  config_enabled : bool;
  config_name : option string;
  config_url : option string
}.

(** [read_config_all_epgs]. *)
Definition read_config_all_epgs (output_for_export : bool) (d : database) : list epg_config :=
  (fun result =>
     mkEpgConfig (if output_for_export then None else Some (Epg.id result))
                 (Epg.enabled result) (Epg.name result) (Epg.url result)) <$> epgs d.

(** [add_new_epg]: the column [enabled] is NOT NULL, so that the flush of a
    source without it fails and the transaction is undone. *)
Definition add_new_epg (data : epg_data) (d : database) : database * option orm_exn :=
  match data_enabled data with
  | None => (d, Some IntegrityError)
  | Some enabled =>
      (set_epgs (epgs d ++ [Epg.mk (next_rowid (Epg.id <$> epgs d)) enabled
                                    (data_name data) (data_url data)]) d,
       None)
  end.

(** [update_epg]: [scalar_one] wants exactly one row. *)
Definition update_epg (epg_id : Z) (data : epg_data) (d : database)
  : database * option orm_exn :=
  match filter (fun e => Epg.id e = epg_id) (epgs d) with
  | [] => (d, Some NoResultFound)
  | [epg] =>
      match data_enabled data with
      | None => (d, Some IntegrityError)
      | Some enabled =>
          (set_epgs ((fun e => if decide (Epg.id e = epg_id)
                               then Epg.mk (Epg.id e) enabled (data_name data) (data_url data)
                               else e) <$> epgs d) d,
           None)
      end
  | _ :: _ :: _ => (d, Some MultipleResultsFound)
  end.

(** The regular files of the directory [cache/epgs] below the configuration
    directory, by name. *)
Definition cache_dir : Type := gset string.

(** [f"{epg_id}.xml"] and [f"{epg_id}.yml"]. *)
Definition cached_xml (epg_id : Z) : string := Py.str_int epg_id +:+ ".xml".
Definition cached_yml (epg_id : Z) : string := Py.str_int epg_id +:+ ".yml".

(** [delete_epg]: the rows of the source, in one transaction, and then its
    two cache files where they are there. The rows go by [delete]
    statements, which do not run the cascades of the ORM relationships, and
    SQLite does not check foreign keys unless it is asked to: the output
    channels that refer to the source stay as they are. *)
Definition delete_epg (epg_id : Z) (s : database * cache_dir) : database * cache_dir :=
  let '(d, files) := s in
  let channel_ids :=
    EpgChannels.id <$> filter (fun c => EpgChannels.epg_id c = epg_id) (epg_channels d) in
  let d1 :=
    match channel_ids with
    | [] => d
    | _ :: _ =>
        mkDatabase
          (epgs d)
          (filter (fun c => EpgChannels.id c ∉ channel_ids) (epg_channels d))
          (filter (fun p => EpgChannelProgrammes.epg_channel_id p ∉ channel_ids)
                  (epg_channel_programmes d))
          (channels d)
    end in
  (set_epgs (filter (fun e => Epg.id e ≠ epg_id) (epgs d1)) d1,
   files ∖ {[cached_xml epg_id]} ∖ {[cached_yml epg_id]}).

(** An entry of the lists [read_channels_from_all_epgs] returns. *)
Record epg_channel_info : Type := mkChannelInfo {
  info_channel_id : option string;
  info_display_name : option string;
  info_icon : option string
}.

(** [read_channels_from_all_epgs]: for every source, its guide channels in
    the order of the table. *)
Definition read_channels_from_all_epgs (d : database) : gmap Z (list epg_channel_info) :=
  foldl (fun epgs_channels result =>
           <[Epg.id result :=
               (fun epg_channel =>
                  mkChannelInfo (EpgChannels.channel_id epg_channel)
                                (EpgChannels.name epg_channel)
                                (EpgChannels.icon_url epg_channel))
               <$> filter (fun c => EpgChannels.epg_id c = Epg.id result) (epg_channels d)]>
             epgs_channels)
        ∅ (epgs d).

(** ** Settings: [backend/config.py] *)

(** A value of a settings file, as [yaml.safe_load] gives it: null, a
    Boolean, an integer, a string, a list, or a mapping. The keys of a
    mapping are strings; a mapping is a Python dictionary, whose entries are
    held in the order they were inserted, under distinct keys. *)
#[warnings="-register-all"]
Inductive pyvalue : Type :=
| PyNone
| PyBool (b : bool)
| PyInt (n : Z)
| PyStr (s : string)
| PyList (l : list pyvalue)
| PyDict (items : list (string * pyvalue)).

Module Dict.

(** [d.get(key)]; [key in d] is whether there is one. *)
Fixpoint get (key : string) (d : list (string * pyvalue)) : option pyvalue :=
  match d with
  | [] => None
  | (k, v) :: d' => if String.eqb k key then Some v else get key d'
  end.

(** [d[key] = v]: the entry of [key] gets the value, in its place; a new key
    goes to the end. *)
Fixpoint set (key : string) (v : pyvalue) (d : list (string * pyvalue))
  : list (string * pyvalue) :=
  match d with
  | [] => [(key, v)]
  | (k, v') :: d' => if String.eqb k key then (k, v) :: d' else (k, v') :: set key v d'
  end.

End Dict.

(** The loop of [recursive_dict_update] over [updates.items()], with [rec]
    for the recursive call. [defaults] is changed in place, so that an
    exception leaves it with the entries set before: the result is the
    object and the exception that left the loop, if any. A [defaults] that
    is no mapping has no item assignment and no look-up by a string, and
    membership in it is a [TypeError] too or is followed by one. *)
Definition update_items (rec : pyvalue -> pyvalue -> pyvalue * option exn)
  : list (string * pyvalue) -> pyvalue -> pyvalue * option exn :=
  fix loop (items : list (string * pyvalue)) (defaults : pyvalue) : pyvalue * option exn :=
    match items with
    | [] => (defaults, None)
    | (key, value) :: rest =>
        match defaults with
        | PyDict d =>
            match value, Dict.get key d with
            | PyDict _, Some child =>
                match rec child value with
                | (child', None) => loop rest (PyDict (Dict.set key child' d))
                | (child', Some e) => (PyDict (Dict.set key child' d), Some e)
                end
            | _, _ => loop rest (PyDict (Dict.set key value d))
            end
        | _ => (defaults, Some TypeError)
        end
    end.

(** [recursive_dict_update]; [updates.items()] of a value that is no mapping
    raises. *)
Fixpoint recursive_dict_update (defaults updates : pyvalue) {struct updates}
  : pyvalue * option exn :=
  match updates with
  | PyDict items => update_items (fun child value => recursive_dict_update child value)
                                 items defaults
  | _ => (defaults, Some AttributeError)
  end.

(** [isinstance(v, dict)]. *)
Definition is_dict (v : pyvalue) : bool :=
  match v with
  | PyDict _ => true
  | _ => false
  end.

(** The keys of every mapping of a value are distinct, as they are in a
    Python dictionary. *)
Fixpoint well_formed (v : pyvalue) : bool :=
  match v with
  | PyList l => forallb well_formed l
  | PyDict items =>
      bool_decide (NoDup items.*1) && forallb (fun kv => well_formed kv.2) items
  | _ => true
  end.

(** [v[k1][k2]...] through mappings, where there is such a value. *)
Fixpoint lookup_path (path : list string) (v : pyvalue) : option pyvalue :=
  match path with
  | [] => Some v
  | key :: path' =>
      match v with
      | PyDict d => Dict.get key d ≫= lookup_path path'
      | _ => None
      end
  end.

(** The updates give a value that is no mapping at the path or above it. *)
Definition overrides (updates : pyvalue) (path : list string) : Prop :=
  ∃ prefix v, prefix `prefix_of` path ∧ prefix ≠ [] ∧
              lookup_path prefix updates = Some v ∧ is_dict v = false.

(** What [yaml.dump] followed by [yaml.safe_load] gives back: the value,
    with the entries of every mapping in the order of their keys, which is
    how [yaml.dump] writes them. *)
Fixpoint sort_keys (v : pyvalue) : pyvalue :=
  match v with
  | PyList l => PyList (sort_keys <$> l)
  | PyDict items =>
      PyDict (order_by (fun a b => String.leb a.1 b.1)
                       ((fun kv => (kv.1, sort_keys kv.2)) <$> items))
  | _ => v
  end.

(** What there is of a YAML file to [yaml.safe_load]: text it cannot parse,
    or the value it loads. *)
Inductive yaml_file : Type :=
| Malformed
| Yaml (data : pyvalue).

(** [read_yaml]: the empty mapping when there is no file, and [None] when
    the file cannot be parsed, the exception being printed. *)
Definition read_yaml (file : option yaml_file) : pyvalue :=
  match file with
  | None => PyDict []
  | Some Malformed => PyNone
  | Some (Yaml data) => data
  end.

(** [write_yaml]: the file it leaves. *)
Definition write_yaml (data : pyvalue) : option yaml_file :=
  Some (Yaml (sort_keys data)).

Module Config.

(** [self.default_settings] as [__init__] makes it. *)
Definition initial_default_settings (tvh_local : bool) : pyvalue :=
  PyDict
    [("settings",
      PyDict
        [("first_run", PyBool true);
         ("tvheadend",
          PyDict [("host", PyStr ""); ("port", PyStr "9981"); ("path", PyStr "/");
                  ("username", PyStr ""); ("password", PyStr "")]);
         ("app_url", PyNone);
         ("enable_admin_user", PyBool tvh_local);
         ("admin_password", PyStr "admin");
         ("enable_stream_buffer", PyBool true);
         ("default_ffmpeg_pipe_args",
          PyStr ("-hide_banner -loglevel error "
                 +:+ "-probesize 10M -analyzeduration 0 -fpsprobesize 0 "
                 +:+ "-i [URL] -c copy -metadata service_name=[SERVICE_NAME] "
                 +:+ "-f mpegts pipe:1"));
         ("create_client_user", PyBool true);
         ("client_username", PyStr "client");
         ("client_password", PyStr "client");
         ("epgs",
          PyDict [("enable_tmdb_metadata", PyBool false);
                  ("tmdb_api_key", PyStr "");
                  ("enable_google_image_search_metadata", PyBool false)])])].

(** A [Config] object and the file [settings.yml]. [self.settings] is
    [None] or the object [self.default_settings], which is what
    [recursive_dict_update] returns: [loaded] says which. *)
Record state : Type := mkState {
  loaded : bool;
  default_settings : pyvalue;
  config_file : option yaml_file
}.

(** [self.settings]. *)
Definition settings (s : state) : option pyvalue :=
  if loaded s then Some (default_settings s) else None.

(** [Config()], with what [is_tvh_process_running_locally_sync] found. *)
Definition init (tvh_local : bool) (file : option yaml_file) : state :=
  mkState false (initial_default_settings tvh_local) file.

Definition write_settings_yaml (data : pyvalue) (s : state) : state :=
  mkState (loaded s) (default_settings s) (write_yaml data).

Definition create_default_settings_yaml (s : state) : state :=
  write_settings_yaml (default_settings s) s.

Definition read_config_yaml (s : state) : state * pyvalue :=
  let s := match config_file s with
           | None => create_default_settings_yaml s
           | Some _ => s
           end in
  (s, read_yaml (config_file s)).

(** [read_settings]. *)
Definition read_settings (s : state) : state * result pyvalue :=
  let '(s, yaml_settings) :=
    if loaded s then (s, PyDict []) else read_config_yaml s in
  match recursive_dict_update (default_settings s) yaml_settings with
  | (defaults, None) => (mkState true defaults (config_file s), Ok defaults)
  | (defaults, Some e) => (mkState (loaded s) defaults (config_file s), Raise e)
  end.

(** [save_settings]; [yaml.dump] of [None] writes a null. *)
Definition save_settings (s : state) : state :=
  let s := if loaded s then s else create_default_settings_yaml s in
  write_settings_yaml (default PyNone (settings s)) s.

(** [update_settings]. *)
Definition update_settings (updated_settings : pyvalue) (s : state) : state * result unit :=
  match (if loaded s then (s, Ok PyNone) else read_settings s) with
  | (s, Raise e) => (s, Raise e)
  | (s, Ok _) =>
      match recursive_dict_update (default_settings s) updated_settings with
      | (defaults, None) => (mkState true defaults (config_file s), Ok tt)
      | (defaults, Some e) => (mkState (loaded s) defaults (config_file s), Raise e)
      end
  end.

(** [update_settings] for each of a list of updates, as long as none
    raises. *)
Fixpoint update_settings_each (updates : list pyvalue) (s : state) : state * result unit :=
  match updates with
  | [] => (s, Ok tt)
  | updated_settings :: rest =>
      match update_settings updated_settings s with
      | (s, Ok _) => update_settings_each rest s
      | (s, Raise e) => (s, Raise e)
      end
  end.

End Config.

(** A value that is no list and no mapping. *)
Definition is_scalar (v : pyvalue) : bool :=
  match v with
  | PyList _ | PyDict _ => false
  | _ => true
  end.

(** The settings [r] come from the defaults by updates: where the defaults
    have a value, [r] has a value that is no mapping at its path or above
    it, or both have a mapping there. *)
Definition extends (defaults r : pyvalue) : Prop :=
  ∀ path x, lookup_path path defaults = Some x →
            overrides r path ∨
            (is_dict x = true ∧ ∃ y, lookup_path path r = Some y ∧ is_dict y = true).

(** Whether the updates give a value that is no mapping at the path or
    above it. *)
Fixpoint overridden (updates : pyvalue) (path : list string) : bool :=
  match path, updates with
  | key :: path', PyDict items =>
      match Dict.get key items with
      | Some uk => negb (is_dict uk) || overridden uk path'
      | None => false
      end
  | _, _ => false
  end.

(** ** The semaphore of a batch *)

(** The state of a batch of [gather] after the first turn of its tasks and
    the events that followed. *)
Definition batch {A} (coroutines : list (coroutine A)) (c : cache) (events : list event)
  : loop A :=
  foldl step (start (mkLoop c 10%nat [] (Ready <$> coroutines) [])) events.

(** A task whose request is on its way. *)
Definition awaits_response {A} (t : task A) : bool :=
  match t with
  | AwaitTmdb _ | AwaitGoogle _ => true
  | _ => false
  end.

(** The number of requests that are on their way. *)
Definition in_flight {A} (s : loop A) : nat :=
  length (List.filter awaits_response (l_tasks s)).

(** A coroutine that starts with or without a permit of the semaphore
    ([held]) and ends with or without one ([at_end]): it asks for a permit
    only when it has none, gives back only the one it has, and sends its
    requests while it has one. *)
Fixpoint bracketed {A} (held at_end : bool) (c : coroutine A) : Prop :=
  match c with
  | Return _ => held = at_end
  | AcquireSemaphore k => held = false ∧ bracketed true at_end k
  | ReleaseSemaphore k => held = true ∧ bracketed false at_end k
  | ReadCache k => ∀ c, bracketed held at_end (k c)
  | WriteCache _ k => bracketed held at_end k
  | GetTmdb _ _ k => held = true ∧ ∀ response, bracketed true at_end (k response)
  | GetGoogle _ k => held = true ∧ ∀ response, bracketed true at_end (k response)
  end.

(** A task of the loop, with or without a permit. *)
Definition task_holds {A} (held : bool) (t : task A) : Prop :=
  match t with
  | Ready c => bracketed held false c
  | Queued k => held = false ∧ bracketed true false k
  | AwaitTmdb k => held = true ∧ ∀ response, bracketed true false (k response)
  | AwaitGoogle k => held = true ∧ ∀ response, bracketed true false (k response)
  | Done _ => held = false
  end.

(** The number of permits the tasks have. *)
Definition permits_held (held : list bool) : nat :=
  length (List.filter id held).

(** The permits of the semaphore and those of the tasks are ten at most. *)
Definition semaphore_bounded {A} (s : loop A) : Prop :=
  ∃ held, Forall2 task_holds held (l_tasks s) ∧ (l_permits s + permits_held held ≤ 10)%nat.

(** ** The enrichment of the stored programmes *)

(** [db.session.bulk_save_objects(programmes)] and the commit that follows:
    the rows of the programmes get the values of the objects. *)
Definition save_updated (programmes : list EpgChannelProgrammes.row) (d : database) : database :=
  set_epg_channel_programmes
    ((fun p => default p (head (filter (fun u => EpgChannelProgrammes.id u =
                                                 EpgChannelProgrammes.id p) programmes)))
       <$> epg_channel_programmes d)
    d.

(** The loop of [update_channel_epg_with_online_data] over the enabled
    channels: [events] has the events of the batch of each channel, [c] is
    the cache the batches share, and [calls] are the requests sent so far.
    No result means that a batch does not come to its end. *)
Fixpoint update_channels (settings : epg_settings) (results : list Channel.row)
         (events : list (list event)) (c : cache) (d : database) (calls : list request)
  : option (database * cache * list request) :=
  match results with
  | [] => Some (d, c, calls)
  | result :: rest =>
      let db_programmes := db_programmes_query d result in
      match update_programmes_concurrently settings db_programmes c (default [] (head events)) with
      | None => None
      | Some (updated, c', sent) =>
          update_channels settings rest (tail events) c' (save_updated updated.*1 d)
                          (calls ++ sent)
      end
  end.

(** [update_channel_epg_with_online_data]: the database it leaves and the
    requests it sent. *)
Definition update_channel_epg_with_online_data (settings : epg_settings)
           (events : list (list event)) (d : database) : option (database * list request) :=
  if enable_tmdb_metadata settings || enable_google_image_search_metadata settings then
    match update_channels settings (enabled_channels d) events empty_cache d [] with
    | Some (d', _, calls) => Some (d', calls)
    | None => None
    end
  else Some (d, []).

(** What the enrichment may do to a stored programme: nothing when it has
    an icon, and otherwise fill its subtitle, its description and its
    icon. *)
Definition enriched (p p' : EpgChannelProgrammes.row) : Prop :=
  (Py.truthy (EpgChannelProgrammes.icon_url p) = true → p' = p) ∧
  p' = EpgChannelProgrammes.set_icon_url (EpgChannelProgrammes.icon_url p')
         (EpgChannelProgrammes.set_desc (EpgChannelProgrammes.desc p')
            (EpgChannelProgrammes.set_sub_title (EpgChannelProgrammes.sub_title p') p)).

(** ** What a batch keeps of the cache *)

(** A coroutine that keeps a property [kept] of the cache in every write it
    makes, as long as the cache it reads has it, and sends no request that
    is [barred]. *)
Fixpoint respects {A} (kept : cache -> Prop) (barred : request -> Prop) (c : coroutine A)
  : Prop :=
  match c with
  | Return _ => True
  | AcquireSemaphore k => respects kept barred k
  | ReleaseSemaphore k => respects kept barred k
  | ReadCache k => ∀ c, kept c → respects kept barred (k c)
  | WriteCache f k => (∀ c, kept c → kept (f c)) ∧ respects kept barred k
  | GetTmdb api_key title k =>
      ¬ barred (TmdbSearch api_key title) ∧ ∀ response, respects kept barred (k response)
  | GetGoogle title k =>
      ¬ barred (GoogleSearch title) ∧ ∀ response, respects kept barred (k response)
  end.

Definition task_respects {A} (kept : cache -> Prop) (barred : request -> Prop) (t : task A)
  : Prop :=
  match t with
  | Ready c | Queued c => respects kept barred c
  | AwaitTmdb k => ∀ response, respects kept barred (k response)
  | AwaitGoogle k => ∀ response, respects kept barred (k response)
  | Done _ => True
  end.

(** A batch whose cache has the property, whose tasks keep it, and which has
    sent no barred request. *)
Definition loop_respects {A} (kept : cache -> Prop) (barred : request -> Prop) (s : loop A)
  : Prop :=
  kept (l_cache s) ∧
  Forall (task_respects kept barred) (l_tasks s) ∧
  Forall (fun r => ¬ barred r) (l_calls s).

(** ** What a task did *)








(** * Properties *)

(** ** The children of a [<programme>] element, by tag *)

Lemma filter_tagged_ne name tag l :
  tagged name l → String.eqb name tag = false → List.filter (ET.has_tag tag) l = [].
Proof.
  intros Hl Hne. induction Hl as [|e l He _ IH]; [done|].
  simpl. unfold ET.has_tag at 1. rewrite He, Hne. exact IH.
Qed.

Lemma filter_tagged_eq name l :
  tagged name l → List.filter (ET.has_tag name) l = l.
Proof.
  intros Hl. induction Hl as [|e l He _ IH]; [done|].
  simpl. unfold ET.has_tag at 1. rewrite He, String.eqb_refl. by rewrite IH.
Qed.

Lemma tagged_when name (b : bool) e : ET.tag e = name → tagged name (when b e).
Proof. intros He. destruct b; repeat constructor; done. Qed.

Lemma tagged_child name v : tagged name (child name v).
Proof. destruct v; repeat constructor. Qed.

Lemma tagged_truthy_child name v : tagged name (truthy_child name v).
Proof. destruct v; [apply tagged_when|constructor]; done. Qed.

Lemma tagged_length_elems v : tagged "length" (length_elems v).
Proof.
  destruct v as [l|]; [apply tagged_when|constructor].
  unfold length_elem. by destruct (Py.split_space l) as [[? ?]|].
Qed.

Lemma tagged_credits_elems l : tagged "credits" (credits_elems l).
Proof. destruct l; repeat constructor. Qed.

Lemma tagged_episode_num_elems s v : tagged "episode-num" (episode_num_elems s v).
Proof. destruct s, v; try constructor. by apply tagged_when. Qed.

Lemma tagged_rating_elems s v : tagged "rating" (rating_elems s v).
Proof. destruct s, v; try constructor. by apply tagged_when. Qed.

Lemma tagged_star_rating_elems v : tagged "star-rating" (star_rating_elems v).
Proof. destruct v; [by apply tagged_when|constructor]. Qed.

Lemma tagged_group name l : tagged name (group name l).
Proof. destruct l; repeat constructor. Qed.

Lemma tagged_attr_child name key v : tagged name (attr_child name key v).
Proof. destruct v; [by apply tagged_when|constructor]. Qed.

Lemma tagged_review_elems t v : tagged "review" (review_elems t v).
Proof. destruct v; [by apply tagged_when|constructor]. Qed.

Lemma tagged_icon_elems v : tagged "icon" (icon_elems v).
Proof. destruct v; [by apply tagged_when|constructor]. Qed.

Lemma tagged_category_elem name (l : list (option string)) :
  tagged name (category_elem name <$> l).
Proof. induction l; constructor; done. Qed.

Lemma tagged_category_elem_Some name (l : list string) :
  tagged name (category_elem name ∘ Some <$> l).
Proof. induction l; constructor; done. Qed.

Create HintDb tagged.
#[local] Hint Resolve tagged_when tagged_child tagged_truthy_child tagged_length_elems
  tagged_credits_elems tagged_episode_num_elems tagged_rating_elems
  tagged_star_rating_elems tagged_group tagged_attr_child tagged_review_elems
  tagged_icon_elems tagged_category_elem tagged_category_elem_Some : tagged.

(** The children of a programme element with the tag [name], when [name] is
    the tag of one of the pieces: every other piece is filtered away. *)
Ltac filter_pieces :=
  unfold ET.findall, programme_elem, ET.elem, ET.children, programme_children;
  rewrite !List.filter_app;
  repeat match goal with
    | |- context [List.filter (ET.has_tag ?tag) ?piece] =>
        first
          [ rewrite (filter_tagged_ne _ tag piece) by (eauto with tagged)
          | rewrite (filter_tagged_eq tag piece) by (eauto with tagged) ]
    end;
  rewrite ?app_nil_r; simpl.

Lemma findall_episode_num channel tags p :
  ET.findall (programme_elem channel tags p) "episode-num" =
  episode_num_elems (EpgChannelProgrammes.episode_num_system p)
                    (EpgChannelProgrammes.episode_num_value p).
Proof. filter_pieces. reflexivity. Qed.

Lemma findall_rating channel tags p :
  ET.findall (programme_elem channel tags p) "rating" =
  rating_elems (EpgChannelProgrammes.rating_system p) (EpgChannelProgrammes.rating_value p).
Proof. filter_pieces. reflexivity. Qed.

(** ** ORDER BY sorts, and keeps what it is given *)

Lemma insert_by_Permutation {A} (leb : A → A → bool) x l :
  insert_by leb x l ≡ₚ x :: l.
Proof.
  induction l as [|y l IH]; simpl; [done|].
  destruct (leb x y); [done|]. rewrite IH. apply Permutation_swap.
Qed.

Lemma order_by_Permutation {A} (leb : A → A → bool) l :
  order_by leb l ≡ₚ l.
Proof.
  induction l as [|x l IH]; simpl; [done|].
  rewrite insert_by_Permutation. by rewrite IH.
Qed.

Section Sorting.
Context {A : Type} (leb : A → A → bool).
Hypothesis leb_total : ∀ x y, leb x y = false → leb y x = true.

Lemma insert_by_HdRel a x l :
  leb a x = true → HdRel (fun x y => leb x y = true) a l →
  HdRel (fun x y => leb x y = true) a (insert_by leb x l).
Proof.
  intros Hax Hl. destruct l as [|y l]; simpl; [by constructor|].
  destruct (leb x y); constructor; [done|]. by inversion Hl.
Qed.

Lemma insert_by_Sorted x l :
  Sorted (fun x y => leb x y = true) l →
  Sorted (fun x y => leb x y = true) (insert_by leb x l).
Proof.
  induction 1 as [|y l Hs IH Hhd]; simpl; [repeat constructor|].
  destruct (leb x y) eqn:Hxy.
  - constructor; [by constructor|by constructor].
  - constructor; [done|]. apply insert_by_HdRel; [by apply leb_total|done].
Qed.

Lemma order_by_Sorted l : Sorted (fun x y => leb x y = true) (order_by leb l).
Proof.
  induction l as [|x l IH]; simpl; [constructor|]. by apply insert_by_Sorted.
Qed.

End Sorting.

Lemma opt_compare_antisym {A} (cmp : A → A → comparison) a b :
  (∀ x y, cmp x y = CompOpp (cmp y x)) →
  opt_compare cmp a b = CompOpp (opt_compare cmp b a).
Proof. intros H. destruct a, b; simpl; auto. Qed.

Lemma number_asc_total a b : number_asc a b = false → number_asc b a = true.
Proof.
  unfold number_asc. rewrite (opt_compare_antisym Z.compare _ _ (fun x y => Z.compare_antisym y x)).
  by destruct (opt_compare Z.compare (Channel.number b) (Channel.number a)).
Qed.

Lemma channel_id_start_compare_antisym p q :
  channel_id_start_compare p q = CompOpp (channel_id_start_compare q p).
Proof.
  unfold channel_id_start_compare.
  rewrite (opt_compare_antisym String.compare (EpgChannelProgrammes.channel_id p) _
             String.compare_antisym).
  rewrite (opt_compare_antisym String.compare (EpgChannelProgrammes.start p) _
             String.compare_antisym).
  by destruct (opt_compare String.compare (EpgChannelProgrammes.channel_id q) _).
Qed.

Lemma channel_id_start_asc_total p q :
  channel_id_start_asc p q = false → channel_id_start_asc q p = true.
Proof.
  unfold channel_id_start_asc. rewrite (channel_id_start_compare_antisym p q).
  by destruct (channel_id_start_compare q p).
Qed.

(** ** The shape of the synthesized document *)

Lemma rmap_Ok_length {A B} (f : A → result B) l bs :
  rmap f l = Ok bs → length bs = length l.
Proof.
  revert bs. induction l as [|a l IH]; intros bs; simpl.
  - by intros [= <-].
  - destruct (f a); simpl; [|done]. destruct (rmap f l); simpl; [|done].
    intros [= <-]. simpl. f_equal. by apply IH.
Qed.

Lemma rmap_Ok_Forall2 {A B} (f : A → result B) l bs :
  rmap f l = Ok bs → Forall2 (fun a b => f a = Ok b) l bs.
Proof.
  revert bs. induction l as [|a l IH]; intros bs; simpl.
  - intros [= <-]. constructor.
  - destruct (f a) eqn:Ha; simpl; [|done]. destruct (rmap f l); simpl; [|done].
    intros [= <-]. constructor; [done|]. by apply IH.
Qed.

Lemma rmap_Forall_Ok {A B} (f : A → result B) l :
  Forall (fun a => ∃ b, f a = Ok b) l → ∃ bs, rmap f l = Ok bs.
Proof.
  induction 1 as [|a l [b Hb] _ [bs IH]]; simpl; [by eexists|].
  rewrite Hb, IH. simpl. by eexists.
Qed.

Lemma channel_elem_id info e :
  channel_elem info = Ok e → ET.get e "id" = Some (cc_channel_id info).
Proof.
  unfold channel_elem. destruct (cc_display_name info); [|done]. by intros [= <-].
Qed.

Lemma programme_elem_channel channel tags p :
  ET.get (programme_elem channel tags p) "channel" = Some channel.
Proof.
  unfold ET.get, programme_elem, ET.elem, ET.attrib, programme_attrib, attr.
  destruct (EpgChannelProgrammes.start p) as [[|??]|],
           (EpgChannelProgrammes.stop p) as [[|??]|],
           (EpgChannelProgrammes.start_timestamp p) as [[|??]|],
           (EpgChannelProgrammes.stop_timestamp p) as [[|??]|]; reflexivity.
Qed.

Lemma number_asc_trans a b c :
  number_asc a b = true → number_asc b c = true → number_asc a c = true.
Proof.
  unfold number_asc.
  destruct (Channel.number a) as [x|], (Channel.number b) as [y|],
           (Channel.number c) as [z|]; simpl; try done.
  destruct (Z.compare_spec x y), (Z.compare_spec y z), (Z.compare_spec x z);
    simpl; try done; lia.
Qed.

Lemma StronglySorted_list_filter {A} (R : A → A → Prop) (f : A → bool) l :
  StronglySorted R l → StronglySorted R (List.filter f l).
Proof.
  induction 1 as [|x l _ IH Hx]; simpl; [constructor|].
  destruct (f x); [|done]. constructor; [done|].
  rewrite Forall_forall in Hx. apply Forall_forall. intros y Hy.
  apply Hx. apply list_elem_of_In. apply list_elem_of_In in Hy.
  by apply List.filter_In in Hy as [? _].
Qed.

Lemma enabled_channels_spec d :
  enabled_channels d ≡ₚ filter (fun c => Channel.enabled c = true) (channels d) ∧
  StronglySorted (fun a b => number_asc a b = true) (enabled_channels d).
Proof.
  unfold enabled_channels. split.
  - rewrite <- (order_by_Permutation number_asc (channels d)) at 2.
    generalize (order_by number_asc (channels d)). intros l.
    induction l as [|c l IH]; simpl; [done|].
    rewrite filter_cons. destruct (Channel.enabled c); simpl; [by constructor|done].
  - apply StronglySorted_list_filter, Sorted_StronglySorted.
    + intros a b c. apply number_asc_trans.
    + apply order_by_Sorted, number_asc_total.
Qed.

Lemma db_programmes_query_spec d result :
  db_programmes_query d result ≡ₚ
    filter (fun p =>
              channel_has d (fun c => Some (EpgChannels.epg_id c) = Channel.guide_id result) p ∧
              channel_has d (fun c => EpgChannels.channel_id c = Channel.guide_channel_id result) p)
           (epg_channel_programmes d) ∧
  Sorted (fun p q => channel_id_start_asc p q = true) (db_programmes_query d result).
Proof.
  split; [apply order_by_Permutation|].
  apply order_by_Sorted, channel_id_start_asc_total.
Qed.

Lemma programme_elems_unfold d :
  programme_elems d = result ← enabled_channels d; programme_elems_of d result.
Proof.
  unfold programme_elems, all_channel_programmes_data, programme_elems_of.
  induction (enabled_channels d) as [|c l IH]; [done|].
  rewrite fmap_cons, !bind_cons. by f_equal.
Qed.

Lemma configured_channels_ids app_url logo_ext now d :
  cc_channel_id <$> configured_channels app_url logo_ext now d =
  (fun result => Py.str_opt_int (Channel.number result)) <$> enabled_channels d.
Proof.
  unfold configured_channels. generalize (enabled_channels d). intros l.
  revert now. induction l as [|c l IH]; intros now; simpl; [done|].
  f_equal. unfold logo_url in IH. apply (IH (now ∘ S)).
Qed.

Lemma build_custom_epg_Ok app_url logo_ext now d root :
  build_custom_epg app_url logo_ext now d = Ok root →
  ∃ channel_elems,
    rmap channel_elem (configured_channels app_url logo_ext now d) = Ok channel_elems ∧
    root = ET.elem "tv" [("generator-info-name", "TVH-IPTV-Config");
                         ("source-info-name", "TVH-IPTV-Config - v0.1")]
                   None (channel_elems ++ programme_elems d).
Proof.
  unfold build_custom_epg. destruct (rmap channel_elem _) as [es|]; simpl; [|done].
  intros [= <-]. by exists es.
Qed.

Lemma channel_elems_ids l es :
  rmap channel_elem l = Ok es →
  (fun e => ET.get e "id") <$> es = Some ∘ cc_channel_id <$> l.
Proof.
  intros H. apply rmap_Ok_Forall2 in H.
  induction H as [|info e l es He _ IH]; simpl; [done|].
  f_equal; [by apply channel_elem_id|done].
Qed.

(** ** Synthesis: the claims *)

Lemma configured_channels_ext app_url logo_ext now1 now2 d :
  (∀ k, (k < length (enabled_channels d))%nat → now1 k = now2 k) →
  configured_channels app_url logo_ext now1 d = configured_channels app_url logo_ext now2 d.
Proof.
  intros H. unfold configured_channels. apply imap_ext. intros k c Hk. simpl.
  unfold logo_url. rewrite (H k); [done|]. by eapply lookup_lt_Some.
Qed.

Lemma channel_elems_masked app_url logo_ext now1 now2 (l : list Channel.row) :
  let configured now :=
    imap (fun k result =>
            mkConfigured (generate_epg_channel_id (Channel.number result) (Channel.name result))
                         (Channel.name result)
                         (logo_url app_url logo_ext now k result)) l in
  match rmap channel_elem (configured now1), rmap channel_elem (configured now2) with
  | Ok es1, Ok es2 => without_logo_src <$> es1 = without_logo_src <$> es2
  | Raise e1, Raise e2 => e1 = e2
  | _, _ => False
  end.
Proof.
  revert now1 now2. induction l as [|c l IH]; intros now1 now2; simpl; [done|].
  unfold channel_elem at 1 3. simpl.
  specialize (IH (now1 ∘ S) (now2 ∘ S)). simpl in IH.
  destruct (Channel.name c); simpl; [|done].
  unfold logo_url in *.
  destruct (rmap channel_elem _), (rmap channel_elem _); simpl; try done.
  by f_equal.
Qed.

Lemma without_logo_src_programme channel tags p :
  without_logo_src (programme_elem channel tags p) = programme_elem channel tags p.
Proof. reflexivity. Qed.

(** C5. [build_custom_epg] works on exactly the enabled output channels, in
    ascending order of their number; the programmes it fetches for each are
    those of the mapped guide channel ordered by upstream channel id and
    start; the document lists a [<channel>] for each of them in that order,
    then their programmes, and the [channel] attribute of every
    [<programme>] is the number of the output channel as a string. *)
Theorem synthesis_order_and_identity app_url logo_ext now d :
  (enabled_channels d ≡ₚ filter (fun c => Channel.enabled c = true) (channels d) ∧
   StronglySorted (fun a b => number_asc a b = true) (enabled_channels d)) ∧
  (∀ result,
     db_programmes_query d result ≡ₚ
       filter (fun p =>
                 channel_has d (fun c => Some (EpgChannels.epg_id c) = Channel.guide_id result) p ∧
                 channel_has d (fun c => EpgChannels.channel_id c = Channel.guide_channel_id result) p)
              (epg_channel_programmes d) ∧
     Sorted (fun p q => channel_id_start_asc p q = true) (db_programmes_query d result)) ∧
  (∀ root,
     build_custom_epg app_url logo_ext now d = Ok root →
     ∃ channel_elems,
       ET.children root = channel_elems ++ programme_elems d ∧
       (fun e => ET.get e "id") <$> channel_elems =
         (fun result => Some (Py.str_opt_int (Channel.number result))) <$> enabled_channels d) ∧
  programme_elems d =
    (result ← enabled_channels d;
     programme_elem (generate_epg_channel_id (Channel.number result) (Channel.name result))
                    (Channel.tags result) <$> db_programmes_query d result) ∧
  (∀ result p,
     ET.get (programme_elem (generate_epg_channel_id (Channel.number result) (Channel.name result))
                            (Channel.tags result) p) "channel"
     = Some (Py.str_opt_int (Channel.number result))).
Proof.
  split; [apply enabled_channels_spec|].
  split; [apply db_programmes_query_spec|].
  split; [|split].
  - intros root Hroot.
    apply build_custom_epg_Ok in Hroot as (es & Hes & ->).
    exists es. split; [done|].
    rewrite (channel_elems_ids _ _ Hes), list_fmap_compose.
    by rewrite configured_channels_ids, <- list_fmap_compose.
  - apply programme_elems_unfold.
  - intros result p. apply programme_elem_channel.
Qed.

(** The example of C5: the document for [Example.stored] lists channel 5
    and channel 101, in this order. *)
Lemma synthesis_order_and_identity_witness :
  ∃ root channel_elems,
    build_custom_epg Example.app_url Example.logo_ext (Example.clock "1704110400.0")
                     Example.stored = Ok root ∧
    ET.children root = channel_elems ++ programme_elems Example.stored ∧
    (fun e => ET.get e "id") <$> channel_elems = [Some "5"; Some "101"].
Proof.
  destruct (synthesis_order_and_identity Example.app_url Example.logo_ext
              (Example.clock "1704110400.0") Example.stored) as (_ & _ & H & _).
  destruct (build_custom_epg Example.app_url Example.logo_ext (Example.clock "1704110400.0")
              Example.stored) as [root|] eqn:E; [|by vm_compute in E].
  destruct (H root eq_refl) as (es & Hchildren & Hids).
  exists root, es. repeat split; [done|]. rewrite Hids. reflexivity.
Defined.

Lemma channel_elems_logo app_url logo_ext now (l : list Channel.row) es :
  rmap channel_elem
       (imap (fun k result =>
                mkConfigured (generate_epg_channel_id (Channel.number result) (Channel.name result))
                             (Channel.name result)
                             (logo_url app_url logo_ext now k result)) l) = Ok es →
  (fun e => icon ← ET.find e "icon"; ET.get icon "src") <$> es =
  imap (fun k result => Some (logo_url app_url logo_ext now k result)) l.
Proof.
  revert now es. induction l as [|c l IH]; intros now es; simpl.
  - by intros [= <-].
  - unfold channel_elem at 1. simpl. destruct (Channel.name c); simpl; [|done].
    destruct (rmap channel_elem _) as [es'|] eqn:Hes; simpl; [|done].
    intros [= <-]. rewrite fmap_cons. f_equal. by apply (IH (now ∘ S)).
Qed.

(** C9. Two runs of [build_custom_epg] over the same rows give the same
    document but for the [src] of the channel logos; that [src] is the URL
    of the logo with the time of the run in it, and with the same times the
    documents are the same. *)
Theorem synthesis_idempotent app_url logo_ext now1 now2 d :
  mask_cache_buster (build_custom_epg app_url logo_ext now1 d) =
  mask_cache_buster (build_custom_epg app_url logo_ext now2 d) ∧
  (∀ root,
     build_custom_epg app_url logo_ext now1 d = Ok root →
     ∃ channel_elems,
       ET.children root = channel_elems ++ programme_elems d ∧
       (fun e => icon ← ET.find e "icon"; ET.get icon "src") <$> channel_elems =
       imap (fun k result =>
               Some (app_url +:+ "/tic-api/channels/" +:+ Py.str_int (Channel.id result)
                     +:+ "/logo/" +:+ now1 k +:+ logo_ext (Channel.logo_base64 result)))
            (enabled_channels d)) ∧
  ((∀ k, (k < length (enabled_channels d))%nat → now1 k = now2 k) →
   build_custom_epg app_url logo_ext now1 d = build_custom_epg app_url logo_ext now2 d).
Proof.
  split; [|split].
  - unfold build_custom_epg, configured_channels.
    pose proof (channel_elems_masked app_url logo_ext now1 now2 (enabled_channels d)) as H.
    simpl in H.
    destruct (rmap channel_elem _) as [es1|e1], (rmap channel_elem _) as [es2|e2];
      simpl; try done; [|by subst].
    do 2 f_equal. rewrite !fmap_app. by f_equal.
  - intros root (es & Hes & ->)%build_custom_epg_Ok. exists es. split; [done|].
    by apply channel_elems_logo.
  - intros H. unfold build_custom_epg.
    by rewrite (configured_channels_ext _ _ now1 now2 d H).
Qed.

(** The example of C9: two runs at different times over [Example.stored]. *)
Lemma synthesis_idempotent_witness :
  mask_cache_buster (build_custom_epg Example.app_url Example.logo_ext
                       (Example.clock "1704110400.0") Example.stored) =
  mask_cache_buster (build_custom_epg Example.app_url Example.logo_ext
                       (Example.clock "1704114000.5") Example.stored) ∧
  build_custom_epg Example.app_url Example.logo_ext (Example.clock "1704110400.0") Example.stored =
  build_custom_epg Example.app_url Example.logo_ext
                   (fun k => Example.clock "1704110400.0" (S k)) Example.stored.
Proof.
  split.
  - apply (synthesis_idempotent Example.app_url Example.logo_ext
             (Example.clock "1704110400.0") (Example.clock "1704114000.5") Example.stored).
  - destruct (synthesis_idempotent Example.app_url Example.logo_ext
                (Example.clock "1704110400.0") (fun k => Example.clock "1704110400.0" (S k))
                Example.stored) as (_ & _ & Hsame).
    apply Hsame. intros k _. reflexivity.
Defined.

Lemma NoDup_fmap_inj {A B} (f : A → B) (l : list A) x y :
  NoDup (f <$> l) → x ∈ l → y ∈ l → f x = f y → x = y.
Proof.
  induction l as [|a l IH]; simpl; [by intros _ ?%elem_of_nil|].
  rewrite NoDup_cons, !elem_of_cons. intros [Ha Hl] [->|Hx] [->|Hy] Hxy; auto.
  - destruct Ha. rewrite Hxy. by apply list_elem_of_fmap_2.
  - destruct Ha. rewrite <- Hxy. by apply list_elem_of_fmap_2.
Qed.

Lemma filter_nil_Forall {A} (P : A → Prop) `{!∀ x, Decision (P x)} (l : list A) :
  Forall (fun x => ¬ P x) l → filter P l = [].
Proof.
  induction 1 as [|x l Hx _ IH]; [done|].
  rewrite filter_cons, decide_False by done. exact IH.
Qed.

Lemma mapping_gap_no_programmes d result :
  NoDup (EpgChannels.id <$> epg_channels d) →
  ¬ mapping_resolves d result →
  db_programmes_query d result = [].
Proof.
  intros Hids Hgap. unfold db_programmes_query.
  rewrite filter_nil_Forall; [done|].
  apply Forall_forall. intros p _ [H1 H2].
  unfold channel_has in H1, H2.
  apply Exists_exists in H1 as (c1 & Hc1 & Hid1 & Hepg).
  apply Exists_exists in H2 as (c2 & Hc2 & Hid2 & Hchannel).
  assert (c1 = c2) as <-.
  { apply (NoDup_fmap_inj EpgChannels.id (epg_channels d)); [done..|congruence]. }
  apply Hgap. apply Exists_exists. by exists c1.
Qed.

Lemma enabled_channels_enabled d c :
  c ∈ enabled_channels d → Channel.enabled c = true ∧ c ∈ channels d.
Proof.
  unfold enabled_channels. rewrite list_elem_of_In, List.filter_In, <- list_elem_of_In.
  rewrite (order_by_Permutation number_asc (channels d)). tauto.
Qed.

Lemma build_custom_epg_succeeds app_url logo_ext now d :
  (∀ c, c ∈ enabled_channels d → is_Some (Channel.name c)) →
  ∃ channel_elems,
    length channel_elems = length (enabled_channels d) ∧
    build_custom_epg app_url logo_ext now d =
    Ok (ET.elem "tv" [("generator-info-name", "TVH-IPTV-Config");
                      ("source-info-name", "TVH-IPTV-Config - v0.1")]
                None (channel_elems ++ programme_elems d)).
Proof.
  intros Hnames. unfold build_custom_epg.
  destruct (rmap_Forall_Ok channel_elem (configured_channels app_url logo_ext now d))
    as [es Hes].
  - unfold configured_channels. apply Forall_forall. intros info Hinfo.
    apply elem_of_lookup_imap_1 in Hinfo as (k & c & -> & Hc).
    apply list_elem_of_lookup_2 in Hc. destruct (Hnames c Hc) as [name Hname].
    unfold channel_elem. simpl. rewrite Hname. by eexists.
  - exists es. rewrite Hes. split; [|done].
    rewrite (rmap_Ok_length _ _ _ Hes). unfold configured_channels. apply length_imap.
Qed.

(** C6, as the code has it. An enabled output channel whose guide mapping
    does not resolve gets no programme: its query is empty, the programmes of
    the document are those of the other channels, and the build succeeds
    whenever the enabled channels have a name, whatever their mapping. A
    disabled channel is not among the channels of the document. The enabled
    channel without a mapping still has its [<channel>] element: there is one
    for every enabled channel. *)
Theorem mapping_gap_degrades app_url logo_ext now d before result after :
  NoDup (EpgChannels.id <$> epg_channels d) →
  enabled_channels d = before ++ result :: after →
  ¬ mapping_resolves d result →
  db_programmes_query d result = [] ∧
  programme_elems d =
    (other ← before; programme_elems_of d other) ++ (other ← after; programme_elems_of d other) ∧
  (∀ c, c ∈ channels d → Channel.enabled c = false → c ∉ enabled_channels d) ∧
  ((∀ c, c ∈ enabled_channels d → is_Some (Channel.name c)) →
   ∃ root channel_elems,
     build_custom_epg app_url logo_ext now d = Ok root ∧
     ET.children root = channel_elems ++ programme_elems d ∧
     (fun e => ET.get e "id") <$> channel_elems =
       (fun other => Some (Py.str_opt_int (Channel.number other))) <$> (before ++ result :: after)).
Proof.
  intros Hids Henabled Hgap.
  pose proof (mapping_gap_no_programmes d result Hids Hgap) as Hnone.
  split; [done|]. split; [|split].
  - rewrite programme_elems_unfold, Henabled, bind_app, bind_cons.
    unfold programme_elems_of at 2, channel_programme_elems, programmes_data. simpl.
    by rewrite Hnone.
  - intros c _ Hoff Hc. apply enabled_channels_enabled in Hc as [Hon _]. congruence.
  - intros Hnames.
    destruct (build_custom_epg_succeeds app_url logo_ext now d Hnames) as (es & _ & Hbuild).
    eexists. exists es. split; [exact Hbuild|]. split; [done|].
    apply build_custom_epg_Ok in Hbuild as (es' & Hes & [= ->%app_inv_tail]).
    rewrite (channel_elems_ids _ _ Hes), list_fmap_compose.
    by rewrite configured_channels_ids, <- list_fmap_compose, Henabled.
Qed.

(** The example of C6: channel 5 of [Example.stored] is enabled and has no
    guide mapping; the document has no programme for it and lists it. *)
Lemma mapping_gap_degrades_witness :
  db_programmes_query Example.stored Example.channel_5 = [] ∧
  programme_elems Example.stored = programme_elems_of Example.stored Example.channel_101 ∧
  ∃ root channel_elems,
    build_custom_epg Example.app_url Example.logo_ext (Example.clock "1704110400.0")
                     Example.stored = Ok root ∧
    ET.children root = channel_elems ++ programme_elems Example.stored ∧
    (fun e => ET.get e "id") <$> channel_elems = [Some "5"; Some "101"].
Proof.
  destruct (mapping_gap_degrades Example.app_url Example.logo_ext (Example.clock "1704110400.0")
              Example.stored [] Example.channel_5 [Example.channel_101])
    as (Hnone & Hprogrammes & _ & Hbuild).
  - apply (bool_decide_unpack _). vm_compute. exact I.
  - reflexivity.
  - apply (bool_decide_unpack _). vm_compute. exact I.
  - split; [exact Hnone|]. split; [rewrite Hprogrammes; apply app_nil_r|].
    apply Hbuild. intros c Hc. apply (bool_decide_unpack _).
    revert c Hc. apply Forall_forall. apply (bool_decide_unpack _). vm_compute. exact I.
Defined.

(** The counterexample to C6 as stated: the enabled channel 5, which has no
    guide mapping, is not left out of the document. *)
Lemma unmapped_channel_is_listed :
  Channel.enabled Example.channel_5 = true ∧
  Channel.guide_id Example.channel_5 = None ∧
  Channel.guide_channel_id Example.channel_5 = None ∧
  ∃ root,
    build_custom_epg Example.app_url Example.logo_ext (Example.clock "1704110400.0")
                     Example.stored = Ok root ∧
    (fun e => ET.get e "id") <$> ET.findall root "channel" = [Some "5"; Some "101"].
Proof. repeat split. eexists. split; reflexivity. Qed.

(** C10. The [<episode-num>] child of a synthesized programme is there
    exactly when the stored system and the stored value are both non-empty,
    and so is the [<rating>] child; ingestion stores the text of an
    [<episode-num>] that has no [system] attribute, with a NULL system, and
    the programme is then synthesized without an [<episode-num>]. *)
Theorem paired_system_value_elements channel tags :
  (∀ p,
     is_Some (ET.find (programme_elem channel tags p) "episode-num") ↔
     Py.truthy (EpgChannelProgrammes.episode_num_system p) = true ∧
     Py.truthy (EpgChannelProgrammes.episode_num_value p) = true) ∧
  (∀ p,
     is_Some (ET.find (programme_elem channel tags p) "rating") ↔
     Py.truthy (EpgChannelProgrammes.rating_system p) = true ∧
     Py.truthy (EpgChannelProgrammes.rating_value p) = true) ∧
  (∀ epg_channel_id channel_id programme episode_num value r,
     ET.find programme "episode-num" = Some episode_num →
     ET.get episode_num "system" = None →
     ET.text episode_num = Some value →
     programme_row epg_channel_id channel_id programme = Ok r →
     EpgChannelProgrammes.episode_num_system r = None ∧
     EpgChannelProgrammes.episode_num_value r = Some value ∧
     ET.find (programme_elem channel tags r) "episode-num" = None).
Proof.
  split; [|split].
  - intros p. unfold ET.find. rewrite findall_episode_num.
    destruct (EpgChannelProgrammes.episode_num_system p) as [[|??]|],
             (EpgChannelProgrammes.episode_num_value p) as [[|??]|]; simpl;
      split; try (by intros [? [=]]); try (by intros [[=] [=]]); by eauto.
  - intros p. unfold ET.find. rewrite findall_rating.
    destruct (EpgChannelProgrammes.rating_system p) as [[|??]|],
             (EpgChannelProgrammes.rating_value p) as [[|??]|]; simpl;
      split; try (by intros [? [=]]); try (by intros [[=] [=]]); by eauto.
  - intros epg_channel_id channel_id programme episode_num value r Hfind Hsystem Htext Hrow.
    assert (EpgChannelProgrammes.episode_num_system r = None ∧
            EpgChannelProgrammes.episode_num_value r = Some value) as [Hs Hv].
    { unfold programme_row in Hrow. rewrite Hfind in Hrow. simpl in Hrow.
      rewrite Hsystem, Htext in Hrow.
      destruct (child_is_yes _ "present"); simpl in Hrow; [|done].
      destruct (child_is_yes _ "colour"); simpl in Hrow; [|done].
      destruct (child_is_yes _ "present"); simpl in Hrow; [|done].
      by injection Hrow as <-. }
    split; [done|]. split; [done|].
    unfold ET.find. by rewrite findall_episode_num, Hs.
Qed.

(** The example of C10: the programme of [Example.guide]. *)
Lemma paired_system_value_elements_witness :
  ∃ r,
    programme_row 1 (Some "ch1") Example.news_programme = Ok r ∧
    EpgChannelProgrammes.episode_num_system r = None ∧
    EpgChannelProgrammes.episode_num_value r = Some "S1E2" ∧
    ET.find (programme_elem "101" [] r) "episode-num" = None.
Proof.
  destruct (programme_row 1 (Some "ch1") Example.news_programme) as [r|] eqn:E;
    [|by vm_compute in E].
  exists r. split; [done|].
  destruct (paired_system_value_elements "101" []) as (_ & _ & H).
  apply (H 1 (Some "ch1") Example.news_programme (Example.text_node "episode-num" "S1E2") "S1E2");
    [reflexivity..|exact E].
Defined.

(** ** Enrichment: what a batch can do is what its coroutines can do *)

Lemma continues_refl {A} (c : coroutine A) : continues c c.
Proof. by split. Qed.

Lemma loop_of_park {A} (coroutines : list (coroutine A)) i c0 t c n ws s :
  coroutines !! i = Some c0 → task_of c0 t → loop_of coroutines s →
  loop_of coroutines (mkLoop c n ws (<[i := t]> (l_tasks s)) (l_calls s)).
Proof.
  intros Hi Ht [Htasks Hcalls]. split; simpl; [|done].
  rewrite <- (list_insert_id coroutines i c0 Hi). by apply Forall2_insert.
Qed.

Lemma loop_of_release {A} (coroutines : list (coroutine A)) s :
  loop_of coroutines s → loop_of coroutines (release s).
Proof.
  intros [Htasks Hcalls]. unfold release.
  destruct (l_waiters s) as [|w ws]; [by split|].
  split; simpl; [|done].
  destruct (l_tasks s !! w) as [[c|k|k|k|a]|] eqn:Hw; try done.
  destruct (Forall2_lookup_r _ _ _ _ _ Htasks Hw) as (c0 & Hc0 & Hk).
  rewrite <- (list_insert_id coroutines w c0 Hc0). by apply Forall2_insert.
Qed.

Lemma loop_of_run {A} (coroutines : list (coroutine A)) i c0 c s :
  coroutines !! i = Some c0 → continues c0 c → loop_of coroutines s →
  loop_of coroutines (run i c s).
Proof.
  intros Hi. revert s.
  induction c as [a|k IH|k IH|k IH|f k IH|api_key title k IH|title k IH];
    intros s [Hret Hsend] Hs; simpl.
  - apply (loop_of_park _ _ c0); [done| |done]. apply Hret. constructor.
  - destruct (l_permits s) as [|n].
    + apply (loop_of_park coroutines i c0 (Queued k) (l_cache s) 0%nat (l_waiters s ++ [i])
               (mkLoop (l_cache s) 0%nat (l_waiters s ++ [i]) (l_tasks s) (l_calls s)));
        [done| |by destruct Hs].
      split; intros; [apply Hret|apply Hsend]; by constructor.
    + apply IH; [|by destruct Hs].
      split; intros; [apply Hret|apply Hsend]; by constructor.
  - apply IH; [|by apply loop_of_release].
    split; intros; [apply Hret|apply Hsend]; by constructor.
  - apply IH; [|done].
    split; intros; [apply Hret|apply Hsend]; by econstructor.
  - apply IH; [|by destruct Hs].
    split; intros; [apply Hret|apply Hsend]; by constructor.
  - apply (loop_of_park coroutines i c0 (AwaitTmdb k) (l_cache s) (l_permits s) (l_waiters s)
             (mkLoop (l_cache s) (l_permits s) (l_waiters s) (l_tasks s)
                     (l_calls s ++ [TmdbSearch api_key title]))); [done|by eexists _, _|].
    destruct Hs as [Htasks Hcalls]. split; [done|]. simpl.
    intros r [Hr|Hr%list_elem_of_singleton]%elem_of_app; [by apply Hcalls|subst r].
    exists c0. split; [by eapply list_elem_of_lookup_2|]. apply Hsend. constructor.
  - apply (loop_of_park coroutines i c0 (AwaitGoogle k) (l_cache s) (l_permits s) (l_waiters s)
             (mkLoop (l_cache s) (l_permits s) (l_waiters s) (l_tasks s)
                     (l_calls s ++ [GoogleSearch title]))); [done|by eexists|].
    destruct Hs as [Htasks Hcalls]. split; [done|]. simpl.
    intros r [Hr|Hr%list_elem_of_singleton]%elem_of_app; [by apply Hcalls|subst r].
    exists c0. split; [by eapply list_elem_of_lookup_2|]. apply Hsend. constructor.
Qed.

Lemma loop_of_step {A} (coroutines : list (coroutine A)) s ev :
  loop_of coroutines s → loop_of coroutines (step s ev).
Proof.
  intros Hs. destruct ev as [i response|i response|i]; simpl;
    destruct (l_tasks s !! i) as [[c|k|k|k|a]|] eqn:Hi; try done;
    destruct (Forall2_lookup_r _ _ _ _ _ (proj1 Hs) Hi) as (c0 & Hc0 & Ht); simpl in Ht.
  - destruct Ht as (api_key & title & Hret & Hsend).
    apply (loop_of_run _ _ c0); [done| |done].
    split; intros; [apply Hret|apply Hsend]; by econstructor.
  - destruct Ht as (title & Hret & Hsend).
    apply (loop_of_run _ _ c0); [done| |done].
    split; intros; [apply Hret|apply Hsend]; by econstructor.
  - by apply (loop_of_run _ _ c0).
Qed.

Lemma loop_of_foldl_step {A} (coroutines : list (coroutine A)) s events :
  loop_of coroutines s → loop_of coroutines (foldl step s events).
Proof.
  revert s. induction events as [|ev events IH]; intros s Hs; simpl; [done|].
  by apply IH, loop_of_step.
Qed.

Lemma loop_of_start {A} (coroutines : list (coroutine A)) s :
  loop_of coroutines s → loop_of coroutines (start s).
Proof.
  unfold start. generalize (seq 0 (length (l_tasks s))). intros l. revert s.
  induction l as [|i l IH]; intros s Hs; simpl; [done|].
  by apply IH, (loop_of_step _ _ (Resume i)).
Qed.

(** The results of a batch are results of its coroutines, and every request
    it sent is one a coroutine of the batch can send. *)
Lemma gather_sound {A} (coroutines : list (coroutine A)) c events results c' calls :
  gather coroutines c events = Some (results, c', calls) →
  Forall2 returns coroutines results ∧
  ∀ r, r ∈ calls → ∃ c0, c0 ∈ coroutines ∧ sends c0 r.
Proof.
  unfold gather.
  set (s := foldl step (start (mkLoop c 10%nat [] (Ready <$> coroutines) [])) events).
  assert (loop_of coroutines s) as [Htasks Hcalls].
  { apply loop_of_foldl_step, loop_of_start. split; simpl.
    - apply Forall2_fmap_r, Forall_Forall2_diag, Forall_forall. intros. apply continues_refl.
    - by intros r ?%elem_of_nil. }
  destruct (gathered s) as [results'|] eqn:Hg; [|done]. intros [= ? ? ?]. subst results c' calls.
  split; [|done].
  apply mapM_Some_1 in Hg.
  clear Hcalls. revert results' Hg. induction Htasks as [|c0 t cs ts Ht _ IH];
    intros results' Hg; inversion Hg as [|? a ? results'' Ha Hrest]; subst; [constructor|].
  constructor; [|by apply IH]. destruct t; simplify_eq/=; done.
Qed.

(** *** The coroutines of the stage *)

Lemma returns_cbind {A B} (c : coroutine A) (f : A → coroutine B) b :
  returns (cbind c f) b → ∃ a, returns c a ∧ returns (f a) b.
Proof.
  induction c as [a|k IH|k IH|k IH|g k IH|api_key title k IH|title k IH]; simpl.
  - intros H. exists a. split; [constructor|done].
  - inversion 1 as [|? ? Hk| | | | |]; subst. destruct (IH Hk) as (a & ? & ?).
    exists a. split; [by constructor|done].
  - inversion 1 as [| |? ? Hk| | | |]; subst. destruct (IH Hk) as (a & ? & ?).
    exists a. split; [by constructor|done].
  - inversion 1 as [| | |? c ? Hk| | |]; subst. destruct (IH c Hk) as (a & ? & ?).
    exists a. split; [by econstructor|done].
  - inversion 1 as [| | | |? ? ? Hk| |]; subst. destruct (IH Hk) as (a & ? & ?).
    exists a. split; [by constructor|done].
  - inversion 1 as [| | | | |? ? ? r ? Hk|]; subst. destruct (IH r Hk) as (a & ? & ?).
    exists a. split; [by econstructor|done].
  - inversion 1 as [| | | | | |? ? r ? Hk]; subst. destruct (IH r Hk) as (a & ? & ?).
    exists a. split; [by econstructor|done].
Qed.

Lemma sends_cbind {A B} (c : coroutine A) (f : A → coroutine B) r :
  sends (cbind c f) r → sends c r ∨ ∃ a, returns c a ∧ sends (f a) r.
Proof.
  induction c as [a|k IH|k IH|k IH|g k IH|api_key title k IH|title k IH]; simpl.
  - intros H. right. exists a. split; [constructor|done].
  - inversion 1 as [| |? ? Hk| | | | |]; subst.
    destruct (IH Hk) as [?|(a & ? & ?)]; [left; by constructor|right].
    exists a. split; [by constructor|done].
  - inversion 1 as [| | |? ? Hk| | | |]; subst.
    destruct (IH Hk) as [?|(a & ? & ?)]; [left; by constructor|right].
    exists a. split; [by constructor|done].
  - inversion 1 as [| | | |? c ? Hk| | |]; subst.
    destruct (IH c Hk) as [?|(a & ? & ?)]; [left; by econstructor|right].
    exists a. split; [by econstructor|done].
  - inversion 1 as [| | | | |? ? ? Hk| |]; subst.
    destruct (IH Hk) as [?|(a & ? & ?)]; [left; by constructor|right].
    exists a. split; [by constructor|done].
  - inversion 1 as [| | | | | |? ? ? resp ? Hk|]; subst; [left; constructor|].
    destruct (IH resp Hk) as [?|(a & ? & ?)]; [left; by econstructor|right].
    exists a. split; [by econstructor|done].
  - inversion 1 as [| | | | | | |? ? resp ? Hk]; subst; [left; constructor|].
    destruct (IH resp Hk) as [?|(a & ? & ?)]; [left; by econstructor|right].
    exists a. split; [by econstructor|done].
Qed.

Ltac invert_sends :=
  repeat match goal with
    | H : sends (Return _) _ |- _ => by inversion H
    | H : sends (AcquireSemaphore _) _ |- _ => inversion H; clear H; subst
    | H : sends (ReleaseSemaphore _) _ |- _ => inversion H; clear H; subst
    | H : sends (ReadCache _) _ |- _ => inversion H; clear H; subst
    | H : sends (WriteCache _ _) _ |- _ => inversion H; clear H; subst
    | H : sends (GetTmdb _ _ _) _ |- _ => inversion H; clear H; subst
    | H : sends (GetGoogle _ _) _ |- _ => inversion H; clear H; subst
    | H : sends (cbind _ _) _ |- _ => apply sends_cbind in H as [H|(? & _ & H)]
    | H : sends (match ?x with _ => _ end) _ |- _ => destruct x
    end.

Lemma sends_search_tmdb_for_movie api_key title r :
  sends (search_tmdb_for_movie api_key title) r → r = TmdbSearch api_key title.
Proof.
  unfold search_tmdb_for_movie, with_semaphore. intros H. by invert_sends.
Qed.

Lemma sends_search_google_images title r :
  sends (search_google_images title) r → r = GoogleSearch title.
Proof.
  unfold search_google_images, with_semaphore. intros H. by invert_sends.
Qed.

Lemma lacks_all_icon_url p :
  lacks_all p = true → Py.truthy (EpgChannelProgrammes.icon_url p) = false.
Proof.
  unfold lacks_all.
  destruct (Py.truthy (EpgChannelProgrammes.sub_title p)),
           (Py.truthy (EpgChannelProgrammes.desc p)),
           (Py.truthy (EpgChannelProgrammes.icon_url p)); done.
Qed.

Lemma apply_tmdb_data_icon_url tmdb_data p :
  lacks_all p = true →
  Py.truthy (EpgChannelProgrammes.icon_url (apply_tmdb_data tmdb_data p)) = true.
Proof.
  intros Hp. apply lacks_all_icon_url in Hp. destruct p. unfold apply_tmdb_data.
  cbn [EpgChannelProgrammes.sub_title EpgChannelProgrammes.desc EpgChannelProgrammes.icon_url
       EpgChannelProgrammes.set_sub_title EpgChannelProgrammes.set_desc
       EpgChannelProgrammes.set_icon_url] in *.
  repeat match goal with
    | |- context [if ?b then _ else _] => destruct b eqn:?
    end;
    cbn [EpgChannelProgrammes.sub_title EpgChannelProgrammes.desc EpgChannelProgrammes.icon_url
         EpgChannelProgrammes.set_sub_title EpgChannelProgrammes.set_desc
         EpgChannelProgrammes.set_icon_url] in *; try congruence; reflexivity.
Qed.

Ltac programme_fields :=
  cbn [EpgChannelProgrammes.sub_title EpgChannelProgrammes.desc EpgChannelProgrammes.icon_url
       EpgChannelProgrammes.title
       EpgChannelProgrammes.set_sub_title EpgChannelProgrammes.set_desc
       EpgChannelProgrammes.set_icon_url] in *.

Lemma apply_tmdb_data_title tmdb_data p :
  EpgChannelProgrammes.title (apply_tmdb_data tmdb_data p) = EpgChannelProgrammes.title p.
Proof.
  destruct p. unfold apply_tmdb_data. programme_fields.
  repeat match goal with
    | |- context [if ?b then _ else _] => destruct b eqn:?
    end; reflexivity.
Qed.

(** The assignments from a TMDB record touch the three fields only. *)
Lemma apply_tmdb_data_frame tmdb_data p :
  let p' := apply_tmdb_data tmdb_data p in
  p' = EpgChannelProgrammes.set_icon_url (EpgChannelProgrammes.icon_url p')
         (EpgChannelProgrammes.set_desc (EpgChannelProgrammes.desc p')
            (EpgChannelProgrammes.set_sub_title (EpgChannelProgrammes.sub_title p') p)).
Proof.
  destruct p. unfold apply_tmdb_data. programme_fields.
  repeat match goal with
    | |- context [if ?b then _ else _] => destruct b eqn:?
    end; reflexivity.
Qed.

(** What [update_programme_with_online_data] can leave of a programme: the
    programme itself, the programme with the assignments from a TMDB record,
    when it had none of the three fields, or the programme with an icon from
    the image search, when it had no icon. *)
Lemma returns_update_programme_with_online_data settings p p' e :
  returns (update_programme_with_online_data settings p) (p', e) →
  p' = p ∨
  (lacks_all p = true ∧ ∃ tmdb_data, p' = apply_tmdb_data tmdb_data p) ∨
  (Py.truthy (EpgChannelProgrammes.icon_url p) = false ∧
   ∃ image_url, p' = EpgChannelProgrammes.set_icon_url image_url p).
Proof.
  unfold update_programme_with_online_data. intros H.
  apply returns_cbind in H as ([p1 e1] & H1 & H2).
  assert (p1 = p ∨ (lacks_all p = true ∧ e1 = None ∧ ∃ tmdb_data, p1 = apply_tmdb_data tmdb_data p))
    as [->|(Hlacks & -> & tmdb_data & ->)].
  { destruct (lacks_all p && enable_tmdb_metadata settings) eqn:Hcand.
    - apply andb_prop in Hcand as [Hlacks _].
      apply returns_cbind in H1 as (r & _ & H1).
      destruct r as [[[|kv data]|]|]; inversion H1; subst; eauto 6.
    - inversion H1; subst; eauto. }
  - destruct e1; [inversion H2; subst; eauto|].
    destruct (negb (Py.truthy (EpgChannelProgrammes.icon_url p))
              && enable_google_image_search_metadata settings) eqn:Hicon;
      [|inversion H2; subst; eauto].
    apply andb_prop in Hicon as [Hicon%negb_true_iff _].
    apply returns_cbind in H2 as (r & _ & H2).
    destruct r as [image_url|]; [|inversion H2; subst; eauto].
    destruct (Py.truthy image_url); inversion H2; subst; eauto.
  - rewrite (apply_tmdb_data_icon_url tmdb_data p Hlacks) in H2. simpl in H2.
    inversion H2; subst. eauto.
Qed.

Lemma sends_update_programme_with_online_data settings p r :
  sends (update_programme_with_online_data settings p) r →
  (lacks_all p = true ∧ enable_tmdb_metadata settings = true ∧
   r = TmdbSearch (tmdb_api_key settings) (EpgChannelProgrammes.title p)) ∨
  (Py.truthy (EpgChannelProgrammes.icon_url p) = false ∧
   enable_google_image_search_metadata settings = true ∧
   r = GoogleSearch (EpgChannelProgrammes.title p)).
Proof.
  unfold update_programme_with_online_data. intros H.
  apply sends_cbind in H as [H|([p1 e1] & H1 & H2)].
  - destruct (lacks_all p && enable_tmdb_metadata settings) eqn:Hcand; [|by inversion H].
    apply andb_prop in Hcand as [Hlacks Hon]. left.
    apply sends_cbind in H as [H|(r' & _ & H)].
    + by apply sends_search_tmdb_for_movie in H.
    + destruct r' as [[[|??]|]|]; inversion H.
  - destruct e1; [by inversion H2|].
    assert (Py.truthy (EpgChannelProgrammes.icon_url p1) = false →
            Py.truthy (EpgChannelProgrammes.icon_url p) = false) as Hicon1.
    { assert (p1 = p ∨ (lacks_all p = true ∧ ∃ tmdb_data, p1 = apply_tmdb_data tmdb_data p))
        as [->|(Hlacks & tmdb_data & ->)]; [|done|].
      - destruct (lacks_all p && enable_tmdb_metadata settings) eqn:Hcand.
        + apply andb_prop in Hcand as [Hlacks _].
          apply returns_cbind in H1 as (r' & _ & H1).
          destruct r' as [[[|kv data]|]|]; inversion H1; subst; eauto.
        + inversion H1; subst; eauto.
      - by rewrite (apply_tmdb_data_icon_url tmdb_data p Hlacks). }
    destruct (negb (Py.truthy (EpgChannelProgrammes.icon_url p1))
              && enable_google_image_search_metadata settings) eqn:Hicon; [|by inversion H2].
    apply andb_prop in Hicon as [Hicon%negb_true_iff Hon]. right.
    apply sends_cbind in H2 as [H2|(r' & _ & H2)].
    + apply sends_search_google_images in H2. auto.
    + destruct r' as [image_url|]; [|by inversion H2].
      destruct (Py.truthy image_url); inversion H2.
Qed.

Lemma cached_tmdb_init c title : cached_tmdb (init_tmdb c) title = cached_tmdb c title.
Proof.
  destruct c as [[m|] g]; unfold cached_tmdb, init_tmdb; simpl; [done|apply lookup_empty].
Qed.



Lemma cached_google_images_init c title :
  cached_google_images (init_google_images c) title = cached_google_images c title.
Proof.
  destruct c as [m [g|]]; unfold cached_google_images, init_google_images; simpl;
    [done|apply lookup_empty].
Qed.






Lemma set_three_eta p :
  p = EpgChannelProgrammes.set_icon_url (EpgChannelProgrammes.icon_url p)
        (EpgChannelProgrammes.set_desc (EpgChannelProgrammes.desc p)
           (EpgChannelProgrammes.set_sub_title (EpgChannelProgrammes.sub_title p) p)).
Proof. by destruct p. Qed.

Lemma returns_update_wrapper settings p p' e :
  returns (update_wrapper settings p) (p', e) →
  p' = p ∨
  (lacks_all p = true ∧ ∃ tmdb_data, p' = apply_tmdb_data tmdb_data p) ∨
  (Py.truthy (EpgChannelProgrammes.icon_url p) = false ∧
   ∃ image_url, p' = EpgChannelProgrammes.set_icon_url image_url p).
Proof.
  unfold update_wrapper. destruct (EpgChannelProgrammes.categories p).
  - apply returns_update_programme_with_online_data.
  - inversion 1; subst. by left.
Qed.

Lemma sends_update_wrapper settings p r :
  sends (update_wrapper settings p) r →
  (lacks_all p = true ∧ enable_tmdb_metadata settings = true ∧
   r = TmdbSearch (tmdb_api_key settings) (EpgChannelProgrammes.title p)) ∨
  (Py.truthy (EpgChannelProgrammes.icon_url p) = false ∧
   enable_google_image_search_metadata settings = true ∧
   r = GoogleSearch (EpgChannelProgrammes.title p)).
Proof.
  unfold update_wrapper. destruct (EpgChannelProgrammes.categories p).
  - apply sends_update_programme_with_online_data.
  - inversion 1.
Qed.


(** *** What the tasks of a batch did *)














(** *** What the coroutines of the stage write, and what they do *)





















Lemma tmdb_data_fills_icon tmdb_data p :
  Py.truthy (EpgChannelProgrammes.icon_url (apply_tmdb_data tmdb_data p)) = true.
Proof.
  unfold apply_tmdb_data. cbv zeta.
  match goal with |- context [if Py.truthy (EpgChannelProgrammes.icon_url ?q) then _ else _] =>
    destruct (Py.truthy (EpgChannelProgrammes.icon_url q)) eqn:E end; [done|].
  by destruct p.
Qed.












(** ** Ingestion *)

Lemma filter_ext_in {A} (P Q : A → Prop) `{!∀ x, Decision (P x)} `{!∀ x, Decision (Q x)}
      (l : list A) :
  (∀ x, x ∈ l → P x ↔ Q x) → filter P l = filter Q l.
Proof.
  induction l as [|x l IH]; intros Hl; [done|].
  rewrite !filter_cons.
  rewrite IH by (intros y Hy; apply Hl; by right).
  destruct (decide (P x)) as [HP|HP], (decide (Q x)) as [HQ|HQ]; try done;
    destruct (Hl x (list_elem_of_here _ _)); tauto.
Qed.

Lemma filter_all_Forall {A} (P : A → Prop) `{!∀ x, Decision (P x)} (l : list A) :
  Forall P l → filter P l = l.
Proof.
  induction 1 as [|x l Hx _ IH]; [done|].
  rewrite filter_cons, decide_True by done. by f_equal.
Qed.

Lemma next_rowid_bound ids i : i ∈ ids → i < next_rowid ids.
Proof.
  unfold next_rowid. induction ids as [|j ids IH]; simpl; [by intros ?%elem_of_nil|].
  intros [->|Hi]%elem_of_cons; [lia|]. specialize (IH Hi). lia.
Qed.

(** *** Clearing a source *)

Lemma clear_epg_channel_data_Ok epg_id d :
  clear_epg_channel_data epg_id d = (cleared epg_id d, Ok tt).
Proof.
  unfold cleared, clear_epg_channel_data, transaction, bind, read, ret, write. simpl.
  by destruct (EpgChannels.id <$> filter _ (epg_channels d)).
Qed.

Lemma cleared_epgs epg_id d : epgs (cleared epg_id d) = epgs d.
Proof.
  unfold cleared, clear_epg_channel_data, transaction, bind, read, ret, write. simpl.
  by destruct (EpgChannels.id <$> filter _ (epg_channels d)).
Qed.

Lemma cleared_channels epg_id d : channels (cleared epg_id d) = channels d.
Proof.
  unfold cleared, clear_epg_channel_data, transaction, bind, read, ret, write. simpl.
  by destruct (EpgChannels.id <$> filter _ (epg_channels d)).
Qed.

(** The ids [clear_epg_channel_data] selects. *)
Lemma cleared_epg_channels epg_id d :
  epg_channels (cleared epg_id d) =
  filter (fun c => EpgChannels.id c ∉ EpgChannels.id <$> channels_of epg_id d) (epg_channels d).
Proof.
  unfold cleared, clear_epg_channel_data, transaction, bind, read, ret, write, channels_of.
  simpl. destruct (EpgChannels.id <$> filter _ (epg_channels d)) eqn:E; simpl; [|done].
  symmetry. apply filter_all_Forall, Forall_forall. intros c _. apply not_elem_of_nil.
Qed.

Lemma cleared_epg_channel_programmes epg_id d :
  epg_channel_programmes (cleared epg_id d) =
  filter (fun p => EpgChannelProgrammes.epg_channel_id p ∉ EpgChannels.id <$> channels_of epg_id d)
         (epg_channel_programmes d).
Proof.
  unfold cleared, clear_epg_channel_data, transaction, bind, read, ret, write, channels_of.
  simpl. destruct (EpgChannels.id <$> filter _ (epg_channels d)) eqn:E; simpl; [|done].
  symmetry. apply filter_all_Forall, Forall_forall. intros p _. apply not_elem_of_nil.
Qed.

Lemma cleared_no_channel epg_id d c :
  c ∈ epg_channels (cleared epg_id d) → EpgChannels.epg_id c ≠ epg_id.
Proof.
  rewrite cleared_epg_channels, list_elem_of_filter. intros [Hid Hc] Hepg.
  apply Hid. apply list_elem_of_fmap_2. unfold channels_of. by apply list_elem_of_filter.
Qed.

Lemma channels_of_cleared epg_id d : channels_of epg_id (cleared epg_id d) = [].
Proof.
  unfold channels_of. apply filter_nil_Forall, Forall_forall.
  intros c Hc. by apply (cleared_no_channel epg_id d).
Qed.

Lemma programmes_of_no_channel epg_id d :
  (∀ c, c ∈ epg_channels d → EpgChannels.epg_id c ≠ epg_id) → programmes_of epg_id d = [].
Proof.
  intros Hnone. unfold programmes_of. apply filter_nil_Forall, Forall_forall.
  intros p _ (c & Hc & _ & Hepg)%Exists_exists. by apply (Hnone c).
Qed.

Lemma programmes_of_cleared epg_id d : programmes_of epg_id (cleared epg_id d) = [].
Proof. apply programmes_of_no_channel. intros c. apply (cleared_no_channel epg_id d). Qed.

Lemma cleared_others epg_id d other :
  NoDup (EpgChannels.id <$> epg_channels d) → other ≠ epg_id →
  channels_of other (cleared epg_id d) = channels_of other d ∧
  programmes_of other (cleared epg_id d) = programmes_of other d.
Proof.
  intros Hids Hother.
  assert (∀ c, c ∈ epg_channels d → EpgChannels.epg_id c = other →
               EpgChannels.id c ∉ EpgChannels.id <$> channels_of epg_id d) as Hkept.
  { intros c Hc Hepg (c' & Hid & [Hepg' Hc']%list_elem_of_filter)%list_elem_of_fmap.
    assert (c = c') as <- by (by apply (NoDup_fmap_inj EpgChannels.id (epg_channels d))).
    congruence. }
  split.
  - unfold channels_of at 1 2. rewrite cleared_epg_channels, list_filter_filter.
    apply filter_ext_in. intros c Hc. split; [tauto|]. intros Hepg. split; [done|].
    by apply Hkept.
  - unfold programmes_of. rewrite cleared_epg_channel_programmes, list_filter_filter.
    apply filter_ext_in. intros p Hp. unfold channel_has. rewrite !Exists_exists. split.
    + intros [(c & Hc & Hid & Hepg) _]. exists c. split; [|done].
      rewrite cleared_epg_channels in Hc. by apply list_elem_of_filter in Hc as [_ ?].
    + intros (c & Hc & Hid & Hepg). split.
      * exists c. split; [|done]. rewrite cleared_epg_channels. apply list_elem_of_filter.
        split; [|done]. by apply Hkept.
      * rewrite <- Hid. by apply Hkept.
Qed.

(** *** Storing the channels and the programmes *)

Lemma store_epg_channels_Document root epg_id d :
  store_epg_channels (Some (Document root)) epg_id d =
  let kept := filter (fun c => EpgChannels.epg_id c ≠ epg_id) (epg_channels d) in
  match rmap (channel_item epg_id) (ET.iterfind root "channel") with
  | Ok items =>
      (set_epg_channels (kept ++ insert_channels (next_rowid (EpgChannels.id <$> kept)) items) d,
       Ok (Some (EpgChannels.channel_id <$> items)))
  | Raise e => (d, Raise e)
  end.
Proof.
  unfold store_epg_channels, transaction, bind, read, lift, write, ret. simpl.
  by destruct (rmap _ _).
Qed.

(** Flushing the rows in chunks stores the rows of the document, in their
    order. *)
Lemma save_programmes_rows channel_ids programmes flushed items :
  rbind (save_programmes channel_ids programmes flushed items)
        (fun '(flushed', items') => Ok (flushed' ++ items')) =
  rbind (rmap (programme_item channel_ids) programmes)
        (fun found => Ok (flushed ++ items ++ omap id found)).
Proof.
  revert flushed items. induction programmes as [|programme rest IH]; intros flushed items.
  - simpl. by rewrite app_nil_r.
  - simpl.
    assert (∃ flushed' items',
              (if (1000 <? length items)%nat then (flushed ++ items, []) else (flushed, items))
              = (flushed', items') ∧ flushed' ++ items' = flushed ++ items)
      as (flushed' & items' & -> & Heq).
    { destruct (1000 <? length items)%nat; eexists _, _; split; try done. by rewrite app_nil_r. }
    destruct (programme_item channel_ids programme) as [o|e]; simpl; [|done].
    rewrite IH. destruct (rmap (programme_item channel_ids) rest) as [found|e]; simpl; [|done].
    f_equal. destruct o as [r|]; simpl.
    + by rewrite <- !(assoc_L (++)), (assoc_L (++) flushed'), Heq, <- !(assoc_L (++)).
    + by rewrite (assoc_L (++) flushed'), Heq, <- !(assoc_L (++)).
Qed.

Lemma store_epg_programmes_Document root epg_id l d :
  store_epg_programmes (Some (Document root)) epg_id (Some l) d =
  match rbind (build_channel_ids d epg_id l ∅) (fun channel_ids => programme_rows channel_ids root) with
  | Ok rows =>
      (set_epg_channel_programmes
         (epg_channel_programmes d ++
          insert_programmes (next_rowid (EpgChannelProgrammes.id <$> epg_channel_programmes d)) rows)
         d, Ok tt)
  | Raise e => (d, Raise e)
  end.
Proof.
  unfold store_epg_programmes, transaction, bind, read, lift, write, ret, programme_rows. simpl.
  destruct (build_channel_ids d epg_id l ∅) as [channel_ids|e]; simpl; [|done].
  pose proof (save_programmes_rows channel_ids (ET.iterfind root "programme") [] []) as H.
  destruct (save_programmes channel_ids _ [] []) as [[flushed items]|e],
           (rmap (programme_item channel_ids) _) as [found|e']; simpl in *; try done.
  - by injection H as ->.
  - by injection H as ->.
Qed.

Lemma import_epg_data_unfold net epg_id d :
  import_epg_data net epg_id d =
  match head (filter (fun e => Epg.id e = epg_id) (epgs d)) with
  | None => (d, Raise KeyError)
  | Some epg =>
      match net (Epg.url epg) with
      | DownloadFailed => (d, Raise ClientError)
      | Downloaded file =>
          match store_epg_channels (Some file) epg_id (cleared epg_id d) with
          | (d2, Ok channel_id_list) => store_epg_programmes (Some file) epg_id channel_id_list d2
          | (d2, Raise e) => (d2, Raise e)
          end
      end
  end.
Proof.
  unfold import_epg_data, read_config_one_epg, download_xmltv_epg, bind, read, ret, lift, raise.
  destruct (head _) as [epg|]; [|done].
  destruct (net (Epg.url epg)) as [|file]; [done|].
  rewrite clear_epg_channel_data_Ok.
  by destruct (store_epg_channels (Some file) epg_id (cleared epg_id d)) as [d2 [l|e]].
Qed.

(** *** The rows of a successful ingestion *)

Lemma insert_channels_fields next items :
  Forall2 (fun c item => EpgChannels.channel_id c = EpgChannels.channel_id item ∧
                         EpgChannels.epg_id c = EpgChannels.epg_id item ∧
                         next ≤ EpgChannels.id c)
          (insert_channels next items) items.
Proof.
  revert next. induction items as [|item items IH]; intros next; simpl; constructor.
  - repeat split; simpl; lia.
  - eapply Forall2_impl; [apply IH|]. simpl. intros c i (? & ? & ?). repeat split; [done..|lia].
Qed.

Lemma insert_programmes_fields next rows :
  Forall2 (fun p row => EpgChannelProgrammes.channel_id p = EpgChannelProgrammes.channel_id row ∧
                        EpgChannelProgrammes.epg_channel_id p =
                        EpgChannelProgrammes.epg_channel_id row)
          (insert_programmes next rows) rows.
Proof.
  revert next. induction rows as [|row rows IH]; intros next; simpl; constructor; [done|].
  apply IH.
Qed.

Lemma channel_item_fields epg_id channel item :
  channel_item epg_id channel = Ok item →
  EpgChannels.channel_id item = ET.get channel "id" ∧ EpgChannels.epg_id item = epg_id.
Proof.
  unfold channel_item. destruct (ET.find channel "display-name"); [|done].
  by intros [= <-].
Qed.

Lemma channel_items_declared epg_id root items :
  rmap (channel_item epg_id) (ET.iterfind root "channel") = Ok items →
  EpgChannels.channel_id <$> items = declared_channel_ids root ∧
  Forall (fun item => EpgChannels.epg_id item = epg_id) items.
Proof.
  unfold declared_channel_ids. intros H%rmap_Ok_Forall2.
  induction H as [|channel item l items Hitem%channel_item_fields _ [IH1 IH2]];
    [by split|].
  destruct Hitem as [Hid Hepg]. split; [simpl; by f_equal|by constructor].
Qed.

Lemma first_epg_channel_Some d epg_id channel_id c :
  first_epg_channel d epg_id channel_id = Some c →
  c ∈ epg_channels d ∧ EpgChannels.channel_id c = channel_id ∧ EpgChannels.epg_id c = epg_id.
Proof.
  unfold first_epg_channel. intros H%head_Some_elem_of.
  apply list_elem_of_filter in H. tauto.
Qed.


(** The dictionary of [store_epg_programmes] has the channel ids of the list
    as keys, each with the key of a row of the source with that id. *)
Lemma build_channel_ids_spec d epg_id l m m' :
  build_channel_ids d epg_id l m = Ok m' →
  (∀ k, is_Some (m !! k) ∨ k ∈ l → is_Some (m' !! k)) ∧
  (∀ k v, m' !! k = Some v →
          m !! k = Some v ∨
          (k ∈ l ∧ ∃ c, c ∈ epg_channels d ∧ EpgChannels.id c = v ∧
                        EpgChannels.channel_id c = k ∧ EpgChannels.epg_id c = epg_id)).
Proof.
  revert m. induction l as [|k0 l IH]; intros m; simpl.
  - intros [= <-]. split; [|by left]. intros k [?|?%elem_of_nil]; done.
  - destruct (first_epg_channel d epg_id k0) as [c|] eqn:Hc; [|done].
    intros [IH1 IH2]%IH. apply first_epg_channel_Some in Hc as (Hc & Hid & Hepg). split.
    + intros k [Hk|[->|Hk]%elem_of_cons]; apply IH1; auto.
      * left. destruct (decide (k0 = k)) as [->|]; [by rewrite lookup_insert_eq|].
        by rewrite lookup_insert_ne.
      * left. by rewrite lookup_insert_eq.
    + intros k v [Hm|(Hk & c' & ?)]%IH2.
      * destruct (decide (k0 = k)) as [->|Hne].
        -- rewrite lookup_insert_eq in Hm. injection Hm as <-.
           right. split; [by left|]. by exists c.
        -- rewrite lookup_insert_ne in Hm by done. by left.
      * right. split; [by right|]. by exists c'.
Qed.


Lemma programme_row_fields epg_channel_id channel_id programme r :
  programme_row epg_channel_id channel_id programme = Ok r →
  EpgChannelProgrammes.channel_id r = channel_id ∧
  EpgChannelProgrammes.epg_channel_id r = epg_channel_id.
Proof.
  unfold programme_row.
  destruct (child_is_yes _ "present"); simpl; [|done].
  destruct (child_is_yes _ "colour"); simpl; [|done].
  destruct (child_is_yes _ "present"); simpl; [|done].
  by intros [= <-].
Qed.

(** Whether a programme can be read does not depend on its channel. *)
Lemma programme_row_Ok epg_channel_id channel_id epg_channel_id' channel_id' programme :
  (∃ r, programme_row epg_channel_id channel_id programme = Ok r) →
  ∃ r, programme_row epg_channel_id' channel_id' programme = Ok r.
Proof.
  unfold programme_row.
  destruct (child_is_yes _ "present"); simpl; [|by intros [? [=]]].
  destruct (child_is_yes _ "colour"); simpl; [|by intros [? [=]]].
  destruct (child_is_yes _ "present"); simpl; [|by intros [? [=]]].
  intros _. by eexists.
Qed.

(** The rows of the programmes: one for each programme whose channel is a
    key of the dictionary, with that channel and the row the dictionary
    gives for it. *)
Lemma programme_rows_spec channel_ids programmes found :
  rmap (programme_item channel_ids) programmes = Ok found →
  EpgChannelProgrammes.channel_id <$> omap id found =
    filter (fun k => is_Some (channel_ids !! k))
           ((fun programme => ET.get programme "channel") <$> programmes) ∧
  Forall (fun r => channel_ids !! EpgChannelProgrammes.channel_id r =
                   Some (EpgChannelProgrammes.epg_channel_id r)) (omap id found).
Proof.
  intros H%rmap_Ok_Forall2.
  induction H as [|programme o l found Ho _ [IH1 IH2]]; [by split|].
  unfold programme_item in Ho. rewrite fmap_cons, filter_cons.
  destruct (channel_ids !! ET.get programme "channel") as [v|] eqn:Hv.
  - destruct (programme_row v _ programme) as [r|] eqn:Hr; [|done].
    injection Ho as <-. apply programme_row_fields in Hr as [Hr1 Hr2].
    rewrite decide_True by (by eexists).
    split; [simpl; f_equal; [exact Hr1|exact IH1]|]. constructor; [|done]. by rewrite Hr1, Hr2.
  - injection Ho as <-. rewrite decide_False by (by intros [? ?]). by split.
Qed.


Lemma build_channel_ids_ext d d' epg_id l m :
  epg_channels d = epg_channels d' →
  build_channel_ids d epg_id l m = build_channel_ids d' epg_id l m.
Proof.
  intros H. revert m. induction l as [|k l IH]; intros m; simpl; [done|].
  unfold first_epg_channel. rewrite H.
  destruct (head _); [|done]. apply IH.
Qed.

Lemma import_epg_data_Ok net epg_id d d' :
  import_epg_data net epg_id d = (d', Ok tt) ↔
  ∃ epg root items channel_ids rows,
    head (filter (fun e => Epg.id e = epg_id) (epgs d)) = Some epg ∧
    net (Epg.url epg) = Downloaded (Document root) ∧
    rmap (channel_item epg_id) (ET.iterfind root "channel") = Ok items ∧
    build_channel_ids (ingested epg_id d items []) epg_id (EpgChannels.channel_id <$> items) ∅
      = Ok channel_ids ∧
    programme_rows channel_ids root = Ok rows ∧
    d' = ingested epg_id d items rows.
Proof.
  rewrite import_epg_data_unfold. split.
  - destruct (head _) as [epg|]; [|done].
    destruct (net (Epg.url epg)) as [|[|root]] eqn:Hnet; [done|done|].
    rewrite store_epg_channels_Document. cbv zeta.
    destruct (rmap (channel_item epg_id) _) as [items|] eqn:Hitems; [|done].
    rewrite store_epg_programmes_Document.
    match goal with
    | |- context [build_channel_ids ?d2 _ _ _] =>
        rewrite (build_channel_ids_ext d2 (ingested epg_id d items [])) by done
    end.
    destruct (build_channel_ids _ _ _ _) as [channel_ids|] eqn:Hids; simpl; [|done].
    destruct (programme_rows channel_ids root) as [rows|] eqn:Hrows; [|done].
    intros [= <-]. exists epg, root, items, channel_ids, rows.
    repeat split; try done.
    unfold ingested, set_epg_channel_programmes, set_epg_channels. simpl.
    by rewrite cleared_epgs, cleared_channels.
  - intros (epg & root & items & channel_ids & rows & -> & -> & Hitems & Hids & Hrows & ->).
    rewrite store_epg_channels_Document. cbv zeta. rewrite Hitems.
    rewrite store_epg_programmes_Document.
    match goal with
    | |- context [build_channel_ids ?d2 _ _ _] =>
        rewrite (build_channel_ids_ext d2 (ingested epg_id d items [])) by done
    end.
    rewrite Hids. simpl. rewrite Hrows.
    unfold ingested, set_epg_channel_programmes, set_epg_channels. simpl.
    by rewrite cleared_epgs, cleared_channels.
Qed.

Lemma Forall2_elem_of_l {A B} (P : A → B → Prop) l k x :
  Forall2 P l k → x ∈ l → ∃ y, y ∈ k ∧ P x y.
Proof.
  induction 1 as [|a b l k Hab _ IH]; [by intros ?%elem_of_nil|].
  intros [->|Hx]%elem_of_cons; [exists b; split; [by left|done]|].
  destruct (IH Hx) as (y & ? & ?). exists y. split; [by right|done].
Qed.

Lemma kept_cleared epg_id d :
  filter (fun c => EpgChannels.epg_id c ≠ epg_id) (epg_channels (cleared epg_id d)) =
  epg_channels (cleared epg_id d).
Proof.
  apply filter_all_Forall, Forall_forall. intros c. apply cleared_no_channel.
Qed.

Lemma insert_channels_elem epg_id next items c :
  Forall (fun item => EpgChannels.epg_id item = epg_id) items →
  c ∈ insert_channels next items → EpgChannels.epg_id c = epg_id ∧ next ≤ EpgChannels.id c.
Proof.
  intros Hitems Hc.
  destruct (Forall2_elem_of_l _ _ _ _ (insert_channels_fields next items) Hc)
    as (item & Hitem & _ & Hepg & Hid).
  split; [|done]. rewrite Hepg. rewrite Forall_forall in Hitems. by apply Hitems.
Qed.

Lemma ingested_channels_of epg_id d items rows :
  Forall (fun item => EpgChannels.epg_id item = epg_id) items →
  channels_of epg_id (ingested epg_id d items rows) =
  insert_channels (next_rowid (EpgChannels.id <$> epg_channels (cleared epg_id d))) items.
Proof.
  intros Hitems. unfold channels_of, ingested. simpl. rewrite kept_cleared, filter_app.
  rewrite (filter_nil_Forall _ (epg_channels (cleared epg_id d))).
  - simpl. apply filter_all_Forall, Forall_forall. intros c Hc.
    by apply (insert_channels_elem epg_id) in Hc as [? _].
  - apply Forall_forall. intros c Hc Hepg. by apply (cleared_no_channel epg_id d c).
Qed.

(** A programme that stays refers to a channel that stays. *)
Lemma cleared_referential_integrity epg_id d :
  referential_integrity d → referential_integrity (cleared epg_id d).
Proof.
  intros Hd p. rewrite cleared_epg_channel_programmes, cleared_epg_channels.
  intros [Hp Hin]%list_elem_of_filter.
  apply Hd in Hin. apply list_elem_of_fmap in Hin as (c & Hid & Hc).
  apply list_elem_of_fmap. exists c. split; [done|].
  apply list_elem_of_filter. split; [by rewrite <- Hid|done].
Qed.

Section Ingested.
Variables (epg_id : Z) (d : database) (items : list EpgChannels.row)
          (rows : list EpgChannelProgrammes.row).
Hypothesis d_integrity : referential_integrity d.
Hypothesis items_epg_id : Forall (fun item => EpgChannels.epg_id item = epg_id) items.
Hypothesis rows_channel :
  Forall (fun r => ∃ c, c ∈ epg_channels (ingested epg_id d items rows) ∧
                        EpgChannels.id c = EpgChannelProgrammes.epg_channel_id r ∧
                        EpgChannels.epg_id c = epg_id) rows.

Lemma ingested_new_programmes p :
  p ∈ insert_programmes
        (next_rowid (EpgChannelProgrammes.id <$> epg_channel_programmes (cleared epg_id d))) rows →
  channel_has (ingested epg_id d items rows) (fun c => EpgChannels.epg_id c = epg_id) p.
Proof.
  intros Hp.
  destruct (Forall2_elem_of_l _ _ _ _ (insert_programmes_fields _ rows) Hp)
    as (r & Hr & _ & Hid).
  rewrite Forall_forall in rows_channel. destruct (rows_channel r Hr) as (c & Hc & Hcid & Hepg).
  apply Exists_exists. exists c. split; [done|]. split; [congruence|done].
Qed.

Lemma ingested_old_programmes p :
  p ∈ epg_channel_programmes (cleared epg_id d) →
  ¬ channel_has (ingested epg_id d items rows) (fun c => EpgChannels.epg_id c = epg_id) p ∧
  EpgChannelProgrammes.epg_channel_id p ∈ EpgChannels.id <$> epg_channels (cleared epg_id d).
Proof.
  intros Hp.
  pose proof (cleared_referential_integrity epg_id d d_integrity p Hp) as Hin.
  split; [|done].
  intros (c & Hc & Hid & Hepg)%Exists_exists.
  unfold ingested in Hc. simpl in Hc. rewrite kept_cleared in Hc.
  apply elem_of_app in Hc as [Hc|Hc].
  - by apply (cleared_no_channel epg_id d c).
  - apply (insert_channels_elem epg_id) in Hc as [_ Hnew]; [|done].
    apply next_rowid_bound in Hin. lia.
Qed.


Lemma ingested_referential_integrity : referential_integrity (ingested epg_id d items rows).
Proof.
  intros p. unfold ingested at 1. simpl. intros [Hp|Hp]%elem_of_app.
  - apply ingested_old_programmes in Hp as [_ Hin].
    unfold ingested. simpl. rewrite kept_cleared, fmap_app. apply elem_of_app. by left.
  - apply ingested_new_programmes in Hp. apply Exists_exists in Hp as (c & Hc & Hid & _).
    apply list_elem_of_fmap. by exists c.
Qed.

End Ingested.

Lemma Forall2_elem_of_r {A B} (P : A → B → Prop) l k y :
  Forall2 P l k → y ∈ k → ∃ x, x ∈ l ∧ P x y.
Proof.
  induction 1 as [|a b l k Hab _ IH]; [by intros ?%elem_of_nil|].
  intros [->|Hy]%elem_of_cons; [exists a; split; [by left|done]|].
  destruct (IH Hy) as (x & ? & ?). exists x. split; [by right|done].
Qed.


Lemma programme_rows_Ok_inv channel_ids root rows :
  programme_rows channel_ids root = Ok rows →
  ∃ found, rmap (programme_item channel_ids) (ET.iterfind root "programme") = Ok found ∧
           rows = omap id found.
Proof.
  unfold programme_rows. destruct (rmap _ _) as [found|]; simpl; [|done].
  intros [= <-]. by exists found.
Qed.





Lemma example_referential_integrity : referential_integrity Example.stored.
Proof.
  unfold referential_integrity. apply Forall_forall.
  apply (bool_decide_unpack _). vm_compute. exact I.
Qed.



(** *** Failures *)

Lemma store_epg_channels_Raise file epg_id d d' e :
  store_epg_channels file epg_id d = (d', Raise e) → d' = d.
Proof.
  destruct file as [[|root]|].
  - by intros [= <- _].
  - rewrite store_epg_channels_Document. cbv zeta.
    destruct (rmap _ _); [done|]. by intros [= <- _].
  - done.
Qed.

Lemma store_epg_programmes_Raise file epg_id l d d' e :
  store_epg_programmes file epg_id l d = (d', Raise e) → d' = d.
Proof.
  destruct file as [[|root]|]; [by intros [= <- _]| |done].
  unfold store_epg_programmes, transaction.
  by destruct (bind _ _ d) as [d'' [[]|e']]; intros [= <- ?].
Qed.

Lemma ingested_no_rows epg_id d items :
  set_epg_channels
    (filter (fun c => EpgChannels.epg_id c ≠ epg_id) (epg_channels (cleared epg_id d)) ++
     insert_channels
       (next_rowid (EpgChannels.id <$>
                    filter (fun c => EpgChannels.epg_id c ≠ epg_id)
                           (epg_channels (cleared epg_id d)))) items)
    (cleared epg_id d) = ingested epg_id d items [].
Proof.
  unfold ingested, set_epg_channels. simpl.
  by rewrite cleared_epgs, cleared_channels, app_nil_r.
Qed.

(** *** What a failed ingestion leaves *)


Lemma NoDup_fmap_filter {A B} (f : A → B) (P : A → Prop) `{!∀ x, Decision (P x)} l :
  NoDup (f <$> l) → NoDup (f <$> filter P l).
Proof.
  induction l as [|x l IH]; [done|].
  rewrite fmap_cons, NoDup_cons. intros [Hx Hl]. rewrite filter_cons.
  destruct (decide (P x)); [|by apply IH].
  rewrite fmap_cons. apply NoDup_cons. split; [|by apply IH].
  intros (y & Hy & [_ Hin]%list_elem_of_filter)%list_elem_of_fmap.
  apply Hx. rewrite Hy. by apply list_elem_of_fmap_2.
Qed.

Lemma insert_channels_ids next items :
  EpgChannels.id <$> insert_channels next items = seqZ next (Z.of_nat (length items)).
Proof.
  revert next. induction items as [|item items IH]; intros next; [done|].
  cbn [insert_channels length fmap list_fmap]. rewrite Nat2Z.inj_succ, seqZ_cons by lia.
  cbn [EpgChannels.with_id EpgChannels.id]. f_equal.
  rewrite Z.pred_succ. replace (Z.succ next) with (next + 1) by lia. apply IH.
Qed.

Lemma cleared_NoDup epg_id d :
  NoDup (EpgChannels.id <$> epg_channels d) →
  NoDup (EpgChannels.id <$> epg_channels (cleared epg_id d)).
Proof. rewrite cleared_epg_channels. apply NoDup_fmap_filter. Qed.

Lemma ingested_epg_channels epg_id d items rows :
  epg_channels (ingested epg_id d items rows) =
  epg_channels (cleared epg_id d) ++
  insert_channels (next_rowid (EpgChannels.id <$> epg_channels (cleared epg_id d))) items.
Proof. unfold ingested. cbv zeta. cbn [epg_channels]. by rewrite kept_cleared. Qed.

Lemma ingested_epg_channel_programmes epg_id d items rows :
  epg_channel_programmes (ingested epg_id d items rows) =
  epg_channel_programmes (cleared epg_id d) ++
  insert_programmes
    (next_rowid (EpgChannelProgrammes.id <$> epg_channel_programmes (cleared epg_id d))) rows.
Proof. reflexivity. Qed.

Lemma ingested_NoDup epg_id d items rows :
  NoDup (EpgChannels.id <$> epg_channels d) →
  NoDup (EpgChannels.id <$> epg_channels (ingested epg_id d items rows)).
Proof.
  intros Hids. rewrite ingested_epg_channels, fmap_app.
  apply NoDup_app. split; [by apply cleared_NoDup|]. rewrite insert_channels_ids.
  split; [|apply NoDup_seqZ].
  intros i Hi%next_rowid_bound [Hnew _]%elem_of_seqZ. lia.
Qed.

Lemma ingested_others epg_id d items rows other :
  referential_integrity d →
  NoDup (EpgChannels.id <$> epg_channels d) →
  Forall (fun item => EpgChannels.epg_id item = epg_id) items →
  Forall (fun r => ∃ c, c ∈ epg_channels (ingested epg_id d items rows) ∧
                        EpgChannels.id c = EpgChannelProgrammes.epg_channel_id r ∧
                        EpgChannels.epg_id c = epg_id) rows →
  other ≠ epg_id →
  channels_of other (ingested epg_id d items rows) = channels_of other d ∧
  programmes_of other (ingested epg_id d items rows) = programmes_of other d.
Proof.
  intros Hd Hids Hitems Hrows Hother.
  destruct (cleared_others epg_id d other Hids Hother) as [<- <-].
  assert (∀ c, c ∈ insert_channels
                     (next_rowid (EpgChannels.id <$> epg_channels (cleared epg_id d))) items →
               EpgChannels.epg_id c ≠ other) as Hnew.
  { intros c [Hc _]%(insert_channels_elem epg_id); [congruence|done]. }
  split.
  - unfold channels_of. rewrite ingested_epg_channels, filter_app.
    rewrite (filter_nil_Forall _ (insert_channels _ _)); [by rewrite app_nil_r|].
    apply Forall_forall. exact Hnew.
  - unfold programmes_of. rewrite ingested_epg_channel_programmes, filter_app.
    rewrite (filter_nil_Forall _ (insert_programmes _ _)).
    + rewrite app_nil_r. apply filter_ext_in. intros p Hp.
      unfold channel_has. rewrite ingested_epg_channels, Exists_app.
      split; [|by left]. intros [Hc|(c & Hc & _ & Hepg)%Exists_exists]; [done|].
      by destruct (Hnew c Hc).
    + apply Forall_forall. intros p Hp (c' & Hc' & Hid' & Hepg')%Exists_exists.
      apply (ingested_new_programmes epg_id d items rows Hrows) in Hp.
      apply Exists_exists in Hp as (c & Hc & Hid & Hepg).
      assert (c = c') as <-; [|congruence].
      apply (NoDup_fmap_inj EpgChannels.id (epg_channels (ingested epg_id d items rows)));
        [by apply ingested_NoDup|done..|congruence].
Qed.










(** *** A batch of sources *)

Lemma import_each_app net before after d :
  import_each net (before ++ after) d =
  match import_each net before d with
  | (d1, Ok _) => import_each net after d1
  | (d1, Raise e) => (d1, Raise e)
  end.
Proof.
  revert d. induction before as [|epg_id before IH]; intros d; simpl; [done|].
  unfold bind. destruct (import_epg_data net epg_id d) as [d1 [[]|e]]; [apply IH|done].
Qed.

(** C4, as the code has it. [import_epg_data_for_all_epgs] ingests the
    sources one after the other, in the order of the table, and the first
    error ends the run: the sources before the failing one have been
    ingested, the failing one is as its own ingestion left it, and no source
    after it is ingested. Without an error every source is ingested. *)
Theorem batch_stops_at_first_failure net d before failing after d1 d2 e :
  Epg.id <$> epgs d = before ++ failing :: after →
  import_each net before d = (d1, Ok tt) →
  import_epg_data net failing d1 = (d2, Raise e) →
  import_epg_data_for_all_epgs net d = (d2, Raise e) ∧
  ∀ d3, import_epg_data_for_all_epgs net d ≠ (d3, Ok tt).
Proof.
  intros Hids Hbefore Hfailing.
  assert (import_epg_data_for_all_epgs net d = (d2, Raise e)) as Hrun.
  { unfold import_epg_data_for_all_epgs, bind, read. rewrite Hids, import_each_app, Hbefore.
    simpl. unfold bind. by rewrite Hfailing. }
  split; [done|]. intros d3. by rewrite Hrun.
Qed.

(** The example of C4: the first of the two sources of [Example.stored]
    cannot be reached. *)
Lemma batch_stops_at_first_failure_witness :
  import_epg_data_for_all_epgs IngestionExample.first_source_down Example.stored
  = (Example.stored, Raise ClientError).
Proof.
  apply (batch_stops_at_first_failure IngestionExample.first_source_down Example.stored
           [] 1 [2] Example.stored Example.stored ClientError); reflexivity.
Defined.

(** The counterexample to C4 as stated: with the first source down, the
    batch run ends with its error and the second source, whose ingestion on
    its own succeeds and stores a guide channel, is not ingested. *)
Lemma failed_source_aborts_batch :
  (∃ d',
     import_epg_data IngestionExample.first_source_down 2 Example.stored = (d', Ok tt) ∧
     EpgChannels.channel_id <$> channels_of 2 d' = [Some "ch1"]) ∧
  ∃ d',
    import_epg_data_for_all_epgs IngestionExample.first_source_down Example.stored
    = (d', Raise ClientError) ∧
    channels_of 2 d' = [].
Proof.
  split; eexists; (split; [vm_compute; reflexivity|reflexivity]).
Qed.

(** ** Editing the guide sources *)


Lemma read_config_one_epg_unfold epg_id d :
  read_config_one_epg epg_id d = (d, Ok (head (filter (fun e => Epg.id e = epg_id) (epgs d)))).
Proof. reflexivity. Qed.

(** X1. A source added with [add_new_epg] gets the next key of the table and
    is read back by [read_config_one_epg] as it was given; the sources that
    were there read as before, and no other table changes. Without a value
    for [enabled] nothing is added. *)
Theorem add_new_epg_read_back enabled name url d :
  let epg_id := next_rowid (Epg.id <$> epgs d) in
  let d' := (add_new_epg (mkEpgData (Some enabled) name url) d).1 in
  (add_new_epg (mkEpgData (Some enabled) name url) d).2 = None ∧
  read_config_one_epg epg_id d' = (d', Ok (Some (Epg.mk epg_id enabled name url))) ∧
  (∀ other, other ≠ epg_id →
            (read_config_one_epg other d').2 = (read_config_one_epg other d).2) ∧
  read_config_all_epgs false d' =
    read_config_all_epgs false d ++ [mkEpgConfig (Some epg_id) enabled name url] ∧
  epg_channels d' = epg_channels d ∧
  epg_channel_programmes d' = epg_channel_programmes d ∧
  channels d' = channels d ∧
  add_new_epg (mkEpgData None name url) d = (d, Some IntegrityError).
Proof.
  intros epg_id d'. subst d'. unfold add_new_epg.
  cbn [data_enabled data_name data_url fst snd].
  split; [done|]. split; [|split; [|split; [|done]]].
  - rewrite read_config_one_epg_unfold. simpl. do 2 f_equal.
    rewrite filter_app, filter_nil_Forall.
    + simpl. rewrite filter_cons, decide_True by done. done.
    + apply Forall_forall. intros e He Hid.
      assert (Epg.id e < epg_id) by (apply next_rowid_bound; by apply list_elem_of_fmap_2).
      lia.
  - intros other Hother. rewrite !read_config_one_epg_unfold. simpl. do 2 f_equal.
    rewrite filter_app, (filter_cons _ _ []), decide_False
      by (intros Heq; apply Hother; symmetry; exact Heq).
    by rewrite filter_nil, app_nil_r.
  - unfold read_config_all_epgs. simpl. by rewrite fmap_app.
Qed.

Lemma filter_singleton_id (l : list Epg.row) epg_id e :
  NoDup (Epg.id <$> l) → e ∈ l → Epg.id e = epg_id →
  filter (fun e => Epg.id e = epg_id) l = [e].
Proof.
  intros Hl He Hid. induction l as [|a l IH]; [by apply elem_of_nil in He|].
  rewrite fmap_cons, NoDup_cons in Hl. destruct Hl as [Ha Hl].
  rewrite filter_cons. apply elem_of_cons in He as [<-|He].
  - rewrite decide_True by done. f_equal. apply filter_nil_Forall, Forall_forall.
    intros b Hb Hbid. apply Ha. rewrite Hid, <- Hbid. by apply list_elem_of_fmap_2.
  - rewrite decide_False; [by apply IH|].
    intros Haid. apply Ha. rewrite Haid, <- Hid. by apply list_elem_of_fmap_2.
Qed.

Lemma filter_fmap_update (l : list Epg.row) epg_id (new : Epg.row → Epg.row) other :
  (∀ e, Epg.id (new e) = Epg.id e) →
  filter (fun e => Epg.id e = other)
         ((fun e => if decide (Epg.id e = epg_id) then new e else e) <$> l) =
  (fun e => if decide (Epg.id e = epg_id) then new e else e) <$>
    filter (fun e => Epg.id e = other) l.
Proof.
  intros Hnew. induction l as [|a l IH]; [done|].
  rewrite fmap_cons, !filter_cons, IH.
  destruct (decide (Epg.id a = epg_id)) as [Ha|Ha].
  - rewrite Hnew. destruct (decide (Epg.id a = other)); [|done].
    by rewrite fmap_cons, decide_True.
  - destruct (decide (Epg.id a = other)); [|done]. by rewrite fmap_cons, decide_False.
Qed.

(** X2. [update_epg] of a source that is not there raises [NoResultFound]
    and changes nothing. For a source that is there it succeeds when the
    data has a value for [enabled]: the source then reads back with the new
    data under its old key, the other sources read as before, and no other
    table changes; without a value for [enabled] it changes nothing. *)
Theorem update_epg_replaces epg_id data d :
  NoDup (Epg.id <$> epgs d) →
  (epg_id ∉ Epg.id <$> epgs d → update_epg epg_id data d = (d, Some NoResultFound)) ∧
  (epg_id ∈ Epg.id <$> epgs d →
   match data_enabled data with
   | None => update_epg epg_id data d = (d, Some IntegrityError)
   | Some enabled =>
       ∃ d',
         update_epg epg_id data d = (d', None) ∧
         read_config_one_epg epg_id d' =
           (d', Ok (Some (Epg.mk epg_id enabled (data_name data) (data_url data)))) ∧
         (∀ other, other ≠ epg_id →
                   (read_config_one_epg other d').2 = (read_config_one_epg other d).2) ∧
         Epg.id <$> epgs d' = Epg.id <$> epgs d ∧
         epg_channels d' = epg_channels d ∧
         epg_channel_programmes d' = epg_channel_programmes d ∧
         channels d' = channels d
   end).
Proof.
  intros Hids. split.
  - intros Hnew. unfold update_epg. rewrite filter_nil_Forall; [done|].
    apply Forall_forall. intros e He Hid. apply Hnew. rewrite <- Hid.
    by apply list_elem_of_fmap_2.
  - intros (e & Hid & He)%list_elem_of_fmap. symmetry in Hid.
    unfold update_epg. rewrite (filter_singleton_id _ _ e Hids He Hid).
    destruct (data_enabled data) as [enabled|]; [|done].
    eexists. split; [done|].
    set (new := fun e : Epg.row => Epg.mk (Epg.id e) enabled (data_name data) (data_url data)).
    assert (∀ e, Epg.id (new e) = Epg.id e) as Hnew by done.
    split; [|split; [|split; [|done]]].
    + rewrite read_config_one_epg_unfold. simpl. do 2 f_equal.
      rewrite (filter_fmap_update _ epg_id new epg_id Hnew).
      rewrite (filter_singleton_id _ _ e Hids He Hid). simpl.
      rewrite decide_True by done. unfold new. by rewrite Hid.
    + intros other Hother. rewrite !read_config_one_epg_unfold. simpl. do 2 f_equal.
      rewrite (filter_fmap_update _ epg_id new other Hnew).
      rewrite <- (list_fmap_id (filter _ (epgs d))) at 2.
      apply Forall_fmap_ext_1, Forall_forall. intros a [Ha _]%list_elem_of_filter.
      rewrite decide_False; [done|congruence].
    + simpl. rewrite <- list_fmap_compose. apply list_fmap_ext. intros i a _. simpl.
      by destruct (decide _).
Qed.

(** The example of X2: the first source of [Example.stored] is switched off
    and given another address. *)
Lemma update_epg_replaces_witness :
  ∃ d',
    update_epg 1 (mkEpgData (Some false) (Some "guide") (Some "http://one/new.xml"))
               Example.stored = (d', None) ∧
    read_config_one_epg 1 d' =
      (d', Ok (Some (Epg.mk 1 false (Some "guide") (Some "http://one/new.xml")))) ∧
    (read_config_one_epg 2 d').2 = Ok (Some (Example.source 2 "http://two/guide.xml")).
Proof.
  destruct (update_epg_replaces 1
              (mkEpgData (Some false) (Some "guide") (Some "http://one/new.xml")) Example.stored)
    as [_ H].
  - apply (bool_decide_unpack _). vm_compute. exact I.
  - destruct H as (d' & Hupdate & Hread & Hothers & _).
    + apply (bool_decide_unpack _). vm_compute. exact I.
    + exists d'. split; [exact Hupdate|]. split; [exact Hread|].
      rewrite (Hothers 2); [reflexivity|lia].
Defined.

Lemma string_app_nil (t : string) : "" +:+ t = t.
Proof. reflexivity. Qed.

Lemma string_app_cons c (s t : string) : String c s +:+ t = String c (s +:+ t).
Proof. reflexivity. Qed.

Lemma string_length_app (s t : string) :
  String.length (s +:+ t) = (String.length s + String.length t)%nat.
Proof.
  induction s as [|c s IH]; [done|]. rewrite string_app_cons. simpl. by rewrite IH.
Qed.

Lemma string_app_inj_suffix (s1 s2 a b : string) :
  String.length a = String.length b → s1 +:+ a = s2 +:+ b → s1 = s2 ∧ a = b.
Proof.
  intros Hlen. revert s2. induction s1 as [|c s1 IH]; intros [|c2 s2];
    rewrite ?string_app_nil, ?string_app_cons.
  - done.
  - intros ->. simpl in Hlen. rewrite string_length_app in Hlen. lia.
  - intros <-. simpl in Hlen. rewrite string_length_app in Hlen. lia.
  - intros [= -> H]. by destruct (IH _ H) as [-> ->].
Qed.

Lemma cached_names_inj epg_id other :
  other ≠ epg_id →
  cached_xml other ≠ cached_xml epg_id ∧ cached_xml other ≠ cached_yml epg_id ∧
  cached_yml other ≠ cached_xml epg_id ∧ cached_yml other ≠ cached_yml epg_id.
Proof.
  intros Hother. unfold cached_xml, cached_yml, Py.str_int.
  repeat split; intros [H1 H2]%string_app_inj_suffix; try done;
    by apply (inj pretty) in H1.
Qed.

Lemma delete_epg_unfold epg_id d files :
  delete_epg epg_id (d, files) =
  (set_epgs (filter (fun e => Epg.id e ≠ epg_id) (epgs d)) (cleared epg_id d),
   files ∖ {[cached_xml epg_id]} ∖ {[cached_yml epg_id]}).
Proof.
  unfold delete_epg. f_equal.
  unfold cleared, clear_epg_channel_data, transaction, bind, read, ret, write. simpl.
  by destruct (EpgChannels.id <$> filter _ (epg_channels d)).
Qed.

Lemma epgs_set_epgs l d : epgs (set_epgs l d) = l.
Proof. done. Qed.

Lemma channels_of_set_epgs l epg_id d : channels_of epg_id (set_epgs l d) = channels_of epg_id d.
Proof. done. Qed.

Lemma programmes_of_set_epgs l epg_id d :
  programmes_of epg_id (set_epgs l d) = programmes_of epg_id d.
Proof. done. Qed.

(** X3. [delete_epg] removes the source: its row is taken from the table of
    sources, its guide channels from the table of guide channels, and from
    the table of programmes every row that belongs to one of these guide
    channels; nothing else is taken from the three tables. The source is no
    longer read, it has no guide channel and no programme left, and its two
    cache files are gone. The other sources read as before and keep their
    cache files, the output channels are not touched, and, the keys of the
    guide channels being distinct, the other sources keep their guide
    channels and programmes. *)
Theorem delete_epg_removes_source epg_id d files :
  let d' := (delete_epg epg_id (d, files)).1 in
  let files' := (delete_epg epg_id (d, files)).2 in
  read_config_one_epg epg_id d' = (d', Ok None) ∧
  channels_of epg_id d' = [] ∧
  programmes_of epg_id d' = [] ∧
  (cached_xml epg_id ∉ files') ∧
  (cached_yml epg_id ∉ files') ∧
  channels d' = channels d ∧
  (∀ other, other ≠ epg_id →
     (read_config_one_epg other d').2 = (read_config_one_epg other d).2 ∧
     (cached_xml other ∈ files' ↔ cached_xml other ∈ files) ∧
     (cached_yml other ∈ files' ↔ cached_yml other ∈ files) ∧
     (NoDup (EpgChannels.id <$> epg_channels d) →
      channels_of other d' = channels_of other d ∧
      programmes_of other d' = programmes_of other d)) ∧
  epgs d' = filter (fun e => Epg.id e ≠ epg_id) (epgs d) ∧
  epg_channels d' =
    filter (fun c => EpgChannels.id c ∉ EpgChannels.id <$> channels_of epg_id d)
           (epg_channels d) ∧
  epg_channel_programmes d' =
    filter (fun p => EpgChannelProgrammes.epg_channel_id p
                     ∉ EpgChannels.id <$> channels_of epg_id d)
           (epg_channel_programmes d) ∧
  (∀ p c, p ∈ epg_channel_programmes d → c ∈ channels_of epg_id d →
          EpgChannelProgrammes.epg_channel_id p = EpgChannels.id c →
          p ∉ epg_channel_programmes d') ∧
  files' = files ∖ {[cached_xml epg_id]} ∖ {[cached_yml epg_id]}.
Proof.
  intros d' files'. subst d' files'. rewrite delete_epg_unfold. cbn [fst snd].
  split; [|split; [|split; [|split; [|split; [|split; [|split]]]]]].
  - rewrite read_config_one_epg_unfold. do 2 f_equal. rewrite epgs_set_epgs.
    rewrite list_filter_filter. rewrite filter_nil_Forall; [done|].
    apply Forall_forall. intros e _ [? ?]. done.
  - rewrite channels_of_set_epgs. apply channels_of_cleared.
  - rewrite programmes_of_set_epgs. apply programmes_of_cleared.
  - rewrite !elem_of_difference, !elem_of_singleton. tauto.
  - rewrite !elem_of_difference, !elem_of_singleton. tauto.
  - apply cleared_channels.
  - intros other Hother.
    destruct (cached_names_inj epg_id other Hother) as (? & ? & ? & ?).
    split; [|split; [|split]].
    + rewrite !read_config_one_epg_unfold. cbn [snd]. do 2 f_equal.
      rewrite epgs_set_epgs, list_filter_filter. apply filter_ext_in.
      intros e _. split; [tauto|]. intros He. split; [done|congruence].
    + rewrite !elem_of_difference, !elem_of_singleton. tauto.
    + rewrite !elem_of_difference, !elem_of_singleton. tauto.
    + intros Hids. rewrite channels_of_set_epgs, programmes_of_set_epgs.
      by apply cleared_others.
  - split; [apply epgs_set_epgs|].
    split; [exact (cleared_epg_channels epg_id d)|].
    split; [exact (cleared_epg_channel_programmes epg_id d)|].
    split; [|done].
    intros p c Hp Hc Hid.
    change (p ∉ epg_channel_programmes (cleared epg_id d)).
    rewrite cleared_epg_channel_programmes, list_elem_of_filter. intros [Hnot _].
    apply Hnot. rewrite Hid. by apply list_elem_of_fmap_2.
Qed.

Lemma db_programmes_query_set_epgs l d result :
  db_programmes_query (set_epgs l d) result = db_programmes_query d result.
Proof. done. Qed.

Lemma enabled_channels_set_epgs l d : enabled_channels (set_epgs l d) = enabled_channels d.
Proof. done. Qed.

Lemma db_programmes_query_cleared epg_id d result :
  NoDup (EpgChannels.id <$> epg_channels d) →
  db_programmes_query (cleared epg_id d) result =
  if decide (Channel.guide_id result = Some epg_id) then [] else db_programmes_query d result.
Proof.
  intros Hids. destruct (decide _) as [Hguide|Hguide].
  - unfold db_programmes_query. rewrite filter_nil_Forall; [done|].
    apply Forall_forall. intros p _ [(c & Hc & _ & Hepg)%Exists_exists _].
    apply (cleared_no_channel epg_id d c Hc). congruence.
  - unfold db_programmes_query. f_equal.
    rewrite cleared_epg_channel_programmes, list_filter_filter.
    assert (∀ c, c ∈ epg_channels d → Some (EpgChannels.epg_id c) = Channel.guide_id result →
                 EpgChannels.id c ∉ EpgChannels.id <$> channels_of epg_id d) as Hkept.
    { intros c Hc Hepg (c' & Hid & [Hepg' Hc']%list_elem_of_filter)%list_elem_of_fmap.
      assert (c = c') as <- by (by apply (NoDup_fmap_inj EpgChannels.id (epg_channels d))).
      congruence. }
    apply filter_ext_in. intros p Hp. unfold channel_has. rewrite !Exists_exists. split.
    + intros [[(c1 & Hc1 & Hid1 & Hepg) (c2 & Hc2 & Hid2 & Hch)] _].
      rewrite cleared_epg_channels in Hc1, Hc2.
      apply list_elem_of_filter in Hc1 as [_ Hc1]. apply list_elem_of_filter in Hc2 as [_ Hc2].
      split; [by exists c1|by exists c2].
    + intros [(c1 & Hc1 & Hid1 & Hepg) (c2 & Hc2 & Hid2 & Hch)].
      assert (c1 = c2) as <-.
      { apply (NoDup_fmap_inj EpgChannels.id (epg_channels d)); [done..|congruence]. }
      pose proof (Hkept c1 Hc1 Hepg) as Hc1'.
      assert (c1 ∈ epg_channels (cleared epg_id d)) as Hin.
      { rewrite cleared_epg_channels. by apply list_elem_of_filter. }
      split; [split; by exists c1|]. by rewrite <- Hid1.
Qed.

(** X4. After [delete_epg] the source can no longer be ingested:
    [import_epg_data] raises [KeyError] and changes nothing. The output
    channels that were mapped to the source stay: the merged guide lists the
    same channels as before, the channels of the source without a programme
    and the other channels with the programmes they had. *)
Theorem deleted_source_leaves_channels app_url logo_ext now net epg_id d files :
  NoDup (EpgChannels.id <$> epg_channels d) →
  let d' := (delete_epg epg_id (d, files)).1 in
  import_epg_data net epg_id d' = (d', Raise KeyError) ∧
  enabled_channels d' = enabled_channels d ∧
  (∀ result, Channel.guide_id result = Some epg_id → programme_elems_of d' result = []) ∧
  (∀ result, Channel.guide_id result ≠ Some epg_id →
             programme_elems_of d' result = programme_elems_of d result) ∧
  (∀ root,
     build_custom_epg app_url logo_ext now d = Ok root →
     ∃ channel_elems,
       ET.children root = channel_elems ++ programme_elems d ∧
       build_custom_epg app_url logo_ext now d' =
       Ok (ET.mkElement (ET.tag root) (ET.attrib root) (ET.text root)
             (channel_elems ++ programme_elems d'))).
Proof.
  intros Hids d'. subst d'. rewrite delete_epg_unfold. cbn [fst].
  split; [|split; [|split; [|split]]].
  - rewrite import_epg_data_unfold, epgs_set_epgs, list_filter_filter.
    rewrite filter_nil_Forall; [done|]. apply Forall_forall. by intros e _ [? ?].
  - rewrite enabled_channels_set_epgs. unfold enabled_channels. by rewrite cleared_channels.
  - intros result Hguide. unfold programme_elems_of, channel_programme_elems, programmes_data.
    simpl. rewrite db_programmes_query_set_epgs, db_programmes_query_cleared by done.
    by rewrite decide_True.
  - intros result Hguide. unfold programme_elems_of, channel_programme_elems, programmes_data.
    simpl. rewrite db_programmes_query_set_epgs, db_programmes_query_cleared by done.
    by rewrite decide_False.
  - intros root (es & Hes & ->)%build_custom_epg_Ok. exists es. split; [done|].
    unfold build_custom_epg.
    replace (configured_channels app_url logo_ext now
               (set_epgs (filter (fun e => Epg.id e ≠ epg_id) (epgs d)) (cleared epg_id d)))
      with (configured_channels app_url logo_ext now d).
    + by rewrite Hes.
    + unfold configured_channels. rewrite enabled_channels_set_epgs.
      unfold enabled_channels. by rewrite cleared_channels.
Qed.

(** The example of X4: the first source of [Example.stored] is deleted;
    channel 101, which was mapped to it, is still listed and has lost its
    programmes. *)
Lemma deleted_source_leaves_channels_witness :
  import_epg_data (IngestionExample.serves Example.guide) 1
                  (delete_epg 1 (Example.stored, ∅)).1
  = ((delete_epg 1 (Example.stored, ∅)).1, Raise KeyError) ∧
  enabled_channels (delete_epg 1 (Example.stored, ∅)).1 =
    [Example.channel_5; Example.channel_101] ∧
  length (programme_elems_of Example.stored Example.channel_101) = 2%nat ∧
  programme_elems_of (delete_epg 1 (Example.stored, ∅)).1 Example.channel_101 = [].
Proof.
  destruct (deleted_source_leaves_channels Example.app_url Example.logo_ext
              (Example.clock "1704110400.0") (IngestionExample.serves Example.guide)
              1 Example.stored ∅) as (Himport & Henabled & Hgone & _).
  - apply (bool_decide_unpack _). vm_compute. exact I.
  - split; [exact Himport|]. split; [rewrite Henabled; reflexivity|].
    split; [reflexivity|]. by apply Hgone.
Defined.

(** The entry of a guide channel in the lists of
    [read_channels_from_all_epgs]. *)
Lemma read_channels_from_all_epgs_lookup d epg_id :
  read_channels_from_all_epgs d !! epg_id =
  if decide (epg_id ∈ Epg.id <$> epgs d)
  then Some ((fun c => mkChannelInfo (EpgChannels.channel_id c) (EpgChannels.name c)
                                     (EpgChannels.icon_url c)) <$> channels_of epg_id d)
  else None.
Proof.
  unfold read_channels_from_all_epgs, channels_of.
  generalize (epg_channels d). intros table.
  induction (epgs d) as [|e l IH] using rev_ind.
  - rewrite decide_False by apply not_elem_of_nil. apply lookup_empty.
  - rewrite foldl_app. simpl. rewrite fmap_app. simpl.
    destruct (decide (Epg.id e = epg_id)) as [<-|Hne].
    + rewrite lookup_insert_eq, decide_True; [done|].
      apply elem_of_app. right. by left.
    + rewrite lookup_insert_ne by done. rewrite IH.
      destruct (decide (epg_id ∈ Epg.id <$> l)) as [Hin|Hin].
      * rewrite decide_True; [done|]. apply elem_of_app. by left.
      * rewrite decide_False; [done|].
        intros [?|?%list_elem_of_singleton]%elem_of_app; congruence.
Qed.

Lemma insert_channels_info next items :
  (fun c => mkChannelInfo (EpgChannels.channel_id c) (EpgChannels.name c)
                          (EpgChannels.icon_url c)) <$> insert_channels next items =
  (fun c => mkChannelInfo (EpgChannels.channel_id c) (EpgChannels.name c)
                          (EpgChannels.icon_url c)) <$> items.
Proof.
  revert next. induction items as [|item items IH]; intros next; simpl; [done|].
  f_equal. apply IH.
Qed.

(** X5. [read_channels_from_all_epgs] has an entry for every source, and no
    other. After a successful [import_epg_data] of a source, its entry lists
    the channel declarations of the document in their order: the [id]
    attribute, the text of [<display-name>], and the [src] of [<icon>],
    which is the empty string, not null, for a declaration without an icon
    or an icon without [src]. *)
Theorem imported_channels_are_listed net epg_id d d' :
  import_epg_data net epg_id d = (d', Ok tt) →
  (∀ other, is_Some (read_channels_from_all_epgs d' !! other) ↔ other ∈ Epg.id <$> epgs d) ∧
  ∃ epg root,
    head (filter (fun e => Epg.id e = epg_id) (epgs d)) = Some epg ∧
    net (Epg.url epg) = Downloaded (Document root) ∧
    read_channels_from_all_epgs d' !! epg_id =
    Some ((fun channel =>
             mkChannelInfo
               (ET.get channel "id")
               (display_name ← ET.find channel "display-name"; ET.text display_name)
               (Some (match ET.find channel "icon" with
                      | Some icon_elem => default "" (ET.get icon_elem "src")
                      | None => ""
                      end))) <$> ET.iterfind root "channel").
Proof.
  intros (epg & root & items & channel_ids & rows & Hepg & Hnet & Hitems & _ & _ & ->)
    %import_epg_data_Ok.
  split.
  - intros other. rewrite read_channels_from_all_epgs_lookup.
    unfold ingested at 1 2. cbn [epgs].
    destruct (decide (other ∈ Epg.id <$> epgs d)); split; try done;
      by intros [? [=]].
  - exists epg, root. split; [done|]. split; [done|].
    rewrite read_channels_from_all_epgs_lookup. rewrite decide_True.
    + f_equal. destruct (channel_items_declared _ _ _ Hitems) as [_ Hsource].
      rewrite (ingested_channels_of _ _ _ _ Hsource), insert_channels_info.
      apply rmap_Ok_Forall2 in Hitems. clear -Hitems.
      induction Hitems as [|channel item l items Hitem _ IH]; [done|].
      rewrite !fmap_cons. f_equal; [|exact IH].
      unfold channel_item in Hitem.
      destruct (ET.find channel "display-name") as [display_name|]; [|done].
      by injection Hitem as <-.
    + unfold ingested. cbn [epgs]. apply head_Some_elem_of in Hepg.
      apply list_elem_of_filter in Hepg as [<- Hepg]. by apply list_elem_of_fmap_2.
Qed.

(** The example of X5: the guide of the examples is ingested for the first
    source of [Example.stored]. *)
Lemma imported_channels_are_listed_witness :
  ∃ d',
    import_epg_data (IngestionExample.serves Example.guide) 1 Example.stored = (d', Ok tt) ∧
    read_channels_from_all_epgs d' !! 1 =
      Some [mkChannelInfo (Some "ch1") (Some "BBC One") (Some "")] ∧
    read_channels_from_all_epgs d' !! 2 = Some [] ∧
    read_channels_from_all_epgs d' !! 3 = None.
Proof.
  destruct (import_epg_data (IngestionExample.serves Example.guide) 1 Example.stored)
    as [d' [[]|e]] eqn:E; [|by vm_compute in E].
  destruct (imported_channels_are_listed _ _ _ _ E) as (_ & epg & root & Hepg & Hnet & Hlist).
  injection Hepg as <-. injection Hnet as <-.
  exists d'. split; [done|]. split; [exact Hlist|].
  vm_compute in E. injection E as <-. split; reflexivity.
Defined.

(** ** Settings *)

Section pyvalue_induction.

Variable P : pyvalue → Prop.
Hypothesis HNone : P PyNone.
Hypothesis HBool : ∀ b, P (PyBool b).
Hypothesis HInt : ∀ n, P (PyInt n).
Hypothesis HStr : ∀ s, P (PyStr s).
Hypothesis HList : ∀ l, Forall P l → P (PyList l).
Hypothesis HDict : ∀ items, Forall (fun kv => P kv.2) items → P (PyDict items).

Fixpoint pyvalue_induction (v : pyvalue) : P v :=
  match v with
  | PyNone => HNone
  | PyBool b => HBool b
  | PyInt n => HInt n
  | PyStr s => HStr s
  | PyList l =>
      HList l ((fix all (l : list pyvalue) : Forall P l :=
                  match l with
                  | [] => Forall_nil_2 P
                  | v :: l' => Forall_cons_2 P v l' (pyvalue_induction v) (all l')
                  end) l)
  | PyDict items =>
      HDict items ((fix all (l : list (string * pyvalue)) : Forall (fun kv => P kv.2) l :=
                      match l with
                      | [] => Forall_nil_2 _
                      | kv :: l' =>
                          Forall_cons_2 (fun kv => P kv.2) kv l' (pyvalue_induction kv.2) (all l')
                      end) items)
  end.

End pyvalue_induction.

(** *** Dictionaries *)

Lemma dict_get_None key d : Dict.get key d = None ↔ key ∉ d.*1.
Proof.
  induction d as [|[k v] d IH]; simpl.
  - split; [intros _; apply not_elem_of_nil|done].
  - rewrite not_elem_of_cons. destruct (String.eqb_spec k key) as [->|Hne].
    + split; [done|]. by intros [? _].
    + rewrite IH. split; [by split|by intros [_ ?]].
Qed.

Lemma dict_get_Some_elem key d v : Dict.get key d = Some v → (key, v) ∈ d.
Proof.
  induction d as [|[k v'] d IH]; simpl; [done|].
  destruct (String.eqb_spec k key) as [->|Hne].
  - intros [= ->]. by left.
  - intros H. right. by apply IH.
Qed.

Lemma dict_get_elem key d v : NoDup d.*1 → (key, v) ∈ d → Dict.get key d = Some v.
Proof.
  induction d as [|[k v'] d IH]; simpl; [by intros _ ?%elem_of_nil|].
  rewrite NoDup_cons. intros [Hk Hd] [[= -> ->]|Hin]%elem_of_cons.
  - by rewrite String.eqb_refl.
  - destruct (String.eqb_spec k key) as [->|Hne]; [|by apply IH].
    destruct Hk. by apply (list_elem_of_fmap_2 fst _ (key, v)).
Qed.

Lemma dict_get_set key v d : Dict.get key (Dict.set key v d) = Some v.
Proof.
  induction d as [|[k v'] d IH]; simpl.
  - by rewrite String.eqb_refl.
  - destruct (String.eqb_spec k key) as [->|Hne]; simpl.
    + by rewrite String.eqb_refl.
    + by destruct (String.eqb_spec k key).
Qed.

Lemma dict_get_set_ne key key' v d :
  key ≠ key' → Dict.get key' (Dict.set key v d) = Dict.get key' d.
Proof.
  intros Hne. induction d as [|[k v'] d IH]; simpl.
  - by destruct (String.eqb_spec key key').
  - destruct (String.eqb_spec k key) as [->|Hk]; simpl.
    + by destruct (String.eqb_spec key key').
    + by rewrite IH.
Qed.

Lemma dict_set_same key v d : Dict.get key d = Some v → Dict.set key v d = d.
Proof.
  induction d as [|[k v'] d IH]; simpl; [done|].
  destruct (String.eqb_spec k key) as [->|Hk].
  - by intros [= ->].
  - intros H. by rewrite IH.
Qed.

Lemma dict_set_keys key v d :
  (Dict.set key v d).*1 =
  match Dict.get key d with
  | Some _ => d.*1
  | None => d.*1 ++ [key]
  end.
Proof.
  induction d as [|[k v'] d IH]; [done|].
  cbn [Dict.set Dict.get].
  destruct (String.eqb_spec k key) as [->|Hk]; [done|].
  rewrite !fmap_cons, IH. by destruct (Dict.get key d).
Qed.

Lemma dict_get_is_Some key d : is_Some (Dict.get key d) ↔ key ∈ d.*1.
Proof.
  destruct (Dict.get key d) as [v|] eqn:H.
  - split; [intros _|by eauto]. destruct (decide (key ∈ d.*1)) as [|Hn]; [done|].
    apply dict_get_None in Hn. congruence.
  - split; [by intros [? [=]]|]. intros Hin. by apply dict_get_None in H.
Qed.

(** *** The loop of [recursive_dict_update] *)

Lemma recursive_dict_update_unfold defaults items :
  recursive_dict_update defaults (PyDict items) =
  update_items (fun child value => recursive_dict_update child value) items defaults.
Proof. reflexivity. Qed.

Section update_items.

Variable rec : pyvalue → pyvalue → pyvalue * option exn.

Lemma update_items_cons key value rest d :
  update_items rec ((key, value) :: rest) (PyDict d) =
  match value, Dict.get key d with
  | PyDict _, Some child =>
      match rec child value with
      | (child', None) => update_items rec rest (PyDict (Dict.set key child' d))
      | (child', Some e) => (PyDict (Dict.set key child' d), Some e)
      end
  | _, _ => update_items rec rest (PyDict (Dict.set key value d))
  end.
Proof. reflexivity. Qed.

(** What the loop leaves when it comes to its end: the keys that were
    there, in their order, followed by the new keys; the entries of the keys
    the updates do not have, as they were; and for a key of the updates the
    value of the updates, or the merged mapping. *)
Lemma update_items_Ok items cur r :
  NoDup items.*1 →
  update_items rec items (PyDict cur) = (r, None) →
  ∃ r', r = PyDict r' ∧
    r'.*1 = cur.*1 ++ filter (fun k => k ∉ cur.*1) items.*1 ∧
    (∀ k, k ∉ items.*1 → Dict.get k r' = Dict.get k cur) ∧
    (∀ k m child, (k, PyDict m) ∈ items → Dict.get k cur = Some child →
                  (rec child (PyDict m)).2 = None ∧
                  Dict.get k r' = Some (rec child (PyDict m)).1) ∧
    (∀ k v, (k, v) ∈ items → is_dict v = false ∨ Dict.get k cur = None →
            Dict.get k r' = Some v).
Proof.
  revert cur. induction items as [|[key value] rest IH]; intros cur Hkeys.
  - intros [= <-]. exists cur. split; [done|]. split; [by rewrite app_nil_r|].
    split; [done|]. split; [by intros ??? ?%elem_of_nil|by intros ?? ?%elem_of_nil].
  - rewrite fmap_cons, NoDup_cons in Hkeys. destruct Hkeys as [Hkey Hrest]. simpl in Hkey.
    rewrite update_items_cons.
    assert (∀ x, (∃ child, value = PyDict child ∧ is_Some (Dict.get key cur) ∧
                           Dict.get key cur ≫= (fun child => Some (rec child value).1) = Some x ∧
                           Dict.get key cur ≫= (fun child => Some (rec child value).2) = Some None)
                 ∨ ((is_dict value = false ∨ Dict.get key cur = None) ∧ x = value) →
                 update_items rec rest (PyDict (Dict.set key x cur)) = (r, None) →
                 ∃ r', r = PyDict r' ∧
                   r'.*1 = cur.*1 ++ filter (fun k => k ∉ cur.*1) ((key, value) :: rest).*1 ∧
                   (∀ k, k ∉ ((key, value) :: rest).*1 → Dict.get k r' = Dict.get k cur) ∧
                   (∀ k m child, (k, PyDict m) ∈ (key, value) :: rest →
                                 Dict.get k cur = Some child →
                                 (rec child (PyDict m)).2 = None ∧
                                 Dict.get k r' = Some (rec child (PyDict m)).1) ∧
                   (∀ k v, (k, v) ∈ (key, value) :: rest →
                           is_dict v = false ∨ Dict.get k cur = None →
                           Dict.get k r' = Some v)) as Hstep.
    { intros x Hx Hloop.
      destruct (IH _ Hrest Hloop) as (r' & -> & Hr'keys & Hothers & Hdicts & Hleaves).
      assert (∀ k, k ≠ key → Dict.get k (Dict.set key x cur) = Dict.get k cur) as Hne.
      { intros k Hk. by apply dict_get_set_ne. }
      assert (Dict.get key r' = Some x) as Hkeyr.
      { rewrite (Hothers key Hkey). apply dict_get_set. }
      assert (∀ k v, (k, v) ∈ rest → k ≠ key) as Hrestne.
      { intros k v Hin ->. apply Hkey. by apply (list_elem_of_fmap_2 fst _ (key, v)). }
      exists r'. split; [done|]. split; [|split; [|split]].
      - rewrite Hr'keys, dict_set_keys, fmap_cons, filter_cons. cbn [fst].
        destruct (Dict.get key cur) as [child|] eqn:Hget.
        + rewrite decide_False; [done|].
          intros Hn. apply dict_get_None in Hn. congruence.
        + rewrite decide_True by (by apply dict_get_None).
          rewrite <- (assoc_L (++)). cbn [app]. do 2 f_equal.
          apply filter_ext_in. intros k Hk. rewrite not_elem_of_app, list_elem_of_singleton.
          split; [tauto|]. intros Hn. split; [done|]. by intros ->.
      - intros k [Hk1 Hk2]%not_elem_of_cons. cbn [fst] in Hk1.
        rewrite (Hothers k Hk2). by apply Hne.
      - intros k m child [[= -> <-]|Hin]%elem_of_cons Hget.
        + destruct Hx as [(child' & [= ->] & _ & H1 & H2)|[[Hd|Hn] _]];
            [|by simpl in Hd|congruence].
          rewrite Hget in H1, H2. simpl in H1, H2. rewrite Hkeyr. split; congruence.
        + apply Hdicts; [done|]. rewrite Hne; [done|]. by eapply Hrestne.
      - intros k v [[= -> ->]|Hin]%elem_of_cons Hleaf.
        + destruct Hx as [(child' & -> & [child Hget] & _)|[_ ->]]; [|done].
          destruct Hleaf; [done|congruence].
        + apply Hleaves; [done|]. destruct Hleaf as [?|Hnone]; [by left|right].
          rewrite Hne; [done|]. by eapply Hrestne. }
    destruct value as [| | | | |m];
      try (intros Hloop; apply (Hstep _ (or_intror (conj (or_introl eq_refl) eq_refl)) Hloop)).
    destruct (Dict.get key cur) as [child|] eqn:Hget.
    + destruct (rec child (PyDict m)) as [child' [e|]] eqn:Hrec; [done|].
      intros Hloop. apply (Hstep child'); [|done]. left. exists m.
      split; [done|]. split; [by eexists|]. rewrite ?Hget. simpl. by rewrite Hrec.
    + intros Hloop. apply (Hstep _ (or_intror (conj (or_intror eq_refl) eq_refl)) Hloop).
Qed.

(** The loop over a mapping ends in an exception of the recursive calls. *)
Lemma update_items_raises items cur e :
  NoDup items.*1 →
  (update_items rec items (PyDict cur)).2 = Some e →
  ∃ k m child, (k, PyDict m) ∈ items ∧ Dict.get k cur = Some child ∧
               (rec child (PyDict m)).2 = Some e.
Proof.
  revert cur. induction items as [|[key value] rest IH]; intros cur Hkeys; [done|].
  rewrite fmap_cons, NoDup_cons in Hkeys. destruct Hkeys as [Hkey Hrest]. simpl in Hkey.
  rewrite update_items_cons.
  assert (∀ x, (update_items rec rest (PyDict (Dict.set key x cur))).2 = Some e →
               ∃ k m child, (k, PyDict m) ∈ (key, value) :: rest ∧ Dict.get k cur = Some child ∧
                            (rec child (PyDict m)).2 = Some e) as Hstep.
  { intros x (k & m & child & Hin & Hget & Hrec)%IH; [|done].
    exists k, m, child. split; [by right|]. split; [|done].
    rewrite dict_get_set_ne in Hget; [done|].
    intros <-. apply Hkey. by apply (list_elem_of_fmap_2 fst _ (key, PyDict m)). }
  destruct value as [| | | | |m]; try apply Hstep.
  destruct (Dict.get key cur) as [child|] eqn:Hget; [|apply Hstep].
  destruct (rec child (PyDict m)) as [child' [e'|]] eqn:Hrec; [|apply Hstep].
  simpl. intros [= ->]. exists key, m, child. split; [by left|]. split; [done|].
  by rewrite Hrec.
Qed.

End update_items.

Lemma update_items_fixed rec items cur :
  (∀ k v, (k, v) ∈ items →
          ∃ child, Dict.get k cur = Some child ∧
                   if is_dict v then rec child v = (child, None) else child = v) →
  update_items rec items (PyDict cur) = (PyDict cur, None).
Proof.
  induction items as [|[key value] rest IH]; intros Hitems; [done|].
  rewrite update_items_cons.
  destruct (Hitems key value) as (child & Hget & Hchild); [by left|].
  rewrite Hget.
  assert (update_items rec rest (PyDict cur) = (PyDict cur, None)) as Hrest.
  { apply IH. intros k v Hin. apply Hitems. by right. }
  destruct value as [| | | | |m]; simpl in Hchild; subst;
    rewrite ?Hchild, (dict_set_same _ _ _ Hget); exact Hrest.
Qed.

Lemma well_formed_dict items :
  well_formed (PyDict items) = true →
  NoDup items.*1 ∧ ∀ k v, (k, v) ∈ items → well_formed v = true.
Proof.
  simpl. intros [Hkeys Hitems]%andb_prop. split; [by apply bool_decide_eq_true in Hkeys|].
  intros k v Hin. rewrite forallb_forall in Hitems.
  apply (Hitems (k, v)). by apply list_elem_of_In.
Qed.

Lemma lookup_path_dict key path items v :
  lookup_path (key :: path) (PyDict items) = Some v ↔
  ∃ child, Dict.get key items = Some child ∧ lookup_path path child = Some v.
Proof.
  simpl. destruct (Dict.get key items) as [child|]; simpl.
  - split; [by exists child|]. by intros (? & [= <-] & ?).
  - split; [done|]. by intros (? & [=] & _).
Qed.

Lemma lookup_path_is_dict path v x :
  lookup_path path v = Some x → is_dict v = true ∨ (path = [] ∧ x = v).
Proof. destruct path, v; simpl; intros; simplify_eq; auto. Qed.

(** An exception of [recursive_dict_update] with a mapping as updates is a
    [TypeError], and comes from a mapping with entries of the updates that
    meets a value of the defaults that is no mapping. *)
Lemma recursive_dict_update_raises_path updates defaults e :
  well_formed updates = true → is_dict updates = true →
  (recursive_dict_update defaults updates).2 = Some e →
  e = TypeError ∧
  ∃ path m dv, lookup_path path updates = Some (PyDict m) ∧ m ≠ [] ∧
               lookup_path path defaults = Some dv ∧ is_dict dv = false.
Proof.
  revert defaults.
  induction updates as [| | | | |items IH] using pyvalue_induction; try done.
  intros defaults [Hkeys Hwf]%well_formed_dict _.
  rewrite recursive_dict_update_unfold.
  set (rec := fun child value => recursive_dict_update child value).
  destruct (is_dict defaults) eqn:Hdict.
  - destruct defaults as [| | | | |d]; try done.
    intros (k & m & child & Hin & Hget & He)%update_items_raises; [|done].
    rewrite Forall_forall in IH.
    destruct (IH (k, PyDict m) Hin child (Hwf k _ Hin) eq_refl He)
      as (-> & path & m' & dv & Hpath & Hm' & Hdv & Hleaf).
    split; [done|]. exists (k :: path), m', dv. split; [|split; [done|split; [|done]]].
    + apply lookup_path_dict. exists (PyDict m). split; [|done]. by apply dict_get_elem.
    + apply lookup_path_dict. by exists child.
  - destruct items as [|[key value] rest]; [done|].
    assert (update_items rec ((key, value) :: rest) defaults = (defaults, Some TypeError))
      as -> by (by destruct defaults).
    intros [= <-]. split; [done|].
    exists [], ((key, value) :: rest), defaults. by repeat split.
Qed.

(** X6. [recursive_dict_update] with a mapping as updates raises nothing but
    [TypeError], and it raises exactly when the updates have a mapping with
    entries at a path where the defaults have a value that is no mapping;
    an empty mapping there raises nothing. *)
Theorem recursive_dict_update_raises defaults items :
  well_formed (PyDict items) = true →
  ((recursive_dict_update defaults (PyDict items)).2 = None ∨
   (recursive_dict_update defaults (PyDict items)).2 = Some TypeError) ∧
  ((recursive_dict_update defaults (PyDict items)).2 = Some TypeError ↔
   ∃ path m dv, lookup_path path (PyDict items) = Some (PyDict m) ∧ m ≠ [] ∧
                lookup_path path defaults = Some dv ∧ is_dict dv = false).
Proof.
  intros Hwf.
  assert ((recursive_dict_update defaults (PyDict items)).2 = None ∨
          (recursive_dict_update defaults (PyDict items)).2 = Some TypeError) as Hexn.
  { destruct (recursive_dict_update defaults (PyDict items)).2 as [e|] eqn:He; [|by left].
    right. by apply recursive_dict_update_raises_path in He as [-> _]. }
  split; [done|]. split.
  { intros He. by apply recursive_dict_update_raises_path in He as [_ ?]. }
  intros (path & m & dv & Hpath & Hm & Hdv & Hleaf).
  destruct Hexn as [Hnone|?]; [exfalso|done].
  revert items defaults Hwf Hpath Hdv Hnone.
  induction path as [|k path IH]; intros items defaults Hwf Hpath Hdv.
  - simplify_eq/=. destruct m as [|[key value] rest]; [done|]. by destruct dv.
  - apply lookup_path_dict in Hpath as (uk & Hk & Hpath).
    destruct defaults as [| | | | |d]; try done.
    apply lookup_path_dict in Hdv as (dk & Hdk & Hdv).
    assert (∃ mu, uk = PyDict mu) as [mu ->].
    { destruct (lookup_path_is_dict _ _ _ Hpath) as [?|[_ <-]]; [|by eexists].
      destruct uk; try done. by eexists. }
    apply well_formed_dict in Hwf as [Hkeys Hwf].
    apply dict_get_Some_elem in Hk.
    rewrite recursive_dict_update_unfold.
    destruct (update_items _ items (PyDict d)) as [r e] eqn:Hloop. simpl. intros ->.
    apply update_items_Ok in Hloop as (r' & _ & _ & _ & Hdicts & _); [|done].
    destruct (Hdicts k mu dk Hk Hdk) as [Hok _].
    by apply (IH mu dk (Hwf k _ Hk)).
Qed.

Lemma overrides_cons key uk items path :
  Dict.get key items = Some uk → overrides uk path → overrides (PyDict items) (key :: path).
Proof.
  intros Hk (prefix & v & Hprefix & Hne & Hv & Hleaf).
  exists (key :: prefix), v. split; [by apply prefix_cons|]. split; [done|]. split; [|done].
  apply lookup_path_dict. by exists uk.
Qed.

Lemma recursive_dict_update_paths updates defaults r :
  well_formed updates = true →
  recursive_dict_update defaults updates = (r, None) →
  (∀ path x, lookup_path path updates = Some x → is_dict x = false →
             lookup_path path r = Some x) ∧
  (∀ path x, lookup_path path defaults = Some x → is_dict x = false →
             ¬ overrides updates path → lookup_path path r = Some x).
Proof.
  revert defaults r.
  induction updates as [| | | | |items IH] using pyvalue_induction; try done.
  intros defaults r [Hkeys Hwf]%well_formed_dict.
  rewrite recursive_dict_update_unfold.
  set (rec := fun child value => recursive_dict_update child value).
  destruct (is_dict defaults) eqn:Hdict.
  - destruct defaults as [| | | | |d]; try done.
    intros (r' & -> & _ & Hothers & Hdicts & Hleaves)%update_items_Ok; [|done].
    rewrite Forall_forall in IH. split.
    + intros [|k path] x; [by intros [= <-]|].
      intros (uk & Hk & Hpath)%lookup_path_dict Hx. apply lookup_path_dict.
      pose proof (dict_get_Some_elem _ _ _ Hk) as Hin.
      destruct (is_dict uk) eqn:Huk, (Dict.get k d) as [dk|] eqn:Hdk.
      * destruct uk as [| | | | |m]; try done.
        destruct (Hdicts k m dk Hin Hdk) as [Hok Hr'].
        destruct (rec dk (PyDict m)) as [child' e] eqn:Hrec. simpl in Hok, Hr'. subst e.
        exists child'. split; [done|].
        destruct (IH (k, PyDict m) Hin dk child' (Hwf k _ Hin) Hrec) as [IH1 _].
        by apply IH1.
      * exists uk. split; [|done]. apply Hleaves; auto.
      * exists uk. split; [|done]. apply Hleaves; auto.
      * exists uk. split; [|done]. apply Hleaves; auto.
    + intros [|k path] x; [by intros [= <-]|].
      intros (dk & Hdk & Hpath)%lookup_path_dict Hx Hover. apply lookup_path_dict.
      destruct (Dict.get k items) as [uk|] eqn:Hk.
      * pose proof (dict_get_Some_elem _ _ _ Hk) as Hin.
        destruct uk as [| | | | |m];
          try (destruct Hover; eexists [k], _; split; [by apply prefix_cons, prefix_nil|];
               split; [done|]; split; [simpl; rewrite Hk; reflexivity|done]).
        destruct (Hdicts k m dk Hin Hdk) as [Hok Hr'].
        destruct (rec dk (PyDict m)) as [child' e] eqn:Hrec. simpl in Hok, Hr'. subst e.
        exists child'. split; [done|].
        destruct (IH (k, PyDict m) Hin dk child' (Hwf k _ Hin) Hrec) as [_ IH2].
        apply IH2; [done..|]. intros Hsub. apply Hover. by apply (overrides_cons k (PyDict m)).
      * exists dk. split; [|done]. rewrite Hothers; [done|]. by apply dict_get_None.
  - destruct items as [|[key value] rest]; [|by destruct defaults].
    intros [= <-]. split; [|done].
    intros [|k path] x; by intros [= <-].
Qed.

(** X7. What a [recursive_dict_update] that raises nothing returns: the
    keys of the defaults in their order, followed by the new keys of the
    updates, so that no key of the defaults is lost; every value of the
    updates that is no mapping, at the path the updates have it; and every
    value of the defaults that is no mapping, unless the updates have a value
    that is no mapping at its path or above it. *)
Theorem recursive_dict_update_merges d items r :
  well_formed (PyDict items) = true →
  recursive_dict_update (PyDict d) (PyDict items) = (r, None) →
  (∃ r', r = PyDict r' ∧ r'.*1 = d.*1 ++ filter (fun k => k ∉ d.*1) items.*1) ∧
  (∀ path x, lookup_path path (PyDict items) = Some x → is_dict x = false →
             lookup_path path r = Some x) ∧
  (∀ path x, lookup_path path (PyDict d) = Some x → is_dict x = false →
             ¬ overrides (PyDict items) path → lookup_path path r = Some x).
Proof.
  intros Hwf Hr. split; [|by apply recursive_dict_update_paths].
  apply well_formed_dict in Hwf as [Hkeys _].
  rewrite recursive_dict_update_unfold in Hr.
  apply update_items_Ok in Hr as (r' & -> & Hr' & _); [|done]. by exists r'.
Qed.

Lemma recursive_dict_update_self v :
  well_formed v = true → is_dict v = true → recursive_dict_update v v = (v, None).
Proof.
  induction v as [| | | | |items IH] using pyvalue_induction; try done.
  intros [Hkeys Hwf]%well_formed_dict _. rewrite recursive_dict_update_unfold.
  apply update_items_fixed. intros k v Hin. exists v.
  split; [by apply dict_get_elem|].
  destruct (is_dict v) eqn:Hv; [|done].
  rewrite Forall_forall in IH. apply (IH (k, v) Hin); [by apply (Hwf k)|done].
Qed.

(** X8. [recursive_dict_update] is idempotent: the same updates applied to
    what it returned change nothing and raise nothing. *)
Theorem recursive_dict_update_idempotent defaults updates r :
  well_formed updates = true →
  recursive_dict_update defaults updates = (r, None) →
  recursive_dict_update r updates = (r, None).
Proof.
  revert defaults r.
  induction updates as [| | | | |items IH] using pyvalue_induction; try done.
  intros defaults r [Hkeys Hwf]%well_formed_dict.
  rewrite !recursive_dict_update_unfold.
  set (rec := fun child value => recursive_dict_update child value).
  destruct (is_dict defaults) eqn:Hdict.
  - destruct defaults as [| | | | |d]; try done.
    intros (r' & -> & _ & _ & Hdicts & Hleaves)%update_items_Ok; [|done].
    apply update_items_fixed. intros k v Hin. rewrite Forall_forall in IH.
    destruct (is_dict v) eqn:Hv, (Dict.get k d) as [dk|] eqn:Hdk.
    + destruct v as [| | | | |m]; try done.
      destruct (Hdicts k m dk Hin Hdk) as [Hok Hr'].
      destruct (rec dk (PyDict m)) as [child' e] eqn:Hrec. simpl in Hok, Hr'. subst e.
      exists child'. split; [done|].
      apply (IH (k, PyDict m) Hin dk child'); [by apply (Hwf k)|done].
    + exists v. split; [apply Hleaves; auto|].
      apply recursive_dict_update_self; [by apply (Hwf k)|done].
    + exists v. split; [apply Hleaves; auto|done].
    + exists v. split; [apply Hleaves; auto|done].
  - destruct items as [|[key value] rest]; [|by destruct defaults].
    by intros [= <-].
Qed.

(** *** Reading back what was written *)

Lemma dict_get_Permutation key (d d' : list (string * pyvalue)) :
  NoDup d.*1 → d ≡ₚ d' → Dict.get key d = Dict.get key d'.
Proof.
  intros Hd Hperm.
  assert (NoDup d'.*1) as Hd' by (by rewrite <- Hperm).
  destruct (Dict.get key d) as [v|] eqn:Hget.
  - symmetry. apply dict_get_elem; [done|]. rewrite <- Hperm. by apply dict_get_Some_elem.
  - symmetry. apply dict_get_None. rewrite <- Hperm. by apply dict_get_None.
Qed.

Lemma dict_get_fmap key (f : pyvalue → pyvalue) (d : list (string * pyvalue)) :
  Dict.get key ((fun kv => (kv.1, f kv.2)) <$> d) = f <$> Dict.get key d.
Proof.
  induction d as [|[k v] d IH]; [done|].
  rewrite fmap_cons. cbn [Dict.get fst snd]. by destruct (String.eqb k key).
Qed.

Lemma dict_keys_fmap (f : pyvalue → pyvalue) (d : list (string * pyvalue)) :
  ((fun kv => (kv.1, f kv.2)) <$> d).*1 = d.*1.
Proof. rewrite <- list_fmap_compose. by apply list_fmap_ext. Qed.

Lemma sort_keys_dict items :
  sort_keys (PyDict items) =
  PyDict (order_by (fun a b => String.leb a.1 b.1)
                   ((fun kv => (kv.1, sort_keys kv.2)) <$> items)).
Proof. reflexivity. Qed.

Lemma dict_get_sort_keys key items :
  NoDup items.*1 →
  Dict.get key (order_by (fun a b => String.leb a.1 b.1)
                         ((fun kv => (kv.1, sort_keys kv.2)) <$> items)) =
  sort_keys <$> Dict.get key items.
Proof.
  intros Hkeys. rewrite <- dict_get_fmap. symmetry. apply dict_get_Permutation.
  - by rewrite dict_keys_fmap.
  - symmetry. apply order_by_Permutation.
Qed.

Lemma is_dict_sort_keys v : is_dict (sort_keys v) = is_dict v.
Proof. by destruct v. Qed.

Lemma sort_keys_scalar v x : sort_keys v = x → is_scalar x = true → v = x.
Proof. destruct v; simpl; intros <-; done. Qed.

Lemma lookup_path_sort_keys path v :
  well_formed v = true →
  lookup_path path (sort_keys v) = sort_keys <$> lookup_path path v.
Proof.
  revert v. induction path as [|key path IH]; intros v Hv; [done|].
  destruct v as [| | | | |items]; try done.
  apply well_formed_dict in Hv as [Hkeys Hwf].
  rewrite sort_keys_dict. cbn [lookup_path]. rewrite dict_get_sort_keys by done.
  destruct (Dict.get key items) as [child|] eqn:Hget; [|done].
  simpl. apply IH. apply (Hwf key). by apply dict_get_Some_elem.
Qed.

Lemma well_formed_intro items :
  NoDup items.*1 → (∀ k v, (k, v) ∈ items → well_formed v = true) →
  well_formed (PyDict items) = true.
Proof.
  intros Hkeys Hwf. simpl. apply andb_true_intro. split; [by apply bool_decide_eq_true|].
  apply forallb_forall. intros [k v] Hin. apply (Hwf k). by apply list_elem_of_In.
Qed.

Lemma well_formed_sort_keys v : well_formed v = true → well_formed (sort_keys v) = true.
Proof.
  induction v as [| | | |l IH|items IH] using pyvalue_induction; try done.
  - simpl. rewrite !forallb_forall. intros Hl x Hx.
    apply list_elem_of_In, list_elem_of_fmap in Hx as (v & -> & Hv).
    rewrite Forall_forall in IH. apply IH; [done|]. apply Hl. by apply list_elem_of_In.
  - intros [Hkeys Hwf]%well_formed_dict. rewrite sort_keys_dict.
    apply well_formed_intro.
    + by rewrite order_by_Permutation, dict_keys_fmap.
    + intros k v. rewrite order_by_Permutation.
      intros ([k' v'] & [= -> ->] & Hin)%list_elem_of_fmap.
      rewrite Forall_forall in IH. apply (IH _ Hin). by apply (Hwf k').
Qed.

Lemma well_formed_lookup_path path v x :
  well_formed v = true → lookup_path path v = Some x → well_formed x = true.
Proof.
  revert v. induction path as [|key path IH]; intros v Hv; [by intros [= <-]|].
  destruct v as [| | | | |items]; try done.
  intros (child & Hget & Hpath)%lookup_path_dict.
  apply well_formed_dict in Hv as [_ Hwf]. apply (IH child); [|done].
  apply (Hwf key). by apply dict_get_Some_elem.
Qed.

Lemma overrides_cons_inv key items path :
  overrides (PyDict items) (key :: path) →
  ∃ uk, Dict.get key items = Some uk ∧ (is_dict uk = false ∨ overrides uk path).
Proof.
  intros (prefix & v & Hprefix & Hne & Hv & Hleaf).
  destruct prefix as [|k prefix]; [done|].
  apply prefix_cons_inv_1 in Hprefix as Hk. subst k.
  apply prefix_cons_inv_2 in Hprefix.
  apply lookup_path_dict in Hv as (uk & Hget & Hv). exists uk. split; [done|].
  destruct prefix as [|k prefix]; [left; by simplify_eq/=|].
  right. by exists (k :: prefix), v.
Qed.

Lemma overrides_nil updates : ¬ overrides updates [].
Proof. intros (prefix & v & Hprefix%prefix_nil_inv & Hne & _). done. Qed.

(** Where the values of the result that are no mapping come from, and that
    a mapping of the defaults stays a mapping. *)
Lemma recursive_dict_update_paths_inv updates defaults r :
  well_formed updates = true →
  recursive_dict_update defaults updates = (r, None) →
  (∀ path x, lookup_path path r = Some x → is_dict x = false →
             lookup_path path updates = Some x ∨
             (lookup_path path defaults = Some x ∧ ¬ overrides updates path)) ∧
  (∀ path y, lookup_path path defaults = Some y → is_dict y = true →
             ¬ overrides updates path →
             ∃ y', lookup_path path r = Some y' ∧ is_dict y' = true).
Proof.
  revert defaults r.
  induction updates as [| | | | |items IH] using pyvalue_induction; try done.
  intros defaults r [Hkeys Hwf]%well_formed_dict.
  rewrite recursive_dict_update_unfold.
  set (rec := fun child value => recursive_dict_update child value).
  destruct (is_dict defaults) eqn:Hdict.
  - destruct defaults as [| | | | |d]; try done.
    intros (r' & -> & _ & Hothers & Hdicts & Hleaves)%update_items_Ok; [|done].
    rewrite Forall_forall in IH. split.
    + intros [|k path] x; [by intros [= <-]|].
      intros (rk & Hrk & Hpath)%lookup_path_dict Hx.
      destruct (Dict.get k items) as [uk|] eqn:Hk.
      * pose proof (dict_get_Some_elem _ _ _ Hk) as Hin.
        destruct (is_dict uk) eqn:Huk, (Dict.get k d) as [dk|] eqn:Hdk.
        -- destruct uk as [| | | | |m]; try done.
           destruct (Hdicts k m dk Hin Hdk) as [Hok Hr'].
           destruct (rec dk (PyDict m)) as [child' e] eqn:Hrec. simpl in Hok, Hr'. subst e.
           assert (rk = child') as -> by congruence.
           destruct (IH (k, PyDict m) Hin dk child' (Hwf k _ Hin) Hrec) as [IH1 _].
           destruct (IH1 path x Hpath Hx) as [Hu|[Hd Hover]].
           ++ left. apply lookup_path_dict. by exists (PyDict m).
           ++ right. split; [apply lookup_path_dict; by exists dk|].
              intros (uk & Huk' & [?|?])%overrides_cons_inv; by simplify_eq.
        -- left. apply lookup_path_dict. exists uk. split; [done|].
           rewrite (Hleaves k uk Hin) in Hrk by auto. congruence.
        -- left. apply lookup_path_dict. exists uk. split; [done|].
           rewrite (Hleaves k uk Hin) in Hrk by auto. congruence.
        -- left. apply lookup_path_dict. exists uk. split; [done|].
           rewrite (Hleaves k uk Hin) in Hrk by auto. congruence.
      * right. rewrite Hothers in Hrk by (by apply dict_get_None). split.
        -- apply lookup_path_dict. by exists rk.
        -- intros (uk & Huk' & _)%overrides_cons_inv. congruence.
    + intros [|k path] y; [intros [= <-] _ _; by eexists|].
      intros (dk & Hdk & Hpath)%lookup_path_dict Hy Hover.
      destruct (Dict.get k items) as [uk|] eqn:Hk.
      * pose proof (dict_get_Some_elem _ _ _ Hk) as Hin.
        destruct uk as [| | | | |m];
          try (destruct Hover; eexists [k], _; split; [by apply prefix_cons, prefix_nil|];
               split; [done|]; split; [simpl; rewrite Hk; reflexivity|done]).
        destruct (Hdicts k m dk Hin Hdk) as [Hok Hr'].
        destruct (rec dk (PyDict m)) as [child' e] eqn:Hrec. simpl in Hok, Hr'. subst e.
        destruct (IH (k, PyDict m) Hin dk child' (Hwf k _ Hin) Hrec) as [_ IH2].
        destruct (IH2 path y Hpath Hy) as (y' & Hy' & Hdy').
        { intros Hsub. apply Hover. by apply (overrides_cons k (PyDict m)). }
        exists y'. split; [|done]. apply lookup_path_dict. by exists child'.
      * exists y. split; [|done]. apply lookup_path_dict. exists dk. split; [|done].
        rewrite Hothers; [done|]. by apply dict_get_None.
  - destruct items as [|[key value] rest]; [|by destruct defaults].
    intros [= <-]. split.
    + intros path x Hpath Hx. right. split; [done|].
      intros (prefix & v & _ & Hne & Hv & _). destruct prefix; by simplify_eq/=.
    + intros path y Hpath Hy _. by exists y.
Qed.

Lemma NoDup_app_filter (l k : list string) :
  NoDup l → NoDup k → NoDup (l ++ filter (fun x => x ∉ l) k).
Proof.
  intros Hl Hk. apply NoDup_app. split; [done|]. split.
  - intros x Hx [Hn _]%list_elem_of_filter. done.
  - by apply NoDup_filter.
Qed.

(** The keys of the mappings of the result are distinct when those of the
    defaults and of the updates are. *)
Lemma recursive_dict_update_well_formed updates defaults r :
  well_formed updates = true → well_formed defaults = true →
  recursive_dict_update defaults updates = (r, None) →
  well_formed r = true.
Proof.
  revert defaults r.
  induction updates as [| | | | |items IH] using pyvalue_induction; try done.
  intros defaults r [Hkeys Hwf]%well_formed_dict Hdefaults.
  rewrite recursive_dict_update_unfold.
  set (rec := fun child value => recursive_dict_update child value).
  destruct (is_dict defaults) eqn:Hdict.
  - destruct defaults as [| | | | |d]; try done.
    apply well_formed_dict in Hdefaults as [Hdkeys Hdwf].
    intros (r' & -> & Hr'keys & Hothers & Hdicts & Hleaves)%update_items_Ok; [|done].
    assert (NoDup r'.*1) as Hr' by (rewrite Hr'keys; by apply NoDup_app_filter).
    apply well_formed_intro; [done|].
    intros k v Hin. apply (dict_get_elem _ _ _ Hr') in Hin.
    destruct (Dict.get k items) as [uk|] eqn:Hk.
    + pose proof (dict_get_Some_elem _ _ _ Hk) as Hin'.
      destruct (is_dict uk) eqn:Huk, (Dict.get k d) as [dk|] eqn:Hdk.
      * destruct uk as [| | | | |m]; try done.
        destruct (Hdicts k m dk Hin' Hdk) as [Hok Hr'k].
        destruct (rec dk (PyDict m)) as [child' e] eqn:Hrec. simpl in Hok, Hr'k. subst e.
        assert (v = child') as -> by congruence.
        rewrite Forall_forall in IH.
        apply (IH (k, PyDict m) Hin' dk child'); [by apply (Hwf k)| |done].
        apply (Hdwf k). by apply dict_get_Some_elem.
      * rewrite (Hleaves k uk Hin') in Hin by auto. simplify_eq. by apply (Hwf k).
      * rewrite (Hleaves k uk Hin') in Hin by auto. simplify_eq. by apply (Hwf k).
      * rewrite (Hleaves k uk Hin') in Hin by auto. simplify_eq. by apply (Hwf k).
    + rewrite Hothers in Hin by (by apply dict_get_None).
      apply (Hdwf k). by apply dict_get_Some_elem.
  - destruct items as [|[key value] rest]; [|by destruct defaults].
    by intros [= <-].
Qed.

Lemma overrides_overridden updates path :
  overrides updates path ↔ overridden updates path = true.
Proof.
  revert updates. induction path as [|key path IH]; intros updates.
  - split; [by intros ?%overrides_nil|done].
  - destruct updates as [| | | | |items];
      try (split; [|done]; intros (prefix & v & _ & Hne & Hv & _);
           destruct prefix; by simplify_eq/=).
    cbn [overridden]. split.
    + intros (uk & -> & [->|Hover])%overrides_cons_inv; [done|].
      apply IH in Hover. rewrite Hover. apply orb_true_r.
    + destruct (Dict.get key items) as [uk|] eqn:Hk; [|done].
      intros [Hleaf%negb_true_iff|Hover%IH]%orb_prop.
      * exists [key], uk. split; [by apply prefix_cons, prefix_nil|]. split; [done|].
        split; [|done]. simpl. by rewrite Hk.
      * by apply (overrides_cons key uk).
Qed.

Lemma overrides_prefix updates prefix path :
  prefix `prefix_of` path → overrides updates prefix → overrides updates path.
Proof.
  intros Hprefix (q & v & Hq & Hne & Hv & Hleaf). exists q, v.
  split; [by etrans|done].
Qed.

Lemma extends_refl defaults : is_dict defaults = true → extends defaults defaults.
Proof.
  intros Hdict path x Hpath. destruct (is_dict x) eqn:Hx.
  - right. split; [done|]. by exists x.
  - left. exists path, x. split; [done|]. split; [|done]. intros ->. simplify_eq/=. congruence.
Qed.

(** An update keeps the settings an extension of the defaults. *)
Lemma extends_update defaults r updates r' :
  well_formed updates = true →
  extends defaults r →
  recursive_dict_update r updates = (r', None) →
  extends defaults r'.
Proof.
  intros Hwf Hext Hupdate path x Hpath.
  destruct (recursive_dict_update_paths _ _ _ Hwf Hupdate) as [Hwin Hkeep].
  destruct (recursive_dict_update_paths_inv _ _ _ Hwf Hupdate) as [_ Hdict].
  assert (∀ p, overrides updates p → overrides r' p) as Hover.
  { intros p (q & z & Hq & Hne & Hz & Hleaf). exists q, z. repeat split; try done.
    by apply Hwin. }
  destruct (Hext path x Hpath) as [(p & w & Hp & Hne & Hw & Hleaf)|(Hx & y & Hy & Hdy)].
  - left. destruct (overridden updates p) eqn:Hup.
    + apply (overrides_prefix _ p); [done|]. by apply Hover, overrides_overridden.
    + exists p, w. repeat split; try done. apply Hkeep; [done..|].
      rewrite overrides_overridden. congruence.
  - destruct (overridden updates path) eqn:Hup.
    + left. by apply Hover, overrides_overridden.
    + right. split; [done|]. apply (Hdict path y); [done..|].
      rewrite overrides_overridden. congruence.
Qed.

(** Settings that extend the defaults raise nothing when they are read back
    over the defaults, and read back with the same values. *)
Lemma extends_read_back defaults r :
  well_formed r = true → is_dict r = true → extends defaults r →
  ∃ r', recursive_dict_update defaults (sort_keys r) = (r', None) ∧
        ∀ path x, is_scalar x = true →
                  (lookup_path path r' = Some x ↔ lookup_path path r = Some x).
Proof.
  intros Hwf Hdict Hext.
  pose proof (well_formed_sort_keys r Hwf) as Hwf'.
  assert (∀ x, is_scalar x = true → is_dict x = false) as Hscalar by (by intros []).
  assert (∀ path, overrides (sort_keys r) path ↔ overrides r path) as Hover.
  { intros path. split; intros (p & w & Hp & Hne & Hw & Hleaf).
    - rewrite lookup_path_sort_keys in Hw by done.
      destruct (lookup_path p r) as [w'|] eqn:Hw'; [|done]. injection Hw as <-.
      exists p, w'. rewrite is_dict_sort_keys in Hleaf. by repeat split.
    - exists p, (sort_keys w). rewrite lookup_path_sort_keys, Hw, is_dict_sort_keys by done.
      by repeat split. }
  destruct (recursive_dict_update defaults (sort_keys r)) as [r' [e|]] eqn:Hupdate.
  { exfalso.
    assert ((recursive_dict_update defaults (sort_keys r)).2 = Some e) as He
      by (by rewrite Hupdate).
    apply recursive_dict_update_raises_path in He
      as (_ & path & m & dv & Hpath & Hm & Hdv & Hleaf);
      [|done|by rewrite is_dict_sort_keys].
    destruct (Hext path dv Hdv) as [Hov|(? & _)]; [|congruence].
    apply Hover in Hov as (p & w & Hp & Hne & Hw & Hw').
    destruct Hp as [q ->]. revert Hpath.
    clear -Hw Hw'. revert w Hw Hw'. generalize (sort_keys r). intros v.
    revert v. induction p as [|k p IH]; intros v w Hw Hw'.
    - simplify_eq/=. destruct q, w; simplify_eq/=; done.
    - destruct v as [| | | | |items]; try done.
      apply lookup_path_dict in Hw as (child & Hk & Hw).
      rewrite <- app_comm_cons. intros (child' & Hk' & Hpath)%lookup_path_dict.
      simplify_eq. by eapply IH. }
  exists r'. split; [done|]. intros path x Hx.
  destruct (recursive_dict_update_paths _ _ _ Hwf' Hupdate) as [Hwin _].
  destruct (recursive_dict_update_paths_inv _ _ _ Hwf' Hupdate) as [Hfrom _].
  split.
  - intros Hr'. destruct (Hfrom path x Hr' (Hscalar x Hx)) as [Hu|[Hd Hnot]].
    + rewrite lookup_path_sort_keys in Hu by done.
      destruct (lookup_path path r) as [y|]; [|done]. injection Hu as Hy.
      by rewrite (sort_keys_scalar y x Hy Hx).
    + destruct (Hext path x Hd) as [Hov|(Hdx & _)].
      * destruct Hnot. by apply Hover.
      * rewrite (Hscalar x Hx) in Hdx. done.
  - intros Hr. apply Hwin; [|by apply Hscalar].
    rewrite lookup_path_sort_keys, Hr by done. simpl. by destruct x.
Qed.

(** *** The [Config] object *)

Lemma initial_default_settings_well_formed tvh_local :
  well_formed (Config.initial_default_settings tvh_local) = true.
Proof. by destruct tvh_local. Qed.

Lemma initial_default_settings_patch tvh_local tvh_local' :
  recursive_dict_update
    (Config.initial_default_settings tvh_local')
    (PyDict [("settings", PyDict [("enable_admin_user", PyBool tvh_local)])])
  = (Config.initial_default_settings tvh_local, None).
Proof. by destruct tvh_local, tvh_local'. Qed.

Lemma initial_default_settings_extends tvh_local tvh_local' :
  extends (Config.initial_default_settings tvh_local')
          (Config.initial_default_settings tvh_local).
Proof.
  eapply extends_update; [|by apply extends_refl|apply initial_default_settings_patch].
  done.
Qed.

Lemma recursive_dict_update_is_dict defaults updates r :
  is_dict defaults = true → recursive_dict_update defaults updates = (r, None) →
  is_dict r = true.
Proof.
  destruct defaults as [| | | | |d]; try done. intros _.
  destruct updates as [| | | | |items]; try done.
  rewrite recursive_dict_update_unfold. generalize (fun child value => recursive_dict_update child value).
  intros rec. revert d. induction items as [|[key value] rest IH]; intros d.
  - by intros [= <-].
  - rewrite update_items_cons.
    destruct value as [| | | | |m]; try apply IH.
    destruct (Dict.get key d) as [child|]; [|apply IH].
    destruct (rec child (PyDict m)) as [child' [e|]]; [done|apply IH].
Qed.

(** A session of updates keeps the settings loaded, an extension of the
    defaults and with distinct keys, and does not write the file. *)
Lemma update_settings_each_extends defaults updates s s' :
  Forall (fun u => well_formed u = true) updates →
  Config.loaded s = true →
  is_dict (Config.default_settings s) = true →
  well_formed (Config.default_settings s) = true →
  extends defaults (Config.default_settings s) →
  Config.update_settings_each updates s = (s', Ok tt) →
  Config.loaded s' = true ∧
  is_dict (Config.default_settings s') = true ∧
  well_formed (Config.default_settings s') = true ∧
  extends defaults (Config.default_settings s').
Proof.
  intros Hupdates. revert s.
  induction Hupdates as [|u updates Hu _ IH]; intros s Hloaded Hdict Hwf Hext.
  - by intros [= <-].
  - cbn [Config.update_settings_each]. unfold Config.update_settings. rewrite Hloaded.
    destruct (recursive_dict_update (Config.default_settings s) u) as [r [e|]] eqn:Hupdate;
      [done|].
    apply IH; cbn [Config.loaded Config.default_settings].
    + done.
    + by eapply recursive_dict_update_is_dict.
    + by apply (recursive_dict_update_well_formed u (Config.default_settings s) r).
    + by apply (extends_update defaults (Config.default_settings s) u r).
Qed.

(** X9. The settings survive a restart. A [Config] reads its settings, is
    given updates and saves; a [Config] made afterwards, whether or not
    TVHeadend runs locally then, reads settings in which every value that
    is no list and no mapping is at the path it was at in the saved
    settings, and no other such value. *)
Theorem settings_survive_restart tvh_local tvh_local' file updates s1 r1 s2 :
  (∀ data, file = Some (Yaml data) → well_formed data = true) →
  Forall (fun u => well_formed u = true) updates →
  Config.read_settings (Config.init tvh_local file) = (s1, Ok r1) →
  Config.update_settings_each updates s1 = (s2, Ok tt) →
  ∃ saved s4 r4,
    Config.settings s2 = Some saved ∧
    Config.read_settings
      (Config.init tvh_local' (Config.config_file (Config.save_settings s2))) = (s4, Ok r4) ∧
    ∀ path x, is_scalar x = true →
              (lookup_path path r4 = Some x ↔ lookup_path path saved = Some x).
Proof.
  intros Hfile Hupdates Hread Hsession.
  set (defaults := Config.initial_default_settings tvh_local) in *.
  set (defaults' := Config.initial_default_settings tvh_local').
  assert (Config.loaded s1 = true ∧ is_dict (Config.default_settings s1) = true ∧
          well_formed (Config.default_settings s1) = true ∧
          extends defaults' (Config.default_settings s1)) as (Hl1 & Hd1 & Hw1 & He1).
  { unfold Config.read_settings, Config.init in Hread. cbn [Config.loaded] in Hread.
    destruct (Config.read_config_yaml _) as [s0 yaml] eqn:Hyaml.
    assert (Config.default_settings s0 = defaults ∧ well_formed yaml = true) as [Hs0 Hwf].
    { unfold Config.read_config_yaml in Hyaml. cbn [Config.config_file] in Hyaml.
      destruct file as [[|data]|]; injection Hyaml as <- <-; split;
        try reflexivity; first [by apply Hfile
                               |apply well_formed_sort_keys, initial_default_settings_well_formed]. }
    rewrite Hs0 in Hread.
    destruct (recursive_dict_update defaults yaml) as [r [e|]] eqn:Hupdate; [done|].
    injection Hread as <- <-. cbn [Config.loaded Config.default_settings].
    split; [done|].
    split; [by apply (recursive_dict_update_is_dict defaults yaml r)|].
    split.
    - apply (recursive_dict_update_well_formed yaml defaults r); [done| |done].
      apply initial_default_settings_well_formed.
    - apply (extends_update defaults' defaults yaml r); [done| |done].
      apply initial_default_settings_extends. }
  destruct (update_settings_each_extends defaults' updates s1 s2 Hupdates Hl1 Hd1 Hw1 He1 Hsession)
    as (Hl2 & Hd2 & Hw2 & He2).
  destruct (extends_read_back defaults' (Config.default_settings s2) Hw2 Hd2 He2)
    as (r4 & Hupdate & Hsame).
  exists (Config.default_settings s2). eexists. exists r4.
  split; [by unfold Config.settings; rewrite Hl2|]. split; [|done].
  unfold Config.read_settings, Config.save_settings, Config.init, Config.read_config_yaml,
    Config.write_settings_yaml, Config.settings, write_yaml.
  rewrite Hl2. cbn [Config.loaded Config.config_file Config.default_settings default read_yaml].
  rewrite ?Hl2. cbn -[recursive_dict_update sort_keys Config.initial_default_settings].
  fold defaults'. by rewrite Hupdate.
Qed.

(** The example of X9: no settings file at first; the address of the
    application and the key of TMDB are set; the next start finds them. *)
Lemma settings_survive_restart_witness :
  ∃ s1 r1 s2 s4 r4,
    Config.read_settings (Config.init false None) = (s1, Ok r1) ∧
    Config.update_settings_each
      [PyDict [("settings", PyDict [("app_url", PyStr "http://tic");
                                    ("epgs", PyDict [("tmdb_api_key", PyStr "k")])])]] s1
    = (s2, Ok tt) ∧
    Config.read_settings
      (Config.init true (Config.config_file (Config.save_settings s2))) = (s4, Ok r4) ∧
    lookup_path ["settings"; "app_url"] r4 = Some (PyStr "http://tic") ∧
    lookup_path ["settings"; "epgs"; "tmdb_api_key"] r4 = Some (PyStr "k") ∧
    lookup_path ["settings"; "epgs"; "enable_tmdb_metadata"] r4 = Some (PyBool false).
Proof.
  destruct (Config.read_settings (Config.init false None)) as [s1 [r1|]] eqn:E1;
    [|by vm_compute in E1].
  set (updates := [PyDict [("settings", PyDict [("app_url", PyStr "http://tic");
                                                  ("epgs", PyDict [("tmdb_api_key", PyStr "k")])])]]).
  destruct (Config.update_settings_each updates s1)
    as [s2 [[]|]] eqn:E2; [|vm_compute in E1; injection E1 as <- <-; by vm_compute in E2].
  destruct (settings_survive_restart false true None updates s1 r1 s2)
    as (saved & s4 & r4 & Hs & H4 & Hsame).
  - by intros data [=].
  - repeat constructor.
  - exact E1.
  - exact E2.
  - exists s1, r1, s2, s4, r4. split; [done|]. split; [done|]. split; [exact H4|].
    vm_compute in E1. injection E1 as <- <-. vm_compute in E2. injection E2 as <-.
    vm_compute in Hs. injection Hs as <-.
    split; [|split]; apply Hsame; reflexivity.
Defined.

(** The example of X6: a settings file that gives a mapping for the address
    of the application, which the defaults have as a null. *)
Lemma recursive_dict_update_raises_witness :
  (recursive_dict_update
     (Config.initial_default_settings false)
     (PyDict [("settings", PyDict [("app_url", PyDict [("host", PyStr "tic")])])])).2
  = Some TypeError ∧
  (recursive_dict_update
     (Config.initial_default_settings false)
     (PyDict [("settings", PyDict [("app_url", PyDict [])])])).2 = None.
Proof.
  split; [|reflexivity].
  apply (recursive_dict_update_raises
           (Config.initial_default_settings false)
           [("settings", PyDict [("app_url", PyDict [("host", PyStr "tic")])])]);
    [reflexivity|].
  exists ["settings"; "app_url"], [("host", PyStr "tic")], PyNone. by repeat split.
Defined.

(** The example of X7: the address of the application is set and a key the
    defaults do not have is given. *)
Lemma recursive_dict_update_merges_witness :
  ∃ r,
    recursive_dict_update
      (Config.initial_default_settings false)
      (PyDict [("channels", PyDict []);
               ("settings", PyDict [("app_url", PyStr "http://tic")])]) = (r, None) ∧
    (∃ r', r = PyDict r' ∧ r'.*1 = ["settings"; "channels"]) ∧
    lookup_path ["settings"; "app_url"] r = Some (PyStr "http://tic") ∧
    lookup_path ["settings"; "tvheadend"; "port"] r = Some (PyStr "9981").
Proof.
  destruct (recursive_dict_update
              (Config.initial_default_settings false)
              (PyDict [("channels", PyDict []);
                       ("settings", PyDict [("app_url", PyStr "http://tic")])]))
    as [r [e|]] eqn:E; [by vm_compute in E|].
  exists r. split; [done|].
  destruct (recursive_dict_update_merges
              [("settings", _)]
              [("channels", PyDict []); ("settings", PyDict [("app_url", PyStr "http://tic")])]
              r eq_refl E) as ((r' & -> & Hkeys) & Hwin & Hkeep).
  split; [exists r'; split; [done|]; rewrite Hkeys; reflexivity|].
  split; [by apply Hwin|]. apply Hkeep; [done..|].
  rewrite overrides_overridden. by vm_compute.
Defined.

(** The example of X8: the same update twice. *)
Lemma recursive_dict_update_idempotent_witness :
  ∃ r,
    recursive_dict_update
      (Config.initial_default_settings false)
      (PyDict [("settings", PyDict [("epgs", PyDict [("enable_tmdb_metadata", PyBool true)])])])
    = (r, None) ∧
    recursive_dict_update
      r (PyDict [("settings", PyDict [("epgs", PyDict [("enable_tmdb_metadata", PyBool true)])])])
    = (r, None).
Proof.
  destruct (recursive_dict_update
              (Config.initial_default_settings false)
              (PyDict [("settings",
                        PyDict [("epgs", PyDict [("enable_tmdb_metadata", PyBool true)])])]))
    as [r [e|]] eqn:E; [by vm_compute in E|].
  exists r. split; [done|].
  by apply (recursive_dict_update_idempotent (Config.initial_default_settings false)).
Defined.

(** X10. The settings file at the edges. Without a file, [read_settings]
    writes the defaults to the file and returns them. With a file that
    cannot be parsed, or whose top level is no mapping, as that of an empty
    file, it raises [AttributeError] and leaves the object as it was: the
    defaults are no fall-back. [save_settings] of an object that has not
    read its settings leaves such a file, which holds a null. *)
Theorem settings_file_edges tvh_local :
  Config.read_settings (Config.init tvh_local None) =
    (Config.mkState true (Config.initial_default_settings tvh_local)
                    (write_yaml (Config.initial_default_settings tvh_local)),
     Ok (Config.initial_default_settings tvh_local)) ∧
  Config.read_settings (Config.init tvh_local (Some Malformed)) =
    (Config.init tvh_local (Some Malformed), Raise AttributeError) ∧
  (∀ data, is_dict data = false →
           Config.read_settings (Config.init tvh_local (Some (Yaml data))) =
           (Config.init tvh_local (Some (Yaml data)), Raise AttributeError)) ∧
  (∀ file, Config.config_file (Config.save_settings (Config.init tvh_local file)) =
           Some (Yaml PyNone)).
Proof.
  split; [by destruct tvh_local|]. split; [done|]. split; [|done].
  intros data Hdata. unfold Config.read_settings, Config.init, Config.read_config_yaml.
  cbn [Config.loaded Config.config_file Config.default_settings read_yaml].
  by destruct data.
Qed.

(** ** The semaphore of a batch *)

Lemma permits_held_insert (held : list bool) (i : nat) (h b : bool) :
  held !! i = Some h →
  (permits_held (<[i := b]> held) + (if h then 1 else 0) =
   permits_held held + (if b then 1 else 0))%nat.
Proof.
  unfold permits_held. revert i. induction held as [|x held IH]; intros [|i]; simpl; try done.
  - intros [= ->]. destruct h, b; simpl; lia.
  - intros Hi. specialize (IH i Hi). destruct x; simpl; lia.
Qed.

Lemma bracketed_cbind {A B} held middle at_end (c : coroutine A) (f : A → coroutine B) :
  bracketed held middle c → (∀ a, bracketed middle at_end (f a)) →
  bracketed held at_end (cbind c f).
Proof.
  intros Hc Hf. revert held Hc.
  induction c as [a|k IH|k IH|k IH|g k IH|api_key title k IH|title k IH]; intros held; simpl.
  - intros ->. apply Hf.
  - intros [-> Hk]. split; [done|]. by apply IH.
  - intros [-> Hk]. split; [done|]. by apply IH.
  - intros Hk c. by apply IH.
  - apply IH.
  - intros [-> Hk]. split; [done|]. intros response. by apply IH.
  - intros [-> Hk]. split; [done|]. intros response. by apply IH.
Qed.

Lemma bracketed_with_semaphore {A} (body : coroutine A) :
  bracketed true true body → bracketed false false (with_semaphore body).
Proof.
  intros Hbody. split; [done|]. by apply (bracketed_cbind true true false).
Qed.

Lemma bracketed_search_tmdb_for_movie api_key title :
  bracketed false false (search_tmdb_for_movie api_key title).
Proof.
  apply bracketed_with_semaphore. simpl. intros c.
  destruct (cached_tmdb c title); simpl; [done|]. split; [done|].
  intros [|status results]; simpl; [done|].
  by destruct (if status =? 200 then head results else None).
Qed.

Lemma bracketed_search_google_images title :
  bracketed false false (search_google_images title).
Proof.
  apply bracketed_with_semaphore. simpl. intros c.
  destruct (cached_google_images c title); simpl; [done|]. split; [done|].
  intros [|status images]; simpl; [done|].
  by destruct (if status =? 200 then images else []) as [|first [|[second|] rest]].
Qed.

Lemma bracketed_update_wrapper settings programme :
  bracketed false false (update_wrapper settings programme).
Proof.
  unfold update_wrapper. destruct (EpgChannelProgrammes.categories programme); [|done].
  unfold update_programme_with_online_data.
  apply (bracketed_cbind false false false).
  - destruct (lacks_all programme && enable_tmdb_metadata settings); [|done].
    apply (bracketed_cbind false false false); [apply bracketed_search_tmdb_for_movie|].
    by intros [[[|??]|]|].
  - intros [p [e|]]; [done|].
    destruct (negb (Py.truthy (EpgChannelProgrammes.icon_url p))
              && enable_google_image_search_metadata settings); [|done].
    apply (bracketed_cbind false false false); [apply bracketed_search_google_images|].
    intros [image_url|]; [|done]. by destruct (Py.truthy image_url).
Qed.

Lemma Forall2_task_holds_insert {A} held (tasks : list (task A)) i h t :
  length held = length tasks →
  (∀ j hj tj, j ≠ i → held !! j = Some hj → tasks !! j = Some tj → task_holds hj tj) →
  task_holds h t →
  Forall2 task_holds (<[i := h]> held) (<[i := t]> tasks).
Proof.
  intros Hlen Hothers Ht. apply Forall2_same_length_lookup_2.
  - by rewrite !length_insert.
  - intros j hj tj Hhj Htj. destruct (decide (i = j)) as [<-|Hne].
    + pose proof (lookup_lt_Some _ _ _ Hhj) as Hlt. rewrite length_insert in Hlt.
      rewrite list_lookup_insert_eq in Hhj by done.
      rewrite list_lookup_insert_eq in Htj by (by rewrite <- Hlen).
      by simplify_eq.
    + rewrite list_lookup_insert_ne in Hhj by done.
              rewrite list_lookup_insert_ne in Htj by done. by apply (Hothers j).
Qed.

(** A task that runs keeps the permits bounded, whatever is in its place in
    the list of tasks while it runs. *)
Lemma run_semaphore_bounded {A} i (c : coroutine A) s held h :
  length held = length (l_tasks s) →
  (i < length held)%nat →
  (∀ j hj tj, j ≠ i → held !! j = Some hj → l_tasks s !! j = Some tj → task_holds hj tj) →
  bracketed h false c →
  (l_permits s + permits_held (<[i := h]> held) ≤ 10)%nat →
  semaphore_bounded (run i c s).
Proof.
  revert s held h.
  induction c as [a|k IH|k IH|k IH|f k IH|api_key title k IH|title k IH];
    intros s held h Hlen Hi Hothers Hc Hsum; simpl.
  - exists (<[i := h]> held). split; [|done]. simpl.
    by apply Forall2_task_holds_insert.
  - destruct Hc as [-> Hk]. destruct (l_permits s) as [|n] eqn:Hn.
    + exists (<[i := false]> held). split; [|simpl; lia]. simpl.
      by apply Forall2_task_holds_insert.
    + apply (IH _ held true); try done. simpl.
      destruct (lookup_lt_is_Some_2 held i Hi) as [hi Hhi].
      pose proof (permits_held_insert held i hi false Hhi).
      pose proof (permits_held_insert held i hi true Hhi). destruct hi; lia.
  - destruct Hc as [-> Hk]. unfold release.
    destruct (lookup_lt_is_Some_2 held i Hi) as [hi Hhi].
    pose proof (permits_held_insert held i hi false Hhi) as Hfalse.
    pose proof (permits_held_insert held i hi true Hhi) as Htrue.
    assert (permits_held (<[i := true]> held) = S (permits_held (<[i := false]> held)))
      as Hrelease by (destruct hi; lia).
    clear Hfalse Htrue.
    destruct (l_waiters s) as [|w ws].
    + apply (IH _ held false); try done. simpl. lia.
    + destruct (l_tasks s !! w) as [[c'|k'|k'|k'|a']|] eqn:Hw;
        try (apply (IH _ held false); try done; simpl; lia).
      destruct (decide (w = i)) as [->|Hne].
      * apply (IH _ held false); simpl; try done.
        -- by rewrite length_insert.
        -- intros j hj tj Hj Hhj Htj. rewrite list_lookup_insert_ne in Htj by done.
           by apply (Hothers j).
        -- lia.
      * assert (w < length held)%nat as Hwlt by (rewrite Hlen; by eapply lookup_lt_Some).
        destruct (lookup_lt_is_Some_2 held w Hwlt) as [hw Hhw].
        destruct (Hothers w hw (Queued k') Hne Hhw Hw) as [-> Hk'].
        apply (IH _ (<[w := true]> held) false); simpl; try done.
        -- by rewrite !length_insert.
        -- by rewrite length_insert.
        -- intros j hj tj Hj Hhj Htj. destruct (decide (w = j)) as [<-|Hwj].
           ++ rewrite list_lookup_insert_eq in Hhj by done.
              rewrite list_lookup_insert_eq in Htj by (by rewrite <- Hlen).
              by simplify_eq.
           ++ rewrite list_lookup_insert_ne in Hhj by done.
              rewrite list_lookup_insert_ne in Htj by done. by apply (Hothers j).
        -- rewrite list_insert_insert_ne by done.
           assert (<[i := false]> held !! w = Some false) as Hw'
             by (by rewrite list_lookup_insert_ne).
           pose proof (permits_held_insert (<[i := false]> held) w false true Hw') as Hhand.
           simpl in Hhand. lia.
  - by apply (IH _ _ held h).
  - by apply (IH _ held h).
  - destruct Hc as [-> Hk]. exists (<[i := true]> held). split; [|done]. simpl.
    by apply Forall2_task_holds_insert.
  - destruct Hc as [-> Hk]. exists (<[i := true]> held). split; [|done]. simpl.
    by apply Forall2_task_holds_insert.
Qed.

Lemma step_semaphore_bounded {A} (s : loop A) ev :
  semaphore_bounded s → semaphore_bounded (step s ev).
Proof.
  intros (held & Htasks & Hsum).
  assert (∀ i t, l_tasks s !! i = Some t →
            ∀ c, (∀ h, task_holds h t → bracketed h false c) →
                 semaphore_bounded (run i c s)) as Hrun.
  { intros i t Hi c Hc.
    destruct (Forall2_lookup_r _ _ _ _ _ Htasks Hi) as (h & Hh & Ht).
    apply (run_semaphore_bounded i c s held h).
    - by eapply Forall2_length.
    - by eapply lookup_lt_Some.
    - intros j hj tj _ Hhj Htj. by eapply Forall2_lookup_lr.
    - by apply Hc.
    - by rewrite list_insert_id. }
  destruct ev as [i response|i response|i]; simpl;
    destruct (l_tasks s !! i) as [[c|k|k|k|a]|] eqn:Hi; try (by exists held);
    apply (Hrun i _ Hi); simpl.
  - intros h [-> Hk]. apply Hk.
  - intros h [-> Hk]. apply Hk.
  - done.
Qed.

Lemma batch_semaphore_bounded {A} (coroutines : list (coroutine A)) c events :
  Forall (bracketed false false) coroutines →
  semaphore_bounded (batch coroutines c events).
Proof.
  intros Hcoroutines. unfold batch.
  assert (semaphore_bounded (mkLoop c 10%nat [] (Ready <$> coroutines) [])) as Hinit.
  { exists (replicate (length coroutines) false). split; simpl.
    - apply Forall2_fmap_r, Forall2_same_length_lookup_2; [by rewrite length_replicate|].
      intros j h c0 [-> _]%lookup_replicate Hc0. simpl.
      rewrite Forall_forall in Hcoroutines. apply Hcoroutines.
      by eapply list_elem_of_lookup_2.
    - unfold permits_held. clear. induction (length coroutines); simpl; lia. }
  assert (∀ (s : loop A) evs, semaphore_bounded s → semaphore_bounded (foldl step s evs)) as Hfold.
  { intros s evs. revert s. induction evs as [|ev evs IH]; intros s Hs; simpl; [done|].
    by apply IH, step_semaphore_bounded. }
  assert (∀ (s : loop A) l, semaphore_bounded s →
            semaphore_bounded (foldl (fun s i => step s (Resume i)) s l)) as Hstart.
  { intros s l. revert s. induction l as [|i l IH]; intros s Hs; [done|].
    cbn [foldl]. by apply IH, (step_semaphore_bounded s (Resume i)). }
  by apply Hfold, Hstart.
Qed.

Lemma in_flight_bounded {A} (s : loop A) : semaphore_bounded s → (in_flight s ≤ 10)%nat.
Proof.
  intros (held & Htasks & Hsum). unfold in_flight.
  assert (length (List.filter awaits_response (l_tasks s)) ≤ permits_held held)%nat; [|lia].
  unfold permits_held. clear Hsum. induction Htasks as [|h t held tasks Ht _ IH]; simpl; [done|].
  destruct t as [c|k|k|k|a]; simpl in *; destruct h; simpl; try lia; by destruct Ht.
Qed.

(** X11. At no moment of a batch of [update_programmes_concurrently] are
    more than ten requests on their way. *)
Theorem at_most_ten_requests_in_flight settings programmes c events :
  (in_flight (batch (update_wrapper settings <$> programmes) c events) ≤ 10)%nat ∧
  update_programmes_concurrently settings programmes c events =
    match gathered (batch (update_wrapper settings <$> programmes) c events) with
    | Some updated =>
        Some (updated,
              l_cache (batch (update_wrapper settings <$> programmes) c events),
              l_calls (batch (update_wrapper settings <$> programmes) c events))
    | None => None
    end.
Proof.
  split; [|reflexivity].
  apply in_flight_bounded, batch_semaphore_bounded, Forall_fmap, Forall_forall.
  intros programme _. apply bracketed_update_wrapper.
Qed.

(** The example of X11: eleven programmes without subtitle, description and
    icon; ten requests are sent at once and the eleventh task waits for a
    permit. *)
Lemma at_most_ten_requests_in_flight_witness :
  in_flight (batch (update_wrapper EnrichmentExample.tmdb_only
                      <$> replicate 11 EnrichmentExample.news_at_noon) empty_cache []) = 10%nat ∧
  l_waiters (batch (update_wrapper EnrichmentExample.tmdb_only
                      <$> replicate 11 EnrichmentExample.news_at_noon) empty_cache []) = [10%nat] ∧
  (in_flight (batch (update_wrapper EnrichmentExample.tmdb_only
                       <$> replicate 11 EnrichmentExample.news_at_noon) empty_cache
                    [TmdbArrives 0 EnrichmentExample.found_nothing; Resume 10]) ≤ 10)%nat.
Proof.
  split; [by vm_compute|]. split; [by vm_compute|].
  apply (at_most_ten_requests_in_flight EnrichmentExample.tmdb_only
           (replicate 11 EnrichmentExample.news_at_noon) empty_cache
           [TmdbArrives 0 EnrichmentExample.found_nothing; Resume 10]).
Defined.

(** X12. A look-up that ends in an exception caches nothing, so that the
    next look-up of the title asks again: a request that fails, an image
    page with a single [<img>], of which the code wants the second, and an
    image page whose second [<img>] has no [src]. In a batch, the programme
    of such a look-up is returned as it was. *)
Theorem failed_lookups_are_not_cached api_key title c :
  cached_tmdb c title = None →
  cached_google_images c title = None →
  gather [search_tmdb_for_movie api_key title] c [TmdbArrives 0 TmdbFailed]
    = Some ([Raise ClientError], init_tmdb c, [TmdbSearch api_key title]) ∧
  cached_tmdb (init_tmdb c) title = None ∧
  gather [search_google_images title] c [GoogleArrives 0 GoogleFailed]
    = Some ([Raise ClientError], init_google_images c, [GoogleSearch title]) ∧
  (∀ image,
     gather [search_google_images title] c [GoogleArrives 0 (GoogleStatus 200 [image])]
     = Some ([Raise IndexError], init_google_images c, [GoogleSearch title])) ∧
  (∀ first rest,
     gather [search_google_images title] c
            [GoogleArrives 0 (GoogleStatus 200 (first :: None :: rest))]
     = Some ([Raise KeyError], init_google_images c, [GoogleSearch title])) ∧
  cached_google_images (init_google_images c) title = None ∧
  (∀ settings programme categories image,
     EpgChannelProgrammes.title programme = title →
     EpgChannelProgrammes.categories programme = Some categories →
     Py.truthy (EpgChannelProgrammes.icon_url programme) = false →
     enable_tmdb_metadata settings = false →
     enable_google_image_search_metadata settings = true →
     update_programmes_concurrently settings [programme] c
       [GoogleArrives 0 (GoogleStatus 200 [image])]
     = Some ([(programme, Some IndexError)], init_google_images c, [GoogleSearch title])).
Proof.
  intros Htmdb Hgoogle.
  assert (∀ response,
            gather [search_google_images title] c [GoogleArrives 0 response] =
            match response with
            | GoogleFailed => Some ([Raise ClientError], init_google_images c, [GoogleSearch title])
            | GoogleStatus status images =>
                match (if status =? 200 then images else []) with
                | [] => Some ([Ok None], store_google_images title None (init_google_images c),
                              [GoogleSearch title])
                | [_] => Some ([Raise IndexError], init_google_images c, [GoogleSearch title])
                | _ :: None :: _ =>
                    Some ([Raise KeyError], init_google_images c, [GoogleSearch title])
                | _ :: Some image_url :: _ =>
                    Some ([Ok (Some image_url)],
                          store_google_images title (Some image_url) (init_google_images c),
                          [GoogleSearch title])
                end
            end) as Hlookup.
  { intros response. unfold gather, start, search_google_images, with_semaphore. simpl.
    rewrite cached_google_images_init, Hgoogle. simpl.
    destruct response as [|status images]; [done|].
    by destruct (if status =? 200 then images else []) as [|first [|[second|] rest]]. }
  split; [|split; [|split; [|split; [|split; [|split]]]]].
  - unfold gather, start, search_tmdb_for_movie, with_semaphore. simpl.
    by rewrite cached_tmdb_init, Htmdb.
  - by rewrite cached_tmdb_init.
  - apply (Hlookup GoogleFailed).
  - intros image. apply (Hlookup (GoogleStatus 200 [image])).
  - intros first rest. apply (Hlookup (GoogleStatus 200 (first :: None :: rest))).
  - by rewrite cached_google_images_init.
  - intros settings programme categories image <- Hcategories Hicon Hoff Hon.
    unfold update_programmes_concurrently.
    change (update_wrapper settings <$> [programme]) with [update_wrapper settings programme].
    unfold update_wrapper. rewrite Hcategories.
    unfold update_programme_with_online_data. rewrite Hoff, andb_false_r.
    cbn [cbind]. rewrite Hicon, Hon. cbn [negb andb].
    unfold gather, start, search_google_images, with_semaphore. simpl.
    rewrite cached_google_images_init, Hgoogle. by simpl.
Qed.

(** The example of X12: the image page for the title Weather has a single
    image. *)
Lemma failed_lookups_are_not_cached_witness :
  update_programmes_concurrently EnrichmentExample.google_only [EnrichmentExample.described]
    empty_cache [GoogleArrives 0 (GoogleStatus 200 [Some "http://images/logo.png"])]
  = Some ([(EnrichmentExample.described, Some IndexError)], init_google_images empty_cache,
          [GoogleSearch (Some "Weather")]) ∧
  cached_google_images (init_google_images empty_cache) (Some "Weather") = None.
Proof.
  destruct (failed_lookups_are_not_cached "" (Some "Weather") empty_cache eq_refl eq_refl)
    as (_ & _ & _ & _ & _ & Hnone & Hbatch).
  split; [|exact Hnone].
  by apply (Hbatch EnrichmentExample.google_only EnrichmentExample.described ["News"]).
Defined.

(** ** The enrichment of the stored programmes *)

Lemma enriched_refl p : enriched p p.
Proof. split; [done|apply set_three_eta]. Qed.

Lemma enriched_fields p p' :
  enriched p p' →
  EpgChannelProgrammes.id p' = EpgChannelProgrammes.id p ∧
  EpgChannelProgrammes.title p' = EpgChannelProgrammes.title p ∧
  (Py.truthy (EpgChannelProgrammes.icon_url p') = false →
   Py.truthy (EpgChannelProgrammes.icon_url p) = false).
Proof.
  intros [Hicon Hframe]. split; [by rewrite Hframe|]. split; [by rewrite Hframe|].
  intros Hp'. destruct (Py.truthy (EpgChannelProgrammes.icon_url p)) eqn:Hp; [|done].
  rewrite (Hicon eq_refl) in Hp'. congruence.
Qed.

Lemma set_three_twice p s1 d1 i1 s2 d2 i2 :
  EpgChannelProgrammes.set_icon_url i2
    (EpgChannelProgrammes.set_desc d2
       (EpgChannelProgrammes.set_sub_title s2
          (EpgChannelProgrammes.set_icon_url i1
             (EpgChannelProgrammes.set_desc d1 (EpgChannelProgrammes.set_sub_title s1 p))))) =
  EpgChannelProgrammes.set_icon_url i2
    (EpgChannelProgrammes.set_desc d2 (EpgChannelProgrammes.set_sub_title s2 p)).
Proof. by destruct p. Qed.

Lemma enriched_trans p p' p'' : enriched p p' → enriched p' p'' → enriched p p''.
Proof.
  intros [Hicon Hframe] [Hicon' Hframe']. split.
  - intros Hp. rewrite (Hicon Hp) in *. by apply Hicon'.
  - etrans; [exact Hframe'|]. rewrite Hframe. apply set_three_twice.
Qed.

Lemma returns_update_wrapper_enriched settings p p' e :
  returns (update_wrapper settings p) (p', e) → enriched p p'.
Proof.
  intros [->|[(Hlacks & tmdb_data & ->)|(Hicon & image_url & ->)]]%returns_update_wrapper.
  - apply enriched_refl.
  - split; [|apply apply_tmdb_data_frame].
    apply lacks_all_icon_url in Hlacks. congruence.
  - split; [congruence|by destruct p].
Qed.

(** What a batch does to its programmes and which requests it sends. *)
Lemma update_programmes_concurrently_enriched settings programmes c events updated c' sent :
  update_programmes_concurrently settings programmes c events = Some (updated, c', sent) →
  Forall2 enriched programmes updated.*1 ∧
  ∀ r, r ∈ sent →
       ∃ p, p ∈ programmes ∧ Py.truthy (EpgChannelProgrammes.icon_url p) = false ∧
            (r = TmdbSearch (tmdb_api_key settings) (EpgChannelProgrammes.title p) ∨
             r = GoogleSearch (EpgChannelProgrammes.title p)).
Proof.
  unfold update_programmes_concurrently. intros [Hreturns Hsends]%gather_sound. split.
  - rewrite Forall2_fmap_l in Hreturns. apply Forall2_fmap_r.
    eapply Forall2_impl; [exact Hreturns|]. intros p [p' e]. simpl.
    apply returns_update_wrapper_enriched.
  - intros r Hr. destruct (Hsends r Hr) as (c0 & Hc0 & Hsend).
    apply list_elem_of_fmap in Hc0 as (p & -> & Hp). exists p. split; [done|].
    apply sends_update_wrapper in Hsend as [(Hlacks & _ & ->)|(Hicon & _ & ->)]; [|auto].
    apply lacks_all_icon_url in Hlacks. auto.
Qed.

(** Saving the programmes of a batch leaves the table with the same rows,
    enriched. *)
Lemma save_updated_enriched programmes updated d :
  NoDup (EpgChannelProgrammes.id <$> epg_channel_programmes d) →
  (∀ p, p ∈ programmes → p ∈ epg_channel_programmes d) →
  Forall2 enriched programmes updated →
  Forall2 enriched (epg_channel_programmes d) (epg_channel_programmes (save_updated updated d)).
Proof.
  intros Hids Hsub Hupdated. unfold save_updated. simpl.
  apply Forall2_fmap_r, Forall_Forall2_diag, Forall_forall. intros p Hp.
  unfold compose. cbv beta.
  match goal with
  | |- context [head ?l] => destruct (head l) as [u|] eqn:Hu
  end; simpl; [|apply enriched_refl].
  apply head_Some_elem_of, list_elem_of_filter in Hu as [Hid Hu].
  destruct (Forall2_elem_of_r _ _ _ _ Hupdated Hu) as (q & Hq & Hqu).
  destruct (enriched_fields _ _ Hqu) as (Hqid & _).
  assert (q = p) as ->; [|done].
  apply (NoDup_fmap_inj EpgChannelProgrammes.id (epg_channel_programmes d)); auto.
  congruence.
Qed.

Lemma Forall2_enriched_ids table table' :
  Forall2 enriched table table' →
  EpgChannelProgrammes.id <$> table' = EpgChannelProgrammes.id <$> table.
Proof.
  induction 1 as [|p p' l l' Hp _ IH]; [done|].
  rewrite !fmap_cons, IH. f_equal. by apply enriched_fields.
Qed.

Lemma Forall2_enriched_trans table table' table'' :
  Forall2 enriched table table' → Forall2 enriched table' table'' →
  Forall2 enriched table table''.
Proof.
  intros H. revert table''. induction H as [|p p' l l' Hp _ IH]; intros table'' H'.
  - by inversion H'.
  - inversion H' as [|? p'' ? l'' Hp' Hl']; subst. constructor; [|by apply IH].
    by apply (enriched_trans p p').
Qed.

Lemma update_channels_enriched settings results events c d calls d' c' calls' :
  NoDup (EpgChannelProgrammes.id <$> epg_channel_programmes d) →
  update_channels settings results events c d calls = Some (d', c', calls') →
  epgs d' = epgs d ∧ epg_channels d' = epg_channels d ∧ channels d' = channels d ∧
  Forall2 enriched (epg_channel_programmes d) (epg_channel_programmes d') ∧
  ∀ r, r ∈ calls' →
       r ∈ calls ∨
       ∃ p, p ∈ epg_channel_programmes d ∧
            Py.truthy (EpgChannelProgrammes.icon_url p) = false ∧
            (r = TmdbSearch (tmdb_api_key settings) (EpgChannelProgrammes.title p) ∨
             r = GoogleSearch (EpgChannelProgrammes.title p)).
Proof.
  revert events c d calls.
  induction results as [|result rest IH]; intros events c d calls Hids; simpl.
  - intros [= <- <- <-]. repeat split; try done.
    + apply Forall_Forall2_diag, Forall_forall. intros p _. apply enriched_refl.
    + by left.
  - destruct (update_programmes_concurrently _ _ _ _) as [[[updated c1] sent]|] eqn:Hbatch;
      [|done].
    apply update_programmes_concurrently_enriched in Hbatch as [Hupdated Hsent].
    assert (∀ p, p ∈ db_programmes_query d result → p ∈ epg_channel_programmes d) as Hsub.
    { intros p. unfold db_programmes_query. rewrite order_by_Permutation.
      by intros [_ ?]%list_elem_of_filter. }
    pose proof (save_updated_enriched _ _ d Hids Hsub Hupdated) as Hsaved.
    intros (Hepgs & Hchannels & Hout & Hrest & Hcalls)%IH;
      [|by rewrite (Forall2_enriched_ids _ _ Hsaved)].
    split; [done|]. split; [done|]. split; [done|]. split.
    + by apply (Forall2_enriched_trans _ _ _ Hsaved).
    + intros r [[Hr|Hr]%elem_of_app|(p' & Hp' & Hicon' & Hr)]%Hcalls.
      * by left.
      * right. destruct (Hsent r Hr) as (p & Hp & Hicon & Hr'). exists p. auto.
      * right. destruct (Forall2_elem_of_r _ _ _ _ Hsaved Hp') as (p & Hp & Hpp').
        destruct (enriched_fields _ _ Hpp') as (_ & Htitle & Hicon).
        exists p. rewrite <- Htitle. auto.
Qed.

(** X13. [update_channel_epg_with_online_data] changes nothing but the
    stored programmes, and of these it keeps every row, in its place: a
    programme that has an icon is left as it is, and of the others nothing
    changes but subtitle, description and icon. Every request it sends is
    for the title of a stored programme that had no icon. With both
    switches off it sends nothing and changes nothing. *)
Theorem enrichment_fills_three_fields settings events d d' calls :
  NoDup (EpgChannelProgrammes.id <$> epg_channel_programmes d) →
  update_channel_epg_with_online_data settings events d = Some (d', calls) →
  epgs d' = epgs d ∧ epg_channels d' = epg_channels d ∧ channels d' = channels d ∧
  Forall2 enriched (epg_channel_programmes d) (epg_channel_programmes d') ∧
  (∀ r, r ∈ calls →
        ∃ p, p ∈ epg_channel_programmes d ∧
             Py.truthy (EpgChannelProgrammes.icon_url p) = false ∧
             (r = TmdbSearch (tmdb_api_key settings) (EpgChannelProgrammes.title p) ∨
              r = GoogleSearch (EpgChannelProgrammes.title p))) ∧
  (enable_tmdb_metadata settings = false →
   enable_google_image_search_metadata settings = false → d' = d ∧ calls = []).
Proof.
  intros Hids. unfold update_channel_epg_with_online_data.
  destruct (enable_tmdb_metadata settings || enable_google_image_search_metadata settings)
    eqn:Hon.
  - destruct (update_channels _ _ _ _ _ _) as [[[d1 c1] calls1]|] eqn:Hloop; [|done].
    intros [= <- <-].
    apply update_channels_enriched in Hloop as (? & ? & ? & ? & Hcalls); [|done].
    split; [done|]. split; [done|]. split; [done|]. split; [done|]. split.
    + intros r [?%elem_of_nil|?]%Hcalls; done.
    + intros Htmdb Hgoogle. by rewrite Htmdb, Hgoogle in Hon.
  - intros [= <- <-].
    split; [done|]. split; [done|]. split; [done|]. split; [|split; [|done]].
    + apply Forall_Forall2_diag, Forall_forall. intros p _. apply enriched_refl.
    + by intros r ?%elem_of_nil.
Qed.

(** The example of X13: the stage runs over [Example.stored] with TMDB
    alone; channel 5 has no programme, and of the two programmes of channel
    101 TMDB knows the first. *)
Lemma enrichment_fills_three_fields_witness :
  ∃ d',
    update_channel_epg_with_online_data EnrichmentExample.tmdb_only
      [[]; [TmdbArrives 0 EnrichmentExample.found_news;
            TmdbArrives 1 EnrichmentExample.found_nothing]]
      Example.stored
    = Some (d', [TmdbSearch "key" (Some "News"); TmdbSearch "key" (Some "Weather")]) ∧
    Forall2 enriched [Example.weather; Example.news] (epg_channel_programmes d') ∧
    EpgChannelProgrammes.desc <$> epg_channel_programmes d' = [None; Some "The news."].
Proof.
  destruct (update_channel_epg_with_online_data EnrichmentExample.tmdb_only
              [[]; [TmdbArrives 0 EnrichmentExample.found_news;
                    TmdbArrives 1 EnrichmentExample.found_nothing]]
              Example.stored) as [[d' calls]|] eqn:E; [|by vm_compute in E].
  assert (NoDup (EpgChannelProgrammes.id <$> epg_channel_programmes Example.stored)) as Hids.
  { apply (bool_decide_unpack _). vm_compute. exact I. }
  destruct (enrichment_fills_three_fields _ _ _ _ _ Hids E) as (_ & _ & _ & Hrows & _).
  exists d'. vm_compute in E. injection E as <- <-.
  split; [reflexivity|]. split; [exact Hrows|reflexivity].
Defined.

(** ** A programme, from the document of a source to the merged guide *)

(** The row [programme_row] gives, when it gives one, in place of the
    variable [r] of a hypothesis [H : programme_row _ _ _ = Ok r]. *)
Ltac programme_row_Ok H :=
  unfold programme_row in H; cbv zeta in H;
  destruct (child_is_yes (ET.find _ "video") "present") as [?video_present|] eqn:?Hvideo_present;
    [|discriminate H];
  destruct (child_is_yes (ET.find _ "video") "colour") as [?video_colour|] eqn:?Hvideo_colour;
    [|discriminate H];
  destruct (child_is_yes (ET.find _ "audio") "present") as [?audio_present|] eqn:?Haudio_present;
    [|discriminate H];
  cbn [rbind] in H; injection H as <-.

Lemma filter_tagged_if name tag l :
  tagged name l →
  List.filter (ET.has_tag tag) l = if String.eqb name tag then l else [].
Proof.
  intros Hl. destruct (String.eqb name tag) eqn:Hname.
  - apply String.eqb_eq in Hname as <-. by apply filter_tagged_eq.
  - by apply (filter_tagged_ne name).
Qed.

(** The children of a programme element with a given tag: each piece of
    [programme_children] is kept or dropped as a whole. *)
Ltac findall_programme_elem :=
  unfold ET.findall, programme_elem, ET.elem, ET.children, programme_children;
  rewrite !List.filter_app;
  repeat match goal with
    | |- context [List.filter (ET.has_tag ?tag) ?piece] =>
        rewrite (filter_tagged_if _ tag piece) by (eauto with tagged)
    end;
  cbn [String.eqb Ascii.eqb Bool.eqb app];
  rewrite ?app_nil_r.

Lemma assoc_app key a b :
  ET.assoc key (a ++ b) = match ET.assoc key a with
                          | Some v => Some v
                          | None => ET.assoc key b
                          end.
Proof.
  induction a as [|[k v] a IH]; simpl; [done|]. by destruct (String.eqb k key).
Qed.

Lemma assoc_attr key k v :
  ET.assoc key (attr k v) =
  if String.eqb k key then (if Py.truthy v then v else None) else None.
Proof.
  destruct v as [[|c s]|]; simpl; try by destruct (String.eqb k key).
Qed.

Lemma findtext_child e name v :
  ET.findall e name = child name v → ET.findtext e name = v.
Proof. unfold ET.findtext, ET.find. intros ->. by destruct v. Qed.

Lemma findtext_truthy_child e name v :
  ET.findall e name = truthy_child name v →
  ET.findtext e name = if Py.truthy v then v else None.
Proof. unfold ET.findtext, ET.find. intros ->. by destruct v as [[|c s]|]. Qed.

Lemma programme_row_texts epg_channel_id channel_id programme r :
  programme_row epg_channel_id channel_id programme = Ok r →
  EpgChannelProgrammes.title r = ET.findtext programme "title" ∧
  EpgChannelProgrammes.sub_title r = ET.findtext programme "sub-title" ∧
  EpgChannelProgrammes.desc r = ET.findtext programme "desc" ∧
  EpgChannelProgrammes.series_desc r = ET.findtext programme "series-desc" ∧
  EpgChannelProgrammes.country r = ET.findtext programme "country" ∧
  EpgChannelProgrammes.url r = ET.findtext programme "url" ∧
  EpgChannelProgrammes.date r = ET.findtext programme "date".
Proof. intros H. programme_row_Ok H. by repeat split. Qed.

Lemma programme_row_times epg_channel_id channel_id programme r :
  programme_row epg_channel_id channel_id programme = Ok r →
  EpgChannelProgrammes.start r = ET.get programme "start" ∧
  EpgChannelProgrammes.stop r = ET.get programme "stop" ∧
  EpgChannelProgrammes.start_timestamp r = ET.get programme "start_timestamp" ∧
  EpgChannelProgrammes.stop_timestamp r = ET.get programme "stop_timestamp".
Proof. intros H. programme_row_Ok H. by repeat split. Qed.

(** X14. What the merged guide keeps of the texts and times of a programme
    of a source document: the title, sub-title, description, series
    description and country are those of the document, an empty element
    staying an empty element; the url and the date are kept unless they are
    empty; so are the attributes [start], [stop], [start_timestamp] and
    [stop_timestamp]; the [channel] attribute is the one of the output
    channel, whatever the document has. *)
Theorem programme_texts_round_trip epg_channel_id channel_id programme r channel tags :
  programme_row epg_channel_id channel_id programme = Ok r →
  let output_programme := programme_elem channel tags r in
  (∀ name, name ∈ ["title"; "sub-title"; "desc"; "series-desc"; "country"] →
           ET.findtext output_programme name = ET.findtext programme name) ∧
  (∀ name, name ∈ ["url"; "date"] →
           ET.findtext output_programme name =
           if Py.truthy (ET.findtext programme name) then ET.findtext programme name else None) ∧
  (∀ key, key ∈ ["start"; "stop"; "start_timestamp"; "stop_timestamp"] →
          ET.get output_programme key =
          if Py.truthy (ET.get programme key) then ET.get programme key else None) ∧
  ET.get output_programme "channel" = Some channel.
Proof.
  intros H output_programme. subst output_programme.
  destruct (programme_row_texts _ _ _ _ H)
    as (Htitle & Hsub_title & Hdesc & Hseries_desc & Hcountry & Hurl & Hdate).
  destruct (programme_row_times _ _ _ _ H) as (Hstart & Hstop & Hstart_ts & Hstop_ts).
  split; [|split; [|split]].
  - intros name Hname.
    repeat (apply elem_of_cons in Hname as [->|Hname]); [..|by apply elem_of_nil in Hname];
      rewrite <- ?Htitle, <- ?Hsub_title, <- ?Hdesc, <- ?Hseries_desc, <- ?Hcountry;
      apply findtext_child; findall_programme_elem; reflexivity.
  - intros name Hname.
    repeat (apply elem_of_cons in Hname as [->|Hname]); [..|by apply elem_of_nil in Hname];
      rewrite <- ?Hurl, <- ?Hdate;
      apply findtext_truthy_child; findall_programme_elem; reflexivity.
  - intros key Hkey. unfold ET.get at 1, programme_elem, ET.elem, ET.attrib, programme_attrib.
    rewrite !assoc_app, !assoc_attr.
    repeat (apply elem_of_cons in Hkey as [->|Hkey]); [..|by apply elem_of_nil in Hkey];
      rewrite <- ?Hstart, <- ?Hstop, <- ?Hstart_ts, <- ?Hstop_ts;
      simpl;
      match goal with |- context [Py.truthy ?v] => by destruct v as [[|? ?]|] end.
  - unfold ET.get, programme_elem, ET.elem, ET.attrib, programme_attrib.
    rewrite !assoc_app, !assoc_attr. simpl. by repeat destruct (Py.truthy _).
Qed.

(** The example of X14: the news of [Example.guide] as channel 101 of the
    merged guide. *)
Lemma programme_texts_round_trip_witness :
  ∃ r,
    programme_row 1 (Some "bbc1") Example.news_programme = Ok r ∧
    ET.findtext (programme_elem "101" [] r) "title" = ET.findtext Example.news_programme "title" ∧
    ET.findtext Example.news_programme "title" = Some "News" ∧
    ET.get (programme_elem "101" [] r) "start" = ET.get Example.news_programme "start" ∧
    ET.get (programme_elem "101" [] r) "channel" = Some "101".
Proof.
  eexists. split; [reflexivity|].
  destruct (programme_texts_round_trip 1 (Some "bbc1") Example.news_programme _ "101" []
              eq_refl) as (Htext & _ & Hattr & Hchannel).
  split; [apply Htext; by left|].
  split; [reflexivity|].
  split; [|exact Hchannel].
  rewrite (Hattr "start") by (by left). reflexivity.
Defined.

Lemma split_space_app t u :
  Py.split_space (t +:+ " " +:+ u) =
  match Py.split_space t with
  | Some (a, b) => Some (a, b +:+ " " +:+ u)
  | None => Some (t, u)
  end.
Proof.
  induction t as [|c t IH].
  - by rewrite string_app_nil.
  - rewrite string_app_cons. cbn [Py.split_space].
    destruct (Ascii.eqb c " "); [done|].
    rewrite IH. by destruct (Py.split_space t) as [[a b]|].
Qed.

Lemma programme_row_length epg_channel_id channel_id programme r :
  programme_row epg_channel_id channel_id programme = Ok r →
  EpgChannelProgrammes.length r =
    length_elem ← ET.find programme "length";
    if Py.truthy (ET.text length_elem)
    then Some (Py.fmt (ET.text length_elem) +:+ " "
               +:+ default "minutes" (ET.get length_elem "units"))
    else None.
Proof. intros H. programme_row_Ok H. reflexivity. Qed.

Lemma findall_length channel tags p :
  ET.findall (programme_elem channel tags p) "length" =
  length_elems (EpgChannelProgrammes.length p).
Proof. findall_programme_elem. reflexivity. Qed.

(** X15. The [<length>] of a programme, from the document to the merged
    guide. A programme without [<length>], or with one that has no text, has
    none in the merged guide. A text without a space comes back as it is,
    with the [units] of the document, or [minutes] when the document gives
    none. A text with a space is cut at its first space: what follows moves
    in front of the units; and when nothing precedes the space the element
    is written with an empty text. *)
Theorem programme_length_round_trip epg_channel_id channel_id programme r channel tags :
  programme_row epg_channel_id channel_id programme = Ok r →
  let output_lengths := ET.findall (programme_elem channel tags r) "length" in
  match ET.find programme "length" with
  | None => output_lengths = []
  | Some length_child =>
      let units := default "minutes" (ET.get length_child "units") in
      match ET.text length_child with
      | None | Some "" => output_lengths = []
      | Some text =>
          match Py.split_space text with
          | None => output_lengths = [ET.elem "length" [("units", units)] (Some text) []]
          | Some (before, after) =>
              output_lengths =
              [ET.elem "length" [("units", after +:+ " " +:+ units)] (Some before) []]
          end
      end
  end.
Proof.
  intros H output_lengths. subst output_lengths.
  rewrite findall_length, (programme_row_length _ _ _ _ H).
  destruct (ET.find programme "length") as [length_child|]; [|done].
  cbn [mbind option_bind].
  destruct (ET.text length_child) as [[|c text]|]; [done| |done].
  cbn [Py.truthy Py.fmt default].
  set (t := String c text). set (units := default "minutes" _).
  assert (Py.truthy (Some (t +:+ " " +:+ units)) = true) as Ht by done.
  unfold length_elems, id. rewrite Ht. cbn [when]. unfold length_elem.
  rewrite split_space_app. by destruct (Py.split_space t) as [[before after]|].
Qed.

(** The example of X15: ninety minutes, with and without the unit. *)
Lemma programme_length_round_trip_witness :
  let timed text a :=
    ET.mkElement "programme" [("channel", "ch1")] None [ET.mkElement "length" a (Some text) []] in
  ∃ r1 r2 r3,
    programme_row 1 (Some "ch1") (timed "90" []) = Ok r1 ∧
    ET.findall (programme_elem "101" [] r1) "length" =
      [ET.elem "length" [("units", "minutes")] (Some "90") []] ∧
    programme_row 1 (Some "ch1") (timed "1 h" [("units", "hours")]) = Ok r2 ∧
    ET.findall (programme_elem "101" [] r2) "length" =
      [ET.elem "length" [("units", "h hours")] (Some "1") []] ∧
    programme_row 1 (Some "ch1") (timed "" [("units", "hours")]) = Ok r3 ∧
    ET.findall (programme_elem "101" [] r3) "length" = [].
Proof.
  intros timed. eexists _, _, _.
  split; [reflexivity|].
  split; [exact (programme_length_round_trip 1 (Some "ch1") (timed "90" []) _ "101" [] eq_refl)|].
  split; [reflexivity|].
  split; [exact (programme_length_round_trip 1 (Some "ch1") (timed "1 h" [("units", "hours")])
                   _ "101" [] eq_refl)|].
  split; [reflexivity|].
  exact (programme_length_round_trip 1 (Some "ch1") (timed "" [("units", "hours")])
           _ "101" [] eq_refl).
Defined.

Lemma default_dumps_nonempty {A} (l : list A) : default [] (dumps_nonempty l) = l.
Proof. by destruct l. Qed.

Lemma texts_truthy parent name :
  Forall (fun t => Py.truthy (Some t) = true) (texts parent name).
Proof.
  unfold texts. induction (ET.findall parent name) as [|e l IH]; simpl; [constructor|].
  destruct (ET.text e) as [[|c t]|]; simpl; try done. by constructor.
Qed.

Lemma programme_row_lists epg_channel_id channel_id programme r :
  programme_row epg_channel_id channel_id programme = Ok r →
  EpgChannelProgrammes.categories r = dumps_nonempty (texts programme "category") ∧
  EpgChannelProgrammes.keywords r = dumps_nonempty (texts programme "keyword") ∧
  EpgChannelProgrammes.credits r = dumps_nonempty (parse_credits programme).
Proof. intros H. programme_row_Ok H. by repeat split. Qed.

Lemma findall_keyword channel tags p :
  ET.findall (programme_elem channel tags p) "keyword" =
  category_elem "keyword" ∘ Some <$> default [] (EpgChannelProgrammes.keywords p).
Proof. findall_programme_elem. reflexivity. Qed.

Lemma findall_category channel tags p :
  ET.findall (programme_elem channel tags p) "category" =
  (category_elem "category" ∘ Some <$> default [] (EpgChannelProgrammes.categories p)) ++
  (category_elem "category" <$> tags).
Proof. findall_programme_elem. reflexivity. Qed.

(** The texts of elements made of non-empty texts. *)
Lemma omap_text_category_elem name (l : list string) :
  Forall (fun t => Py.truthy (Some t) = true) l →
  omap (fun e => if Py.truthy (ET.text e) then ET.text e else None)
       (category_elem name ∘ Some <$> l) = l.
Proof.
  induction 1 as [|t l Ht _ IH]; [done|].
  rewrite fmap_cons. cbn [omap list_omap compose category_elem ET.elem ET.text].
  rewrite Ht. cbn [omap list_omap] in IH. by rewrite IH.
Qed.

Lemma texts_keyword_round_trip epg_channel_id channel_id programme r channel tags :
  programme_row epg_channel_id channel_id programme = Ok r →
  texts (programme_elem channel tags r) "keyword" = texts programme "keyword".
Proof.
  intros H. destruct (programme_row_lists _ _ _ _ H) as (_ & Hkeywords & _).
  unfold texts at 1. rewrite findall_keyword, Hkeywords, default_dumps_nonempty.
  apply omap_text_category_elem, texts_truthy.
Qed.

Lemma texts_category_round_trip epg_channel_id channel_id programme r channel tags :
  programme_row epg_channel_id channel_id programme = Ok r →
  texts (programme_elem channel tags r) "category" =
  texts programme "category" ++ omap (fun tag => if Py.truthy tag then tag else None) tags.
Proof.
  intros H. destruct (programme_row_lists _ _ _ _ H) as (Hcategories & _ & _).
  unfold texts at 1. rewrite findall_category, Hcategories, default_dumps_nonempty.
  rewrite omap_app. f_equal; [apply omap_text_category_elem, texts_truthy|].
  clear. induction tags as [|tag tags IH]; [done|].
  rewrite fmap_cons. cbn [omap list_omap category_elem ET.elem ET.text].
  cbn [omap list_omap] in IH. by rewrite IH.
Qed.

(** X16. The categories and keywords of a programme, from the document to
    the merged guide. The keywords of the merged guide are the non-empty
    keyword texts of the document, in order; its categories are the
    non-empty category texts of the document, in order, followed by the tags
    of the output channel, one element for each tag, named or not. Every one
    of these elements is marked [lang="en"], whatever the document says, and
    reading the merged guide back gives the keywords of the document, and
    its categories followed by the tags that have a name. *)
Theorem programme_categories_round_trip epg_channel_id channel_id programme r channel tags :
  programme_row epg_channel_id channel_id programme = Ok r →
  let output_programme := programme_elem channel tags r in
  ET.findall output_programme "keyword" =
    (fun t => ET.elem "keyword" [("lang", "en")] (Some t) []) <$> texts programme "keyword" ∧
  ET.findall output_programme "category" =
    ((fun t => ET.elem "category" [("lang", "en")] (Some t) []) <$> texts programme "category") ++
    ((fun tag => ET.elem "category" [("lang", "en")] tag []) <$> tags) ∧
  texts output_programme "keyword" = texts programme "keyword" ∧
  texts output_programme "category" =
    texts programme "category" ++ omap (fun tag => if Py.truthy tag then tag else None) tags.
Proof.
  intros H output_programme. subst output_programme.
  destruct (programme_row_lists _ _ _ _ H) as (Hcategories & Hkeywords & _).
  rewrite findall_keyword, findall_category, Hcategories, Hkeywords, !default_dumps_nonempty.
  split; [done|]. split; [done|].
  split; [by apply (texts_keyword_round_trip _ _ _ _ _ _ H)|].
  by apply (texts_category_round_trip _ _ _ _ _ _ H).
Qed.

(** The example of X16: a film with an empty category, on a channel with
    two tags, one of them without a name. *)
Lemma programme_categories_round_trip_witness :
  let film :=
    ET.mkElement "programme" [("channel", "ch1")] None
      [ET.mkElement "category" [("lang", "de")] (Some "Film") [];
       ET.mkElement "category" [] None [];
       ET.mkElement "keyword" [] (Some "drama") []] in
  ∃ r,
    programme_row 1 (Some "ch1") film = Ok r ∧
    texts (programme_elem "101" [Some "HD"; None] r) "category" = ["Film"; "HD"] ∧
    length (ET.findall (programme_elem "101" [Some "HD"; None] r) "category") = 3%nat ∧
    texts (programme_elem "101" [Some "HD"; None] r) "keyword" = ["drama"].
Proof.
  intros film. eexists. split; [reflexivity|].
  destruct (programme_categories_round_trip 1 (Some "ch1") film _ "101" [Some "HD"; None]
              eq_refl) as (_ & Hcategory & Hkeywords & Hcategories).
  split; [exact Hcategories|]. split; [by rewrite Hcategory|exact Hkeywords].
Defined.

Lemma findall_credits channel tags p :
  ET.findall (programme_elem channel tags p) "credits" =
  credits_elems (default [] (EpgChannelProgrammes.credits p)).
Proof. findall_programme_elem. reflexivity. Qed.

Lemma omap_text_text_elem name (l : list string) :
  Forall (fun t => Py.truthy (Some t) = true) l →
  omap (fun e => if Py.truthy (ET.text e) then ET.text e else None) (text_elem name <$> l) = l.
Proof.
  induction 1 as [|t l Ht _ IH]; [done|].
  rewrite fmap_cons. cbn [omap list_omap text_elem ET.elem ET.text].
  rewrite Ht. cbn [omap list_omap] in IH. by rewrite IH.
Qed.

Lemma filter_has_tag_text_elem name credit_type (l : list string) :
  List.filter (ET.has_tag name) (text_elem credit_type <$> l) =
  if String.eqb credit_type name then text_elem credit_type <$> l else [].
Proof.
  apply filter_tagged_if. induction l; constructor; done.
Qed.

(** The names of a [<credits>] element written for the entries that
    [parse_credits] makes of the types [credit_types]. *)
Lemma texts_credits credits_elem credit_types name :
  NoDup credit_types →
  texts (ET.elem "credits" [] None
           (mbind (fun '(credit_type, credit_list) => text_elem credit_type <$> credit_list)
                  (omap (fun credit_type =>
                           match texts credits_elem credit_type with
                           | [] => None
                           | credit_list => Some (credit_type, credit_list)
                           end) credit_types))) name =
  if bool_decide (name ∈ credit_types) then texts credits_elem name else [].
Proof.
  unfold texts at 1, ET.findall, ET.elem, ET.children.
  induction 1 as [|credit_type credit_types Hnotin _ IH].
  - done.
  - cbn [omap list_omap].
    assert (match texts credits_elem credit_type with
            | [] => None
            | credit_list => Some (credit_type, credit_list)
            end = None ∧ texts credits_elem credit_type = [] ∨
            match texts credits_elem credit_type with
            | [] => None
            | credit_list => Some (credit_type, credit_list)
            end = Some (credit_type, texts credits_elem credit_type)) as [[-> Hnil]| ->]
      by (destruct (texts credits_elem credit_type); [left|right]; done).
    + cbn [omap list_omap] in IH. rewrite IH.
      destruct (decide (name = credit_type)) as [->|Hne].
      * rewrite (bool_decide_eq_false_2 _ Hnotin), bool_decide_eq_true_2 by left. by rewrite Hnil.
      * apply (f_equal (fun b : bool => if b then _ else _)).
        apply bool_decide_ext. rewrite elem_of_cons. split; [by right|by intros [?|?]].
    + cbn [mbind list_bind]. rewrite List.filter_app, omap_app.
      cbn [omap list_omap] in IH. rewrite IH, filter_has_tag_text_elem.
      destruct (String.eqb credit_type name) eqn:Hname.
      * apply String.eqb_eq in Hname as <-.
        rewrite (bool_decide_eq_false_2 _ Hnotin), bool_decide_eq_true_2 by left.
        rewrite app_nil_r. apply omap_text_text_elem, texts_truthy.
      * apply String.eqb_neq in Hname. cbn [omap list_omap app].
        apply (f_equal (fun b : bool => if b then _ else _)).
        apply bool_decide_ext. rewrite elem_of_cons. split; [by right|by intros [?|?]].
Qed.

Lemma head_credits_elems credits output_credits :
  head (credits_elems credits) = Some output_credits →
  output_credits =
  ET.elem "credits" [] None
    (mbind (fun '(credit_type, credit_list) => text_elem credit_type <$> credit_list) credits).
Proof. destruct credits; [done|]. by intros [= <-]. Qed.

Lemma omap_ext_Forall {A B} (f g : A → option B) l :
  Forall (fun x => f x = g x) l → omap f l = omap g l.
Proof.
  induction 1 as [|x l Hx _ IH]; [done|].
  cbn [omap list_omap] in *. by rewrite Hx, IH.
Qed.

Lemma NoDup_credit_types : NoDup credit_types.
Proof. apply (bool_decide_unpack _). by vm_compute. Qed.

Lemma find_credits channel tags programme epg_channel_id channel_id r :
  programme_row epg_channel_id channel_id programme = Ok r →
  ET.find (programme_elem channel tags r) "credits" =
  head (credits_elems (parse_credits programme)).
Proof.
  intros H. destruct (programme_row_lists _ _ _ _ H) as (_ & _ & Hcredits).
  unfold ET.find. by rewrite findall_credits, Hcredits, default_dumps_nonempty.
Qed.

(** The names the merged guide has for a type of credit. *)
Lemma texts_credits_round_trip epg_channel_id channel_id programme r channel tags
      credits_elem output_credits name :
  programme_row epg_channel_id channel_id programme = Ok r →
  ET.find programme "credits" = Some credits_elem →
  ET.find (programme_elem channel tags r) "credits" = Some output_credits →
  texts output_credits name =
  if bool_decide (name ∈ credit_types) then texts credits_elem name else [].
Proof.
  intros H Hfind.
  rewrite (find_credits _ _ _ _ _ _ H). unfold parse_credits. rewrite Hfind.
  intros ->%head_credits_elems. apply texts_credits, NoDup_credit_types.
Qed.

Lemma parse_credits_round_trip epg_channel_id channel_id programme r channel tags :
  programme_row epg_channel_id channel_id programme = Ok r →
  parse_credits (programme_elem channel tags r) = parse_credits programme.
Proof.
  intros H. unfold parse_credits at 1.
  destruct (ET.find (programme_elem channel tags r) "credits") as [output_credits|] eqn:Hout.
  - destruct (ET.find programme "credits") as [credits_elem|] eqn:Hfind.
    + unfold parse_credits. rewrite Hfind. apply omap_ext_Forall, Forall_forall.
      intros credit_type Hin.
      rewrite (texts_credits_round_trip _ _ _ _ _ _ _ _ _ H Hfind Hout).
      by rewrite bool_decide_eq_true_2.
    + rewrite (find_credits _ _ _ _ _ _ H) in Hout. unfold parse_credits in Hout.
      by rewrite Hfind in Hout.
  - rewrite (find_credits _ _ _ _ _ _ H) in Hout. unfold credits_elems in Hout.
    by destruct (parse_credits programme).
Qed.

(** X17. The credits of a programme, from the document to the merged guide.
    The merged guide has a [<credits>] element exactly when the document
    names somebody of one of the seven types the code knows. For each of
    these types it lists the non-empty names of the document, in their
    order; credits of any other type are left out. Reading the credits back
    from the merged guide gives what was read from the document. *)
Theorem programme_credits_round_trip epg_channel_id channel_id programme r channel tags :
  programme_row epg_channel_id channel_id programme = Ok r →
  let output_programme := programme_elem channel tags r in
  (ET.find output_programme "credits" = None ↔ parse_credits programme = []) ∧
  (∀ credits_elem output_credits name,
     ET.find programme "credits" = Some credits_elem →
     ET.find output_programme "credits" = Some output_credits →
     texts output_credits name =
     if bool_decide (name ∈ credit_types) then texts credits_elem name else []) ∧
  parse_credits output_programme = parse_credits programme.
Proof.
  intros H output_programme. subst output_programme.
  split; [|split].
  - rewrite (find_credits _ _ _ _ _ _ H). unfold credits_elems.
    by destruct (parse_credits programme).
  - intros credits_elem output_credits name.
    by apply (texts_credits_round_trip _ _ _ _ _ _ _ _ _ H).
  - by apply (parse_credits_round_trip _ _ _ _ _ _ H).
Qed.

(** The example of X17: a play with a director named after its actors, a
    composer and an actor without a name. *)
Lemma programme_credits_round_trip_witness :
  let play :=
    ET.mkElement "programme" [("channel", "ch1")] None
      [ET.mkElement "credits" [] None
         [Example.text_node "director" "D. One";
          Example.text_node "actor" "A. Two";
          ET.mkElement "actor" [] None [];
          Example.text_node "composer" "C. Three";
          Example.text_node "actor" "A. Four"]] in
  ∃ r,
    programme_row 1 (Some "ch1") play = Ok r ∧
    parse_credits (programme_elem "101" [] r) = parse_credits play ∧
    parse_credits play = [("actor", ["A. Two"; "A. Four"]); ("director", ["D. One"])] ∧
    ET.children <$> ET.find (programme_elem "101" [] r) "credits" =
      Some [text_elem "actor" "A. Two"; text_elem "actor" "A. Four";
            text_elem "director" "D. One"].
Proof.
  intros play. eexists. split; [reflexivity|].
  split; [|by split].
  exact (proj2 (proj2 (programme_credits_round_trip 1 (Some "ch1") play _ "101" [] eq_refl))).
Defined.

Lemma programme_row_flags epg_channel_id channel_id programme r :
  programme_row epg_channel_id channel_id programme = Ok r →
  child_is_yes (ET.find programme "video") "present" = Ok (EpgChannelProgrammes.video_present r) ∧
  child_is_yes (ET.find programme "video") "colour" = Ok (EpgChannelProgrammes.video_colour r) ∧
  child_is_yes (ET.find programme "audio") "present" = Ok (EpgChannelProgrammes.audio_present r) ∧
  EpgChannelProgrammes.audio_described r =
    match ET.find programme "audio-described" with
    | Some _ => Some true
    | None => None
    end ∧
  EpgChannelProgrammes.is_premiere r = Some (bool_decide (is_Some (ET.find programme "premiere"))) ∧
  EpgChannelProgrammes.is_new r = Some (bool_decide (is_Some (ET.find programme "new"))).
Proof. intros H. programme_row_Ok H. by repeat split. Qed.

Lemma findall_video channel tags p :
  ET.findall (programme_elem channel tags p) "video" =
  group "video" (flag_child "present" (EpgChannelProgrammes.video_present p) ++
                 flag_child "colour" (EpgChannelProgrammes.video_colour p) ++
                 truthy_child "aspect" (EpgChannelProgrammes.video_aspect p) ++
                 truthy_child "quality" (EpgChannelProgrammes.video_quality p)).
Proof. findall_programme_elem. reflexivity. Qed.

Lemma findall_audio channel tags p :
  ET.findall (programme_elem channel tags p) "audio" =
  group "audio" (flag_child "present" (EpgChannelProgrammes.audio_present p) ++
                 truthy_child "stereo" (EpgChannelProgrammes.audio_stereo p)).
Proof. findall_programme_elem. reflexivity. Qed.

Lemma findall_audio_described channel tags p :
  ET.findall (programme_elem channel tags p) "audio-described" =
  when (Py.truthy_bool (EpgChannelProgrammes.audio_described p))
       (ET.elem "audio-described" [] None []).
Proof. findall_programme_elem. reflexivity. Qed.

Lemma findall_premiere channel tags p :
  ET.findall (programme_elem channel tags p) "premiere" =
  when (Py.truthy_bool (EpgChannelProgrammes.is_premiere p)) (ET.elem "premiere" [] None []).
Proof. findall_programme_elem. reflexivity. Qed.

Lemma findall_new channel tags p :
  ET.findall (programme_elem channel tags p) "new" =
  when (Py.truthy_bool (EpgChannelProgrammes.is_new p)) (ET.elem "new" [] None []).
Proof. findall_programme_elem. reflexivity. Qed.

Lemma when_bool_decide_is_Some {A B} (o : option A) (x : B) :
  when (Py.truthy_bool (Some (bool_decide (is_Some o)))) x =
  match o with Some _ => [x] | None => [] end.
Proof.
  destruct o; [by rewrite bool_decide_eq_true_2|].
  rewrite bool_decide_eq_false_2; [done|]. by intros [? ?].
Qed.

(** X18. The flags of a programme, from the document to the merged guide.
    The [<present>] and [<colour>] flags of [<video>] and the [<present>]
    flag of [<audio>] are written as [yes] when the text of the document is
    [yes] in any letter case, as [no] for any other text, and not at all
    when the document has no such element. [<audio-described>],
    [<premiere>] and [<new>] are written once, and empty, when the document
    has at least one, and not otherwise. *)
Theorem programme_flags_round_trip epg_channel_id channel_id programme r channel tags :
  programme_row epg_channel_id channel_id programme = Ok r →
  let output_programme := programme_elem channel tags r in
  (∃ video_present video_colour audio_present,
     child_is_yes (ET.find programme "video") "present" = Ok video_present ∧
     child_is_yes (ET.find programme "video") "colour" = Ok video_colour ∧
     child_is_yes (ET.find programme "audio") "present" = Ok audio_present ∧
     child_text (ET.find output_programme "video") "present" = yes_no <$> video_present ∧
     child_text (ET.find output_programme "video") "colour" = yes_no <$> video_colour ∧
     child_text (ET.find output_programme "audio") "present" = yes_no <$> audio_present) ∧
  (∀ name, name ∈ ["audio-described"; "premiere"; "new"] →
           ET.findall output_programme name =
           match ET.find programme name with
           | Some _ => [ET.elem name [] None []]
           | None => []
           end).
Proof.
  intros H output_programme. subst output_programme.
  destruct (programme_row_flags _ _ _ _ H)
    as (Hvideo_present & Hvideo_colour & Haudio_present & Hdescribed & Hpremiere & Hnew).
  split.
  - exists (EpgChannelProgrammes.video_present r), (EpgChannelProgrammes.video_colour r),
      (EpgChannelProgrammes.audio_present r).
    do 3 (split; [done|]). unfold ET.find at 1 2 3. rewrite findall_video, findall_audio.
    clear. split; [|split].
    + by destruct (EpgChannelProgrammes.video_present r) as [[|]|],
        (EpgChannelProgrammes.video_colour r) as [[|]|],
        (EpgChannelProgrammes.video_aspect r) as [[|??]|],
        (EpgChannelProgrammes.video_quality r) as [[|??]|].
    + by destruct (EpgChannelProgrammes.video_present r) as [[|]|],
        (EpgChannelProgrammes.video_colour r) as [[|]|],
        (EpgChannelProgrammes.video_aspect r) as [[|??]|],
        (EpgChannelProgrammes.video_quality r) as [[|??]|].
    + by destruct (EpgChannelProgrammes.audio_present r) as [[|]|],
        (EpgChannelProgrammes.audio_stereo r) as [[|??]|].
  - intros name Hname.
    repeat (apply elem_of_cons in Hname as [->|Hname]); [..|by apply elem_of_nil in Hname].
    + rewrite findall_audio_described, Hdescribed.
      by destruct (ET.find programme "audio-described").
    + rewrite findall_premiere, Hpremiere. apply when_bool_decide_is_Some.
    + rewrite findall_new, Hnew. apply when_bool_decide_is_Some.
Qed.

(** The example of X18: a programme in colour, [YES] in capitals, with two
    [<new>] elements. *)
Lemma programme_flags_round_trip_witness :
  let show :=
    ET.mkElement "programme" [("channel", "ch1")] None
      [ET.mkElement "video" [] None
         [Example.text_node "colour" "YES"; Example.text_node "present" "true"];
       ET.mkElement "new" [] None [];
       ET.mkElement "new" [] None []] in
  ∃ r,
    programme_row 1 (Some "ch1") show = Ok r ∧
    child_text (ET.find (programme_elem "101" [] r) "video") "colour" = Some "yes" ∧
    child_text (ET.find (programme_elem "101" [] r) "video") "present" = Some "no" ∧
    child_text (ET.find (programme_elem "101" [] r) "audio") "present" = None ∧
    ET.findall (programme_elem "101" [] r) "new" = [ET.elem "new" [] None []] ∧
    ET.findall (programme_elem "101" [] r) "premiere" = [].
Proof.
  intros show. eexists. split; [reflexivity|].
  destruct (programme_flags_round_trip 1 (Some "ch1") show _ "101" [] eq_refl)
    as [(video_present & video_colour & audio_present
         & [= <-] & [= <-] & [= <-] & Hpresent & Hcolour & Haudio) Hflags].
  split; [exact Hcolour|]. split; [exact Hpresent|]. split; [exact Haudio|].
  split; [apply (Hflags "new")|apply (Hflags "premiere")];
    rewrite !elem_of_cons; auto.
Defined.

(** ** The merged guide, ingested again *)

Lemma findall_icon channel tags p :
  ET.findall (programme_elem channel tags p) "icon" =
  icon_elems (EpgChannelProgrammes.icon_url p).
Proof. findall_programme_elem. reflexivity. Qed.

Lemma findall_star_rating channel tags p :
  ET.findall (programme_elem channel tags p) "star-rating" =
  star_rating_elems (EpgChannelProgrammes.star_rating p).
Proof. findall_programme_elem. reflexivity. Qed.

Lemma findall_subtitles channel tags p :
  ET.findall (programme_elem channel tags p) "subtitles" =
  attr_child "subtitles" "type" (EpgChannelProgrammes.subtitles_type p).
Proof. findall_programme_elem. reflexivity. Qed.

Lemma findall_previously_shown channel tags p :
  ET.findall (programme_elem channel tags p) "previously-shown" =
  attr_child "previously-shown" "start" (EpgChannelProgrammes.previously_shown p).
Proof. findall_programme_elem. reflexivity. Qed.

Lemma findall_review channel tags p :
  ET.findall (programme_elem channel tags p) "review" =
  review_elems (EpgChannelProgrammes.review_type p) (EpgChannelProgrammes.review_value p).
Proof. findall_programme_elem. reflexivity. Qed.

Lemma findtext_programme_elem channel tags p :
  let output_programme := programme_elem channel tags p in
  ET.findtext output_programme "title" = EpgChannelProgrammes.title p ∧
  ET.findtext output_programme "sub-title" = EpgChannelProgrammes.sub_title p ∧
  ET.findtext output_programme "desc" = EpgChannelProgrammes.desc p ∧
  ET.findtext output_programme "series-desc" = EpgChannelProgrammes.series_desc p ∧
  ET.findtext output_programme "country" = EpgChannelProgrammes.country p ∧
  ET.findtext output_programme "url" =
    (if Py.truthy (EpgChannelProgrammes.url p) then EpgChannelProgrammes.url p else None) ∧
  ET.findtext output_programme "date" =
    (if Py.truthy (EpgChannelProgrammes.date p) then EpgChannelProgrammes.date p else None).
Proof.
  cbv zeta.
  repeat split;
    [apply findtext_child..|apply findtext_truthy_child|apply findtext_truthy_child];
    findall_programme_elem; reflexivity.
Qed.

Lemma get_programme_elem channel tags p :
  let output_programme := programme_elem channel tags p in
  ET.get output_programme "start" =
    (if Py.truthy (EpgChannelProgrammes.start p) then EpgChannelProgrammes.start p else None) ∧
  ET.get output_programme "stop" =
    (if Py.truthy (EpgChannelProgrammes.stop p) then EpgChannelProgrammes.stop p else None) ∧
  ET.get output_programme "start_timestamp" =
    (if Py.truthy (EpgChannelProgrammes.start_timestamp p)
     then EpgChannelProgrammes.start_timestamp p else None) ∧
  ET.get output_programme "stop_timestamp" =
    (if Py.truthy (EpgChannelProgrammes.stop_timestamp p)
     then EpgChannelProgrammes.stop_timestamp p else None) ∧
  ET.get output_programme "channel" = Some channel.
Proof.
  cbv zeta. unfold ET.get, programme_elem, ET.elem, ET.attrib, programme_attrib.
  rewrite !assoc_app, !assoc_attr. cbn [String.eqb Ascii.eqb Bool.eqb ET.assoc].
  repeat split;
    by destruct (EpgChannelProgrammes.start p) as [[|??]|],
      (EpgChannelProgrammes.stop p) as [[|??]|],
      (EpgChannelProgrammes.start_timestamp p) as [[|??]|],
      (EpgChannelProgrammes.stop_timestamp p) as [[|??]|].
Qed.

Lemma child_is_yes_programme_elem channel tags p :
  let output_programme := programme_elem channel tags p in
  child_is_yes (ET.find output_programme "video") "present" =
    Ok (EpgChannelProgrammes.video_present p) ∧
  child_is_yes (ET.find output_programme "video") "colour" =
    Ok (EpgChannelProgrammes.video_colour p) ∧
  child_is_yes (ET.find output_programme "audio") "present" =
    Ok (EpgChannelProgrammes.audio_present p).
Proof.
  cbv zeta. unfold ET.find. rewrite findall_video, findall_audio. split; [|split].
  - by destruct (EpgChannelProgrammes.video_present p) as [[|]|],
      (EpgChannelProgrammes.video_colour p) as [[|]|],
      (EpgChannelProgrammes.video_aspect p) as [[|??]|],
      (EpgChannelProgrammes.video_quality p) as [[|??]|].
  - by destruct (EpgChannelProgrammes.video_present p) as [[|]|],
      (EpgChannelProgrammes.video_colour p) as [[|]|],
      (EpgChannelProgrammes.video_aspect p) as [[|??]|],
      (EpgChannelProgrammes.video_quality p) as [[|??]|].
  - by destruct (EpgChannelProgrammes.audio_present p) as [[|]|],
      (EpgChannelProgrammes.audio_stereo p) as [[|??]|].
Qed.

(** Each piece of a programme element, made again of what is read from it. *)
Lemma attr_truthy key v : attr key (if Py.truthy v then v else None) = attr key v.
Proof. by destruct v as [[|??]|]. Qed.

Lemma truthy_child_truthy name v :
  truthy_child name (if Py.truthy v then v else None) = truthy_child name v.
Proof. by destruct v as [[|??]|]. Qed.

Lemma icon_elems_read icon_url :
  icon_elems (head (icon_elems icon_url) ≫= fun icon => ET.get icon "src") =
  icon_elems icon_url.
Proof. by destruct icon_url as [[|??]|]. Qed.

Lemma episode_num_elems_read system value :
  episode_num_elems (head (episode_num_elems system value) ≫= fun e => ET.get e "system")
                    (head (episode_num_elems system value) ≫= fun e => ET.text e) =
  episode_num_elems system value.
Proof. by destruct system as [[|??]|], value as [[|??]|]. Qed.

Lemma rating_elems_read system value :
  rating_elems (head (rating_elems system value) ≫= fun e => ET.get e "system")
               (child_text (head (rating_elems system value)) "value") =
  rating_elems system value.
Proof. by destruct system as [[|??]|], value as [[|??]|]. Qed.

Lemma star_rating_elems_read v :
  star_rating_elems (child_text (head (star_rating_elems v)) "value") = star_rating_elems v.
Proof. by destruct v as [[|??]|]. Qed.

Lemma video_read video_present video_colour video_aspect video_quality :
  let video :=
    head (group "video" (flag_child "present" video_present ++
                         flag_child "colour" video_colour ++
                         truthy_child "aspect" video_aspect ++
                         truthy_child "quality" video_quality)) in
  truthy_child "aspect" (child_text video "aspect") = truthy_child "aspect" video_aspect ∧
  truthy_child "quality" (child_text video "quality") = truthy_child "quality" video_quality.
Proof.
  by destruct video_present as [[|]|], video_colour as [[|]|],
    video_aspect as [[|??]|], video_quality as [[|??]|].
Qed.

Lemma audio_read audio_present audio_stereo :
  let audio :=
    head (group "audio" (flag_child "present" audio_present ++
                         truthy_child "stereo" audio_stereo)) in
  truthy_child "stereo" (child_text audio "stereo") = truthy_child "stereo" audio_stereo.
Proof. by destruct audio_present as [[|]|], audio_stereo as [[|??]|]. Qed.

Lemma attr_child_read name key v :
  attr_child name key (head (attr_child name key v) ≫= fun e => ET.get e key) =
  attr_child name key v.
Proof.
  destruct v as [[|c s]|]; [done| |done].
  cbn [attr_child Py.truthy when head mbind option_bind].
  unfold ET.get, ET.elem. cbn [ET.attrib ET.assoc]. by rewrite String.eqb_refl.
Qed.

Lemma audio_described_read (v : option bool) (e : ET.Element) :
  when (Py.truthy_bool match head (when (Py.truthy_bool v) e) with
                       | Some _ => Some true
                       | None => None
                       end) e =
  when (Py.truthy_bool v) e.
Proof. by destruct v as [[|]|]. Qed.

Lemma flag_read (v : option bool) (e : ET.Element) :
  when (Py.truthy_bool (Some (bool_decide (is_Some (head (when (Py.truthy_bool v) e)))))) e =
  when (Py.truthy_bool v) e.
Proof. by destruct v as [[|]|]. Qed.

Lemma review_elems_read review_type review_value :
  review_elems (head (review_elems review_type review_value) ≫= fun e => ET.get e "type")
               (head (review_elems review_type review_value) ≫= fun e => ET.text e) =
  review_elems review_type review_value.
Proof. by destruct review_type as [[|??]|], review_value as [[|??]|]. Qed.

Lemma string_app_assoc (a b c : string) : (a +:+ b) +:+ c = a +:+ b +:+ c.
Proof.
  induction a as [|x a IH]; [by rewrite !string_app_nil|].
  by rewrite !string_app_cons, IH.
Qed.

Lemma split_space_Some s a b :
  Py.split_space s = Some (a, b) → s = a +:+ " " +:+ b.
Proof.
  revert a. induction s as [|c s IH]; intros a; [done|].
  cbn [Py.split_space]. destruct (Ascii.eqb c " ") eqn:Hc.
  - apply Ascii.eqb_eq in Hc as ->. intros [= <- <-]. by rewrite string_app_nil.
  - destruct (Py.split_space s) as [[a' b']|]; [|done].
    intros [= <- <-]. rewrite string_app_cons. f_equal. by apply IH.
Qed.

(** A stored length whose text does not begin with a space is read back
    from its element as it is. *)
Lemma length_elems_read c text units :
  c ≠ " "%char →
  let length := Some (String c text +:+ " " +:+ units) in
  (head (length_elems length) ≫= fun length_elem =>
     if Py.truthy (ET.text length_elem)
     then Some (Py.fmt (ET.text length_elem) +:+ " "
                +:+ default "minutes" (ET.get length_elem "units"))
     else None) = length.
Proof.
  intros Hc. cbv zeta. rewrite string_app_cons.
  cbn [length_elems Py.truthy when head mbind option_bind].
  unfold length_elem. cbn [Py.split_space].
  apply Ascii.eqb_neq in Hc. rewrite Hc, split_space_app.
  destruct (Py.split_space text) as [[before after]|] eqn:Htext.
  - apply split_space_Some in Htext as ->.
    cbn [ET.elem ET.text ET.get ET.attrib ET.assoc String.eqb Ascii.eqb Bool.eqb Py.truthy
         Py.fmt default id].
    unfold id. by rewrite !string_app_cons, string_app_assoc.
  - cbn [ET.elem ET.text ET.get ET.attrib ET.assoc String.eqb Ascii.eqb Bool.eqb Py.truthy
         Py.fmt default id].
    unfold id. by rewrite string_app_cons.
Qed.

Lemma category_elem_named_tags (tags : list (option string)) :
  Forall (fun tag => Py.truthy tag = true) tags →
  category_elem "category" ∘ Some <$> omap (fun tag => if Py.truthy tag then tag else None) tags =
  category_elem "category" <$> tags.
Proof.
  induction 1 as [|tag tags Htag _ IH]; [done|].
  cbn [omap list_omap]. rewrite Htag. destruct tag as [t|]; [|done].
  rewrite !fmap_cons. cbn [omap list_omap] in IH. by rewrite IH.
Qed.

(** What is stored for the length of a programme. *)
Lemma programme_row_length_cases epg_channel_id channel_id programme r :
  programme_row epg_channel_id channel_id programme = Ok r →
  EpgChannelProgrammes.length r = None ∨
  ∃ length_child c text units,
    ET.find programme "length" = Some length_child ∧
    ET.text length_child = Some (String c text) ∧
    EpgChannelProgrammes.length r = Some (String c text +:+ " " +:+ units).
Proof.
  intros H. rewrite (programme_row_length _ _ _ _ H).
  destruct (ET.find programme "length") as [length_child|]; [|by left].
  cbn [mbind option_bind]. destruct (ET.text length_child) as [[|c text]|] eqn:Htext;
    [by left| |by left].
  right. by exists length_child, c, text, (default "minutes" (ET.get length_child "units")).
Qed.

(** X21. A programme element of the merged guide, as the tree
    [build_custom_epg] makes, can be read by the loop of
    [store_epg_programmes] in its turn, whatever its source document was,
    and the element made of the row this gives, for a channel of the same
    number without tags, is the same element: a second round loses nothing
    more. The tags of the output channel, which have to be named, are
    categories of the programme from then on. A length whose text begins
    with a space is excepted: it is written with an empty text, which is
    read as no length. *)
Theorem exported_programme_reimports epg_channel_id channel_id programme r channel tags
        epg_channel_id' channel_id' :
  programme_row epg_channel_id channel_id programme = Ok r →
  Forall (fun tag => Py.truthy tag = true) tags →
  (∀ length_child rest,
     ET.find programme "length" = Some length_child →
     ET.text length_child ≠ Some (String " " rest)) →
  ∃ r',
    programme_row epg_channel_id' channel_id' (programme_elem channel tags r) = Ok r' ∧
    programme_elem channel [] r' = programme_elem channel tags r.
Proof.
  intros H Htags Hlength.
  destruct (child_is_yes_programme_elem channel tags r)
    as (Hvideo_present & Hvideo_colour & Haudio_present).
  destruct (findtext_programme_elem channel tags r)
    as (Htitle & Hsub_title & Hdesc & Hseries_desc & Hcountry & Hurl & Hdate).
  destruct (get_programme_elem channel tags r) as (Hstart & Hstop & Hstart_ts & Hstop_ts & _).
  destruct (programme_row_lists _ _ _ _ H) as (Hcategories & Hkeywords & Hcredits).
  unfold programme_row at 1. cbv zeta.
  rewrite Hvideo_present, Hvideo_colour, Haudio_present. cbn [rbind].
  eexists. split; [reflexivity|].
  rewrite Htitle, Hsub_title, Hdesc, Hseries_desc, Hcountry, Hurl, Hdate,
    Hstart, Hstop, Hstart_ts, Hstop_ts.
  rewrite (texts_keyword_round_trip _ _ _ _ _ _ H), (texts_category_round_trip _ _ _ _ _ _ H),
    (parse_credits_round_trip _ _ _ _ _ _ H).
  unfold ET.find.
  rewrite findall_icon, findall_star_rating, findall_subtitles, findall_previously_shown,
    findall_review, findall_episode_num, findall_rating, findall_video, findall_audio,
    findall_audio_described, findall_premiere, findall_new, findall_length.
  unfold programme_elem. f_equal.
  - unfold programme_attrib.
    cbn [EpgChannelProgrammes.start EpgChannelProgrammes.stop
         EpgChannelProgrammes.start_timestamp EpgChannelProgrammes.stop_timestamp].
    by rewrite !attr_truthy.
  - unfold programme_children.
    cbn [EpgChannelProgrammes.title EpgChannelProgrammes.sub_title EpgChannelProgrammes.desc
         EpgChannelProgrammes.series_desc EpgChannelProgrammes.country
         EpgChannelProgrammes.url EpgChannelProgrammes.date EpgChannelProgrammes.length
         EpgChannelProgrammes.credits EpgChannelProgrammes.episode_num_system
         EpgChannelProgrammes.episode_num_value EpgChannelProgrammes.rating_system
         EpgChannelProgrammes.rating_value EpgChannelProgrammes.star_rating
         EpgChannelProgrammes.video_present EpgChannelProgrammes.video_colour
         EpgChannelProgrammes.video_aspect EpgChannelProgrammes.video_quality
         EpgChannelProgrammes.audio_present EpgChannelProgrammes.audio_stereo
         EpgChannelProgrammes.subtitles_type EpgChannelProgrammes.audio_described
         EpgChannelProgrammes.is_premiere EpgChannelProgrammes.is_new
         EpgChannelProgrammes.previously_shown EpgChannelProgrammes.review_type
         EpgChannelProgrammes.review_value EpgChannelProgrammes.icon_url
         EpgChannelProgrammes.keywords EpgChannelProgrammes.categories].
    rewrite !truthy_child_truthy, icon_elems_read, episode_num_elems_read, rating_elems_read,
      star_rating_elems_read, !attr_child_read, audio_described_read, !flag_read,
      review_elems_read.
    destruct (video_read (EpgChannelProgrammes.video_present r)
                (EpgChannelProgrammes.video_colour r) (EpgChannelProgrammes.video_aspect r)
                (EpgChannelProgrammes.video_quality r)) as [-> ->].
    rewrite (audio_read (EpgChannelProgrammes.audio_present r)
               (EpgChannelProgrammes.audio_stereo r)).
    rewrite Hcredits, Hkeywords, Hcategories, !default_dumps_nonempty.
    rewrite fmap_app, (category_elem_named_tags tags Htags), fmap_nil, app_nil_r.
    do 7 f_equal.
    destruct (programme_row_length_cases _ _ _ _ H)
      as [->|(length_child & c & text & units & Hfind & Htext & ->)]; [done|].
    rewrite (length_elems_read c text units); [done|].
    intros ->. by apply (Hlength length_child text).
Qed.

(** The example of X21: a film of a source, written for channel 101 with
    its tag, and read again. *)
Lemma exported_programme_reimports_witness :
  let film :=
    ET.mkElement "programme" [("start", "20240102200000 +0000"); ("channel", "ch2")] None
      [Example.text_node "title" "Film";
       ET.mkElement "length" [("units", "minutes")] (Some "90") [];
       ET.mkElement "category" [("lang", "de")] (Some "Drama") [];
       ET.mkElement "video" [] None [Example.text_node "colour" "Yes"];
       ET.mkElement "rating" [("system", "FSK")] None [Example.text_node "value" "12"];
       ET.mkElement "new" [] None []] in
  ∃ r r',
    programme_row 1 (Some "ch2") film = Ok r ∧
    programme_row 5 (Some "101") (programme_elem "101" [Some "HD"] r) = Ok r' ∧
    programme_elem "101" [] r' = programme_elem "101" [Some "HD"] r ∧
    EpgChannelProgrammes.categories r = Some ["Drama"] ∧
    EpgChannelProgrammes.categories r' = Some ["Drama"; "HD"].
Proof.
  intros film.
  destruct (exported_programme_reimports 1 (Some "ch2") film _ "101" [Some "HD"] 5 (Some "101")
              eq_refl) as (r' & Hrow & Hfixed).
  - by repeat constructor.
  - by intros length_child rest [= <-].
  - eexists _, r'. split; [reflexivity|]. split; [exact Hrow|]. split; [exact Hfixed|].
    split; [reflexivity|]. vm_compute in Hrow. by injection Hrow as <-.
Defined.

(** ** What an ingestion leaves alone *)

(** What [import_epg_data] keeps, in every outcome. *)
Lemma import_epg_data_keeps net epg_id d d' outcome :
  referential_integrity d →
  NoDup (EpgChannels.id <$> epg_channels d) →
  import_epg_data net epg_id d = (d', outcome) →
  epgs d' = epgs d ∧
  channels d' = channels d ∧
  (∀ other, other ≠ epg_id →
            channels_of other d' = channels_of other d ∧
            programmes_of other d' = programmes_of other d) ∧
  referential_integrity d' ∧
  NoDup (EpgChannels.id <$> epg_channels d').
Proof.
  intros Hd Hids.
  assert (∀ items rows,
            Forall (fun item => EpgChannels.epg_id item = epg_id) items →
            Forall (fun r => ∃ c, c ∈ epg_channels (ingested epg_id d items rows) ∧
                                  EpgChannels.id c = EpgChannelProgrammes.epg_channel_id r ∧
                                  EpgChannels.epg_id c = epg_id) rows →
            epgs (ingested epg_id d items rows) = epgs d ∧
            channels (ingested epg_id d items rows) = channels d ∧
            (∀ other, other ≠ epg_id →
                      channels_of other (ingested epg_id d items rows) = channels_of other d ∧
                      programmes_of other (ingested epg_id d items rows) = programmes_of other d) ∧
            referential_integrity (ingested epg_id d items rows) ∧
            NoDup (EpgChannels.id <$> epg_channels (ingested epg_id d items rows))) as Hingested.
  { intros items rows Hitems Hrows. split; [done|]. split; [done|].
    split; [intros other Hother; by apply ingested_others|].
    split; [by apply ingested_referential_integrity|by apply ingested_NoDup]. }
  assert (epgs (cleared epg_id d) = epgs d ∧
          channels (cleared epg_id d) = channels d ∧
          (∀ other, other ≠ epg_id →
                    channels_of other (cleared epg_id d) = channels_of other d ∧
                    programmes_of other (cleared epg_id d) = programmes_of other d) ∧
          referential_integrity (cleared epg_id d) ∧
          NoDup (EpgChannels.id <$> epg_channels (cleared epg_id d))) as Hcleared.
  { split; [apply cleared_epgs|]. split; [apply cleared_channels|].
    split; [intros other Hother; by apply cleared_others|].
    split; [by apply cleared_referential_integrity|by apply cleared_NoDup]. }
  destruct outcome as [[]|e].
  - intros H. apply import_epg_data_Ok in H
        as (epg & root & items & channel_ids & rows & Hepg & Hnet & Hitems & Hch & Hrows & ->).
    destruct (channel_items_declared _ _ _ Hitems) as [Hdeclared Hsource].
    apply Hingested; [done|].
    rewrite (build_channel_ids_ext _ (ingested epg_id d items rows)) in Hch by done.
    destruct (programme_rows_Ok_inv _ _ _ Hrows) as (found & Hfound & ->).
    destruct (programme_rows_spec _ _ _ Hfound) as [_ Hrefs].
    eapply Forall_impl; [exact Hrefs|]. intros r Hr. simpl in Hr.
    destruct (proj2 (build_channel_ids_spec _ _ _ _ _ Hch) _ _ Hr)
      as [Hempty|(_ & c & Hc & Hid & _ & Hsrc)]; [by rewrite lookup_empty in Hempty|].
    by exists c.
  - rewrite import_epg_data_unfold.
    destruct (head _) as [epg|]; [|by intros [= <- _]].
    destruct (net (Epg.url epg)) as [|file]; [by intros [= <- _]|].
    destruct (store_epg_channels (Some file) epg_id (cleared epg_id d))
      as [d2 [channel_id_list|e']] eqn:Hchannels.
    + intros ->%store_epg_programmes_Raise.
      destruct file as [|root]; [done|].
      rewrite store_epg_channels_Document in Hchannels. cbv zeta in Hchannels.
      destruct (rmap (channel_item epg_id) _) as [items|] eqn:Hitems; [|done].
      injection Hchannels as <- _. rewrite ingested_no_rows.
      destruct (channel_items_declared _ _ _ Hitems) as [_ Hsource].
      by apply Hingested.
    + intros [= <- _]. by apply store_epg_channels_Raise in Hchannels as ->.
Qed.

(** X19. Whatever becomes of the ingestion of a source, it leaves the table
    of sources and the output channels as they are, and the guide channels
    and programmes of every other source; the programmes that are stored
    afterwards each belong to a guide channel that is stored, and the keys
    of the guide channels are distinct. *)
Theorem import_epg_data_frame net epg_id d d' outcome :
  referential_integrity d →
  NoDup (EpgChannels.id <$> epg_channels d) →
  import_epg_data net epg_id d = (d', outcome) →
  epgs d' = epgs d ∧
  channels d' = channels d ∧
  (∀ other, other ≠ epg_id →
            channels_of other d' = channels_of other d ∧
            programmes_of other d' = programmes_of other d) ∧
  referential_integrity d' ∧
  NoDup (EpgChannels.id <$> epg_channels d').
Proof. apply import_epg_data_keeps. Qed.


(** The example of X19: source 2 of [Example.stored] is ingested, and what
    source 1 has stays. *)
Lemma import_epg_data_frame_witness :
  ∃ d',
    import_epg_data (IngestionExample.serves Example.guide) 2 Example.stored = (d', Ok tt) ∧
    channels_of 1 d' = [Example.bbc_one] ∧
    programmes_of 1 d' = [Example.weather; Example.news] ∧
    length (channels_of 2 d') = 1%nat ∧
    channels d' = channels Example.stored.
Proof.
  destruct (import_epg_data (IngestionExample.serves Example.guide) 2 Example.stored)
    as [d' outcome] eqn:E.
  assert (outcome = Ok tt) as -> by (by vm_compute in E; injection E as _ <-).
  exists d'. split; [done|].
  destruct (import_epg_data_frame _ _ _ _ _ example_referential_integrity
              ltac:(apply (bool_decide_unpack _); vm_compute; exact I) E)
    as (_ & Hchannels & Hothers & _ & _).
  destruct (Hothers 1 ltac:(lia)) as [-> ->].
  split; [reflexivity|]. split; [by vm_compute|]. split; [|exact Hchannels].
  vm_compute in E. by injection E as <-.
Defined.

(** ** A batch run without an error *)







(** ** When the merged guide cannot be built *)



(** ** A title that is in the cache is not looked up again *)

Section respects.
Context {A : Type} (kept : cache → Prop) (barred : request → Prop).

Lemma respects_cbind {B} (c : coroutine A) (f : A → coroutine B) :
  respects kept barred c → (∀ a, respects kept barred (f a)) →
  respects kept barred (cbind c f).
Proof.
  intros Hc Hf.
  induction c as [a|k IH|k IH|k IH|g k IH|api_key title k IH|title k IH]; simpl in *.
  - apply Hf.
  - by apply IH.
  - by apply IH.
  - intros c Hkept. by apply IH, Hc.
  - destruct Hc as [Hg Hk]. split; [done|]. by apply IH.
  - destruct Hc as [Hbar Hk]. split; [done|]. intros response. by apply IH.
  - destruct Hc as [Hbar Hk]. split; [done|]. intros response. by apply IH.
Qed.

Lemma run_respects i (c : coroutine A) s :
  loop_respects kept barred s → respects kept barred c →
  loop_respects kept barred (run i c s).
Proof.
  revert s.
  induction c as [a|k IH|k IH|k IH|f k IH|api_key title k IH|title k IH];
    intros s (Hcache & Htasks & Hcalls) Hc; simpl in *.
  - split; [done|]. split; [|done]. by apply Forall_insert.
  - destruct (l_permits s) as [|n].
    + split; [done|]. split; [|done]. by apply Forall_insert.
    + by apply IH.
  - apply IH; [|done]. unfold release. destruct (l_waiters s) as [|w ws]; [done|].
    split; [done|]. split; [|done]. simpl.
    destruct (l_tasks s !! w) as [[c'|k'|k'|k'|a']|] eqn:Hw; try done.
    apply Forall_insert; [done|]. by apply (Forall_lookup_1 _ _ _ _ Htasks Hw).
  - apply IH; [done|]. by apply Hc.
  - destruct Hc as [Hf Hk]. apply IH; [|done]. split; [by apply Hf|done].
  - destruct Hc as [Hbar Hk]. split; [done|]. simpl.
    split; [by apply Forall_insert|]. apply Forall_app. split; [done|]. by constructor.
  - destruct Hc as [Hbar Hk]. split; [done|]. simpl.
    split; [by apply Forall_insert|]. apply Forall_app. split; [done|]. by constructor.
Qed.

Lemma step_respects (s : loop A) ev :
  loop_respects kept barred s → loop_respects kept barred (step s ev).
Proof.
  intros Hs. pose proof Hs as (_ & Htasks & _).
  destruct ev as [i response|i response|i]; simpl;
    destruct (l_tasks s !! i) as [[c|k|k|k|a]|] eqn:Hi; try done;
    apply run_respects; try done; by apply (Forall_lookup_1 _ _ _ _ Htasks Hi).
Qed.

Lemma batch_respects (coroutines : list (coroutine A)) c events :
  kept c → Forall (respects kept barred) coroutines →
  loop_respects kept barred (batch coroutines c events).
Proof.
  intros Hc Hcoroutines. unfold batch.
  assert (loop_respects kept barred (mkLoop c 10%nat [] (Ready <$> coroutines) [])) as Hinit.
  { split; [done|]. split; [|constructor]. simpl. by apply Forall_fmap. }
  assert (∀ (s : loop A) evs,
            loop_respects kept barred s → loop_respects kept barred (foldl step s evs)) as Hfold.
  { intros s evs. revert s. induction evs as [|ev evs IH]; intros s Hs; simpl; [done|].
    by apply IH, step_respects. }
  assert (∀ (s : loop A) l,
            loop_respects kept barred s →
            loop_respects kept barred (foldl (fun s i => step s (Resume i)) s l)) as Hstart.
  { intros s l. revert s. induction l as [|i l IH]; intros s Hs; [done|].
    cbn [foldl]. by apply IH, (step_respects s (Resume i)). }
  by apply Hfold, Hstart.
Qed.

End respects.

Lemma respects_with_semaphore {A} kept barred (body : coroutine A) :
  respects kept barred body → respects kept barred (with_semaphore body).
Proof. intros Hbody. simpl. by apply respects_cbind. Qed.

Lemma respects_update_wrapper kept barred settings programme :
  (∀ api_key title, respects kept barred (search_tmdb_for_movie api_key title)) →
  (∀ title, respects kept barred (search_google_images title)) →
  respects kept barred (update_wrapper settings programme).
Proof.
  intros Htmdb Hgoogle.
  unfold update_wrapper. destruct (EpgChannelProgrammes.categories programme); [|done].
  unfold update_programme_with_online_data. apply respects_cbind.
  - destruct (lacks_all programme && enable_tmdb_metadata settings); [|done].
    apply respects_cbind; [apply Htmdb|]. by intros [[[|??]|]|].
  - intros [p [e|]]; [done|].
    destruct (negb (Py.truthy (EpgChannelProgrammes.icon_url p))
              && enable_google_image_search_metadata settings); [|done].
    apply respects_cbind; [apply Hgoogle|].
    intros [image_url|]; [|done]. by destruct (Py.truthy image_url).
Qed.

(** The look-ups keep what the cache has for a title of TMDB, and ask TMDB
    for no title it has. *)
Lemma cached_tmdb_store_ne title title' v c found :
  title' ≠ title → cached_tmdb c title = Some found →
  cached_tmdb (store_tmdb title' v c) title = Some found.
Proof.
  unfold cached_tmdb, store_tmdb. simpl. intros Hne.
  destruct (tmdb c) as [m|]; simpl; [|done]. by rewrite lookup_insert_ne.
Qed.

Lemma cached_tmdb_init_tmdb title c found :
  cached_tmdb c title = Some found → cached_tmdb (init_tmdb c) title = Some found.
Proof.
  unfold cached_tmdb, init_tmdb. by destruct (tmdb c) eqn:E; simpl; rewrite ?E.
Qed.

Lemma respects_tmdb_search_tmdb title found api_key title' :
  respects (fun c => cached_tmdb c title = Some found)
           (fun r => ∃ api_key, r = TmdbSearch api_key title)
           (search_tmdb_for_movie api_key title').
Proof.
  apply respects_with_semaphore. simpl. split; [intros c; apply cached_tmdb_init_tmdb|].
  intros c Hc. destruct (cached_tmdb c title') as [cached|] eqn:Hmiss; simpl; [done|].
  assert (title' ≠ title) as Hne by (intros ->; congruence).
  split; [intros [k Hk]; injection Hk as _ Hk; by apply Hne|].
  intros [|status results]; simpl; [done|].
  destruct (if status =? 200 then head results else None); simpl;
    (split; [|done]); intros c'; by apply cached_tmdb_store_ne.
Qed.

Lemma respects_tmdb_search_google title found title' :
  respects (fun c => cached_tmdb c title = Some found)
           (fun r => ∃ api_key, r = TmdbSearch api_key title)
           (search_google_images title').
Proof.
  apply respects_with_semaphore. simpl.
  split; [intros c; unfold cached_tmdb, init_google_images; by destruct (google_images c)|].
  intros c Hc. destruct (cached_google_images c title'); simpl; [done|].
  split; [by intros [? [=]]|].
  intros [|status images]; simpl; [done|].
  by destruct (if status =? 200 then images else []) as [|first [|[second|] rest]].
Qed.

(** The same for the image search. *)
Lemma cached_google_images_store_ne title title' v c found :
  title' ≠ title → cached_google_images c title = Some found →
  cached_google_images (store_google_images title' v c) title = Some found.
Proof.
  unfold cached_google_images, store_google_images. simpl. intros Hne.
  destruct (google_images c) as [m|]; simpl; [|done]. by rewrite lookup_insert_ne.
Qed.

Lemma respects_google_search_google title found title' :
  respects (fun c => cached_google_images c title = Some found)
           (fun r => r = GoogleSearch title)
           (search_google_images title').
Proof.
  apply respects_with_semaphore. simpl.
  split; [intros c; unfold cached_google_images, init_google_images;
          by destruct (google_images c) eqn:E; simpl; rewrite ?E|].
  intros c Hc. destruct (cached_google_images c title') as [cached|] eqn:Hmiss; simpl; [done|].
  assert (title' ≠ title) as Hne by (intros ->; congruence).
  split; [intros Hk; injection Hk as Hk; by apply Hne|].
  intros [|status images]; simpl; [done|].
  destruct (if status =? 200 then images else []) as [|first [|[second|] rest]]; simpl;
    try done; (split; [|done]); intros c'; by apply cached_google_images_store_ne.
Qed.

Lemma respects_google_search_tmdb title found api_key title' :
  respects (fun c => cached_google_images c title = Some found)
           (fun r => r = GoogleSearch title)
           (search_tmdb_for_movie api_key title').
Proof.
  apply respects_with_semaphore. simpl.
  split; [intros c; unfold cached_google_images, init_tmdb; by destruct (tmdb c)|].
  intros c Hc. destruct (cached_tmdb c title'); simpl; [done|].
  split; [done|].
  intros [|status results]; simpl; [done|].
  by destruct (if status =? 200 then head results else None).
Qed.

(** A batch keeps what the cache has and asks for none of the titles it
    has. *)
Lemma update_programmes_concurrently_cached settings programmes c events results c' sent :
  update_programmes_concurrently settings programmes c events = Some (results, c', sent) →
  (∀ title found,
     cached_tmdb c title = Some found →
     cached_tmdb c' title = Some found ∧ ∀ api_key, TmdbSearch api_key title ∉ sent) ∧
  (∀ title found,
     cached_google_images c title = Some found →
     cached_google_images c' title = Some found ∧ GoogleSearch title ∉ sent).
Proof.
  unfold update_programmes_concurrently, gather. cbv zeta.
  fold (batch (update_wrapper settings <$> programmes) c events).
  destruct (gathered _); [|done]. intros [= _ <- <-]. split.
  - intros title found Hc.
    destruct (batch_respects (fun c => cached_tmdb c title = Some found)
                (fun r => ∃ api_key, r = TmdbSearch api_key title)
                (update_wrapper settings <$> programmes) c events Hc) as (Hc' & _ & Hcalls).
    { apply Forall_fmap, Forall_forall. intros programme _. simpl.
      apply respects_update_wrapper.
      - intros api_key title'. apply respects_tmdb_search_tmdb.
      - intros title'. apply respects_tmdb_search_google. }
    split; [done|]. intros api_key Hin. rewrite Forall_forall in Hcalls.
    apply (Hcalls _ Hin). by exists api_key.
  - intros title found Hc.
    destruct (batch_respects (fun c => cached_google_images c title = Some found)
                (fun r => r = GoogleSearch title)
                (update_wrapper settings <$> programmes) c events Hc) as (Hc' & _ & Hcalls).
    { apply Forall_fmap, Forall_forall. intros programme _. simpl.
      apply respects_update_wrapper.
      - intros api_key title'. apply respects_google_search_tmdb.
      - intros title'. apply respects_google_search_google. }
    split; [done|]. intros Hin. rewrite Forall_forall in Hcalls. by apply (Hcalls _ Hin).
Qed.

(** The loop over the channels, cut in two. *)
Lemma update_channels_app settings done rest events c d calls :
  update_channels settings (done ++ rest) events c d calls =
  match update_channels settings done events c d calls with
  | Some (d1, c1, calls1) =>
      update_channels settings rest (drop (length done) events) c1 d1 calls1
  | None => None
  end.
Proof.
  revert events c d calls.
  induction done as [|result done IH]; intros events c d calls; simpl; [done|].
  destruct (update_programmes_concurrently _ _ _ _) as [[[updated c1] sent1]|]; [|done].
  rewrite IH.
  replace (drop (length done) (tail events)) with (drop (S (length done)) events); [done|].
  destruct events; simpl; by rewrite ?drop_nil.
Qed.

(** X23. The batches of [update_channel_epg_with_online_data] share one
    cache. Stop the run between two batches, with the channels [done] behind
    and the channels [rest] ahead (before the first batch and after the last
    included): what the cache holds for a title at this point, be it a
    result or the absence of one, and whether it was there from the start
    or written by a batch of [done], it still holds when the run is over,
    and no batch of [rest] asks the provider for this title. This holds for
    TMDB and for the image search. Nothing is said of what is written while
    a batch is under way: the look-ups of that batch that have read the
    cache before may still send their requests and write over it. *)
Theorem cached_titles_are_not_requested settings done rest events c d calls d' c' calls' :
  update_channels settings (done ++ rest) events c d calls = Some (d', c', calls') →
  ∃ d1 c1 calls1 sent,
    update_channels settings done events c d calls = Some (d1, c1, calls1) ∧
    update_channels settings rest (drop (length done) events) c1 d1 calls1
    = Some (d', c', calls') ∧
    calls' = calls1 ++ sent ∧
    (∀ title found,
       cached_tmdb c1 title = Some found →
       cached_tmdb c' title = Some found ∧ ∀ api_key, TmdbSearch api_key title ∉ sent) ∧
    (∀ title found,
       cached_google_images c1 title = Some found →
       cached_google_images c' title = Some found ∧ GoogleSearch title ∉ sent).
Proof.
  rewrite update_channels_app.
  destruct (update_channels settings done events c d calls) as [[[d1 c1] calls1]|]; [|done].
  intros Hrest. exists d1, c1, calls1.
  cut (∃ sent,
         calls' = calls1 ++ sent ∧
         (∀ title found,
            cached_tmdb c1 title = Some found →
            cached_tmdb c' title = Some found ∧ ∀ api_key, TmdbSearch api_key title ∉ sent) ∧
         (∀ title found,
            cached_google_images c1 title = Some found →
            cached_google_images c' title = Some found ∧ GoogleSearch title ∉ sent)).
  { intros (sent & ? & ? & ?). by exists sent. }
  revert Hrest. generalize (drop (length done) events). clear.
  revert c1 d1 calls1.
  induction rest as [|result results IH]; intros c d calls events; simpl.
  - intros [= <- <- <-]. exists []. rewrite app_nil_r. split; [done|].
    split; intros title found Hc; (split; [done|]); [intros api_key|]; apply not_elem_of_nil.
  - destruct (update_programmes_concurrently _ _ _ _) as [[[updated c1] sent1]|] eqn:Hbatch;
      [|done].
    apply update_programmes_concurrently_cached in Hbatch as [Htmdb1 Hgoogle1].
    intros (sent & -> & Htmdb & Hgoogle)%IH.
    exists (sent1 ++ sent). split; [by rewrite (assoc_L (++))|]. split.
    + intros title found Hc. destruct (Htmdb1 title found Hc) as [Hc1 Hsent1].
      destruct (Htmdb title found Hc1) as [Hc' Hsent]. split; [done|].
      intros api_key [?|?]%elem_of_app; [by apply (Hsent1 api_key)|by apply (Hsent api_key)].
    + intros title found Hc. destruct (Hgoogle1 title found Hc) as [Hc1 Hsent1].
      destruct (Hgoogle title found Hc1) as [Hc' Hsent]. split; [done|].
      by intros [?|?]%elem_of_app.
Qed.

(** The example of X23: channel 101 of [Example.stored] twice. The first
    batch asks TMDB for both titles; the second finds the title that was not
    found in the cache and asks for nothing. *)
Lemma cached_titles_are_not_requested_witness :
  let events := [[TmdbArrives 0 EnrichmentExample.found_news;
                  TmdbArrives 1 EnrichmentExample.found_nothing]; []] in
  ∃ d' c',
    update_channels EnrichmentExample.tmdb_only ([Example.channel_101] ++ [Example.channel_101])
                    events empty_cache Example.stored []
    = Some (d', c', [TmdbSearch "key" (Some "News"); TmdbSearch "key" (Some "Weather")]) ∧
    cached_tmdb c' (Some "News") = Some (Some EnrichmentExample.news_record) ∧
    cached_tmdb c' (Some "Weather") = Some None.
Proof.
  intros events.
  destruct (update_channels EnrichmentExample.tmdb_only
              ([Example.channel_101] ++ [Example.channel_101]) events empty_cache
              Example.stored []) as [[[d' c'] calls']|] eqn:E.
  - destruct (cached_titles_are_not_requested _ _ _ _ _ _ _ _ _ _ E)
      as (d1 & c1 & calls1 & sent & Hdone & _ & _ & Htmdb & _).
    vm_compute in Hdone. injection Hdone as <- <- <-.
    exists d', c'. split; [|split].
    + vm_compute in E. by injection E as <- <- <-.
    + by apply Htmdb.
    + by apply Htmdb.
  - by vm_compute in E.
Defined.

Lemma programme_row_marks epg_channel_id channel_id programme r :
  programme_row epg_channel_id channel_id programme = Ok r →
  EpgChannelProgrammes.icon_url r = (icon ← ET.find programme "icon"; ET.get icon "src") ∧
  EpgChannelProgrammes.subtitles_type r = (e ← ET.find programme "subtitles"; ET.get e "type") ∧
  EpgChannelProgrammes.previously_shown r =
    (e ← ET.find programme "previously-shown"; ET.get e "start") ∧
  EpgChannelProgrammes.star_rating r = child_text (ET.find programme "star-rating") "value" ∧
  EpgChannelProgrammes.review_type r = (e ← ET.find programme "review"; ET.get e "type") ∧
  EpgChannelProgrammes.review_value r = (e ← ET.find programme "review"; ET.text e) ∧
  EpgChannelProgrammes.video_aspect r = child_text (ET.find programme "video") "aspect" ∧
  EpgChannelProgrammes.video_quality r = child_text (ET.find programme "video") "quality" ∧
  EpgChannelProgrammes.audio_stereo r = child_text (ET.find programme "audio") "stereo".
Proof. intros H. programme_row_Ok H. by repeat split. Qed.

(** X24. What the merged guide keeps of the other marks of a programme of
    a source document. The [src] of the icon, the [type] of the subtitles,
    the [start] of [<previously-shown>], the value of the star rating, the
    aspect and the quality of the video and the stereo mode of the audio are
    kept unless they are empty, in which case their element is left out.
    The review is kept with its text unless the text is empty; its [type]
    goes with it unless it is empty, and a review without text is left out
    even if it has a type. *)
Theorem programme_marks_round_trip epg_channel_id channel_id programme r channel tags :
  programme_row epg_channel_id channel_id programme = Ok r →
  let output_programme := programme_elem channel tags r in
  let kept (v : option string) := if Py.truthy v then v else None in
  (icon ← ET.find output_programme "icon"; ET.get icon "src") =
    kept (icon ← ET.find programme "icon"; ET.get icon "src") ∧
  (e ← ET.find output_programme "subtitles"; ET.get e "type") =
    kept (e ← ET.find programme "subtitles"; ET.get e "type") ∧
  (e ← ET.find output_programme "previously-shown"; ET.get e "start") =
    kept (e ← ET.find programme "previously-shown"; ET.get e "start") ∧
  child_text (ET.find output_programme "star-rating") "value" =
    kept (child_text (ET.find programme "star-rating") "value") ∧
  (e ← ET.find output_programme "review"; ET.text e) =
    kept (e ← ET.find programme "review"; ET.text e) ∧
  (e ← ET.find output_programme "review"; ET.get e "type") =
    (if Py.truthy (e ← ET.find programme "review"; ET.text e)
     then kept (e ← ET.find programme "review"; ET.get e "type")
     else None) ∧
  child_text (ET.find output_programme "video") "aspect" =
    kept (child_text (ET.find programme "video") "aspect") ∧
  child_text (ET.find output_programme "video") "quality" =
    kept (child_text (ET.find programme "video") "quality") ∧
  child_text (ET.find output_programme "audio") "stereo" =
    kept (child_text (ET.find programme "audio") "stereo").
Proof.
  intros H output_programme kept. subst output_programme kept.
  destruct (programme_row_marks _ _ _ _ H)
    as (<- & <- & <- & <- & <- & <- & <- & <- & <-).
  unfold ET.find.
  rewrite findall_icon, findall_subtitles, findall_previously_shown, findall_star_rating,
    !findall_review, !findall_video, findall_audio.
  clear. repeat split.
  - by destruct (EpgChannelProgrammes.icon_url r) as [[|??]|].
  - by destruct (EpgChannelProgrammes.subtitles_type r) as [[|??]|].
  - by destruct (EpgChannelProgrammes.previously_shown r) as [[|??]|].
  - by destruct (EpgChannelProgrammes.star_rating r) as [[|??]|].
  - by destruct (EpgChannelProgrammes.review_type r) as [[|??]|],
      (EpgChannelProgrammes.review_value r) as [[|??]|].
  - by destruct (EpgChannelProgrammes.review_type r) as [[|??]|],
      (EpgChannelProgrammes.review_value r) as [[|??]|].
  - by destruct (EpgChannelProgrammes.video_present r) as [[|]|],
      (EpgChannelProgrammes.video_colour r) as [[|]|],
      (EpgChannelProgrammes.video_aspect r) as [[|??]|],
      (EpgChannelProgrammes.video_quality r) as [[|??]|].
  - by destruct (EpgChannelProgrammes.video_present r) as [[|]|],
      (EpgChannelProgrammes.video_colour r) as [[|]|],
      (EpgChannelProgrammes.video_aspect r) as [[|??]|],
      (EpgChannelProgrammes.video_quality r) as [[|??]|].
  - by destruct (EpgChannelProgrammes.audio_present r) as [[|]|],
      (EpgChannelProgrammes.audio_stereo r) as [[|??]|].
Qed.

(** The example of X24: a programme with an icon, a review that has a type
    and no text, and a video without an aspect. *)
Lemma programme_marks_round_trip_witness :
  let show :=
    ET.mkElement "programme" [("channel", "ch1")] None
      [ET.mkElement "icon" [("src", "http://one/icon.png"); ("width", "100")] None [];
       ET.mkElement "review" [("type", "text")] None [];
       ET.mkElement "video" [] None
         [ET.mkElement "aspect" [] None []; Example.text_node "quality" "HDTV"]] in
  ∃ r,
    programme_row 1 (Some "ch1") show = Ok r ∧
    ET.findall (programme_elem "101" [] r) "icon" =
      [ET.elem "icon" [("src", "http://one/icon.png"); ("height", ""); ("width", "")] None []] ∧
    (e ← ET.find (programme_elem "101" [] r) "review"; ET.get e "type") = None ∧
    child_text (ET.find (programme_elem "101" [] r) "video") "aspect" = None ∧
    child_text (ET.find (programme_elem "101" [] r) "video") "quality" = Some "HDTV".
Proof.
  intros show. eexists. split; [reflexivity|].
  destruct (programme_marks_round_trip 1 (Some "ch1") show _ "101" [] eq_refl)
    as (_ & _ & _ & _ & _ & Hreview & Haspect & Hquality & _).
  split; [reflexivity|]. split; [exact Hreview|]. split; [exact Haspect|exact Hquality].
Defined.
